(** * Group-chat administration scripts of sphere-infra: a shallow embedding

    The three Node.js scripts of [groupchat-cli] -- [delete-group.js],
    [create-group.js] and [list-groups.js] -- are event-driven programs: each
    one installs handlers on a WebSocket ([open], [message], [error],
    [close]) and a few timers.  This development embeds

    - the JavaScript values the handlers inspect (module [JS]),
    - the JSON reader behind [JSON.parse] (module [Json]),
    - frames and signed events (module [Wire]),
    - the event loop that delivers signals and fires timers (module [Loop]),
    - the three scripts, handler by handler (modules [DeleteGroup],
      [CreateGroup], [ListGroups]),

    then the predicates the properties are stated with (modules [Inbound],
    [Demo] and the [...Spec] modules), and last the facts: about the event
    loop ([LoopFacts]), about each script ([GroupIdFacts], [RecordFacts],
    [DeleteFacts], [CreateFacts], [ListFacts]) and about the relay session
    as a whole ([Session]); the identifier of a name given character by
    character ([NameFacts]) and the order of the existence check and the
    create-group event ([CheckFirst]) follow, then the facts about whole
    conversations with the relay.

    Conventions.  A JavaScript string is represented by the bytes of its
    UTF-8 encoding ([string]); every comparison the scripts make is against
    an ASCII literal or a hexadecimal event identifier, for which byte
    equality and code-unit equality coincide.  A number read from JSON is
    kept exactly, as a mantissa and a decimal exponent.  Time is the clock
    of the event loop, in milliseconds since the script was loaded. *)

From Stdlib Require Import List String Ascii ZArith NArith Bool Lia.
From Stdlib Require Import DecimalString Sorted.
Import ListNotations.

Set Warnings "-register-all".

Local Open Scope string_scope.

(** ** JavaScript values *)

Module JS.

(** The values [JSON.parse] can produce, together with [undefined], which a
    property read yields for an absent property.  [VNum m e] stands for the
    number [m * 10^e]. *)
Inductive value : Type :=
| VUndef
| VNull
| VBool (b : bool)
| VNum (m e : Z)
| VStr (s : string)
| VArr (items : list value)
| VObj (members : list (string * value)).

(** A decimal [m * 10^e] becomes the double zero when [m] is zero or when
    its magnitude is at most half the smallest subnormal, [2^-1075] (round
    to nearest, ties to even). *)
Definition num_is_zero (m e : Z) : bool :=
  ((m =? 0) || ((e <? 0) && (Z.abs m * 2 ^ 1075 <=? 10 ^ (- e))))%Z.

(** [ToBoolean]: what [if (v)], [!v], [a || b] and [a && b] test. *)
Definition truthy (v : value) : bool :=
  match v with
  | VUndef | VNull => false
  | VBool b => b
  | VNum m e => negb (num_is_zero m e)
  | VStr s => negb (s =? "")
  | VArr _ | VObj _ => true
  end.

(** [a || b] *)
Definition js_or (a b : value) : value := if truthy a then a else b.

(** [v === 'literal']: strict equality with a string. *)
Definition is_str (v : value) (s : string) : bool :=
  match v with
  | VStr s' => s' =? s
  | _ => false
  end.

(** Own property of an object built by [JSON.parse]: when a key is repeated
    in the text the last occurrence is the one that stays. *)
Fixpoint own_property (k : string) (ms : list (string * value)) : option value :=
  match ms with
  | [] => None
  | (k', v) :: rest =>
      match own_property k rest with
      | Some w => Some w
      | None => if k' =? k then Some v else None
      end
  end.

Definition index_key (i : nat) : string :=
  NilEmpty.string_of_uint (Nat.to_uint i).

(** [v[0]], [v[1]], ... : the reader of the indexed properties of [v].
    [None] is the [TypeError] that any property read raises when [v] is
    [null] or [undefined].  Numbers and booleans have no indexed property; a
    string yields its [i]-th character. *)
Definition indexer (v : value) : option (nat -> value) :=
  match v with
  | VUndef | VNull => None
  | VBool _ | VNum _ _ => Some (fun _ => VUndef)
  | VStr s =>
      Some (fun i => match String.get i s with
                     | Some c => VStr (String c "")
                     | None => VUndef
                     end)
  | VArr l => Some (fun i => nth i l VUndef)
  | VObj ms =>
      Some (fun i => match own_property (index_key i) ms with
                     | Some w => w
                     | None => VUndef
                     end)
  end.

(** [v.k] for the property names the scripts read ([content], [tags],
    [created_at], [name], [about], [private]): none of them exists on a
    prototype, so only an object can hold one.  [None] is again the
    [TypeError] of a read on [null] or [undefined]. *)
Definition reader (v : value) : option (string -> value) :=
  match v with
  | VUndef | VNull => None
  | VObj ms =>
      Some (fun k => match own_property k ms with
                     | Some w => w
                     | None => VUndef
                     end)
  | _ => Some (fun _ => VUndef)
  end.

(** [ToString], used where a non-string reaches [JSON.parse].  The printing
    of a number is the runtime's ([Number::toString]) and is a parameter. *)
Section ToString.
Variable number_toString : Z -> Z -> string.

Fixpoint js_toString (v : value) : string :=
  match v with
  | VUndef => "undefined"
  | VNull => "null"
  | VBool true => "true"
  | VBool false => "false"
  | VNum m e => number_toString m e
  | VStr s => s
  | VArr l =>
      let item x :=
        match x with
        | VUndef | VNull => ""
        | _ => js_toString x
        end in
      String.concat "," (map item l)
  | VObj _ => "[object Object]"
  end.
End ToString.

(** [ToString] raises a [TypeError] on an object that [JSON.parse] built
    with a property named [toString]: the property hides
    [Object.prototype.toString], is not callable, and the [valueOf] that is
    tried next returns no primitive.  An array is joined, so it raises when
    one of its items does; [js_toString] is the result in every other
    case. *)
Fixpoint toString_raises (v : value) : bool :=
  match v with
  | VArr l => existsb toString_raises l
  | VObj ms =>
      match own_property "toString" ms with
      | Some _ => true
      | None => false
      end
  | _ => false
  end.

End JS.

Import JS.

(** ** JSON.parse *)

Module Json.

Inductive token : Type :=
| TLBrace | TRBrace | TLBrack | TRBrack | TColon | TComma
| TScalar (v : value).

(** *** Lexer: one character at a time *)

Inductive nphase : Type :=
| PMinus   (* after '-': a digit must follow *)
| PZero    (* after a leading 0 *)
| PInt     (* inside the integer part *)
| PDot     (* after '.': a digit must follow *)
| PFrac    (* inside the fraction *)
| PE       (* after 'e' or 'E' *)
| PESign   (* after the exponent's sign: a digit must follow *)
| PExp.    (* inside the exponent *)

Record numacc : Type := {
  n_neg : bool;    (* a leading '-' was read *)
  n_mant : Z;      (* all digits read so far, integer part and fraction *)
  n_scale : Z;     (* how many of them belong to the fraction *)
  n_eneg : bool;   (* the exponent's sign is '-' *)
  n_exp : Z        (* exponent digits *)
}.

Inductive lstate : Type :=
| LStart
| LWord (expect : list ascii) (v : value)
| LStr (acc : list ascii)
| LEsc (acc : list ascii)
| LHex (acc : list ascii) (k : nat) (n : N)
| LNum (p : nphase) (a : numacc).

Definition code (c : ascii) : N := N_of_ascii c.

Definition is_ws (c : ascii) : bool :=
  let n := code c in ((n =? 32) || (n =? 9) || (n =? 10) || (n =? 13))%N.

Definition is_digit (c : ascii) : bool :=
  let n := code c in ((48 <=? n) && (n <=? 57))%N.

Definition is_quote (c : ascii) : bool := (code c =? 34)%N.

Definition digit_val (c : ascii) : Z := (Z.of_N (code c) - 48)%Z.

Definition hex_val (c : ascii) : option N :=
  let n := code c in
  if ((48 <=? n) && (n <=? 57))%N then Some (n - 48)%N
  else if ((65 <=? n) && (n <=? 70))%N then Some (n - 55)%N
  else if ((97 <=? n) && (n <=? 102))%N then Some (n - 87)%N
  else None.

(** Bytes that stand for one code unit given by a [\uXXXX] escape. *)
Definition unit_bytes (n : N) : list ascii :=
  if (n <? 128)%N then [ascii_of_N n]
  else if (n <? 2048)%N then
    [ascii_of_N (192 + n / 64); ascii_of_N (128 + n mod 64)]
  else
    [ascii_of_N (224 + n / 4096); ascii_of_N (128 + (n / 64) mod 64);
     ascii_of_N (128 + n mod 64)].

Definition num_value (a : numacc) : value :=
  VNum (if n_neg a then - n_mant a else n_mant a)%Z
       ((if n_eneg a then - n_exp a else n_exp a) - n_scale a)%Z.

Definition num0 (neg : bool) (d : Z) : numacc :=
  {| n_neg := neg; n_mant := d; n_scale := 0; n_eneg := false; n_exp := 0 |}.

Definition push_int (a : numacc) (d : Z) : numacc :=
  {| n_neg := n_neg a; n_mant := (10 * n_mant a + d)%Z; n_scale := n_scale a;
     n_eneg := n_eneg a; n_exp := n_exp a |}.

Definition push_frac (a : numacc) (d : Z) : numacc :=
  {| n_neg := n_neg a; n_mant := (10 * n_mant a + d)%Z;
     n_scale := (n_scale a + 1)%Z; n_eneg := n_eneg a; n_exp := n_exp a |}.

Definition set_eneg (a : numacc) : numacc :=
  {| n_neg := n_neg a; n_mant := n_mant a; n_scale := n_scale a;
     n_eneg := true; n_exp := n_exp a |}.

Definition push_exp (a : numacc) (d : Z) : numacc :=
  {| n_neg := n_neg a; n_mant := n_mant a; n_scale := n_scale a;
     n_eneg := n_eneg a; n_exp := (10 * n_exp a + d)%Z |}.

(** A character met between two tokens. *)
Definition lex_start (c : ascii) : option (lstate * list token) :=
  if is_ws c then Some (LStart, [])
  else if is_quote c then Some (LStr [], [])
  else if is_digit c then
    Some (LNum (if (code c =? 48)%N then PZero else PInt)
               (num0 false (digit_val c)), [])
  else
    match c with
    | "{"%char => Some (LStart, [TLBrace])
    | "}"%char => Some (LStart, [TRBrace])
    | "["%char => Some (LStart, [TLBrack])
    | "]"%char => Some (LStart, [TRBrack])
    | ":"%char => Some (LStart, [TColon])
    | ","%char => Some (LStart, [TComma])
    | "-"%char => Some (LNum PMinus (num0 true 0), [])
    | "n"%char => Some (LWord ["u"; "l"; "l"]%char VNull, [])
    | "t"%char => Some (LWord ["r"; "u"; "e"]%char (VBool true), [])
    | "f"%char => Some (LWord ["a"; "l"; "s"; "e"]%char (VBool false), [])
    | _ => None
    end.

(** A number ends at the first character that cannot extend it; that
    character is then read as the start of what follows. *)
Definition end_number (a : numacc) (c : ascii) : option (lstate * list token) :=
  match lex_start c with
  | Some (st, ts) => Some (st, TScalar (num_value a) :: ts)
  | None => None
  end.

Definition is_e (c : ascii) : bool :=
  match c with
  | "e"%char | "E"%char => true
  | _ => false
  end.

Definition lex_number (p : nphase) (a : numacc) (c : ascii)
  : option (lstate * list token) :=
  match p with
  | PMinus =>
      if is_digit c then
        Some (LNum (if (code c =? 48)%N then PZero else PInt)
                   (push_int a (digit_val c)), [])
      else None
  | PZero =>
      if is_digit c then None
      else if Ascii.eqb c "." then Some (LNum PDot a, [])
      else if is_e c then Some (LNum PE a, [])
      else end_number a c
  | PInt =>
      if is_digit c then Some (LNum PInt (push_int a (digit_val c)), [])
      else if Ascii.eqb c "." then Some (LNum PDot a, [])
      else if is_e c then Some (LNum PE a, [])
      else end_number a c
  | PDot =>
      if is_digit c then Some (LNum PFrac (push_frac a (digit_val c)), [])
      else None
  | PFrac =>
      if is_digit c then Some (LNum PFrac (push_frac a (digit_val c)), [])
      else if is_e c then Some (LNum PE a, [])
      else end_number a c
  | PE =>
      if is_digit c then Some (LNum PExp (push_exp a (digit_val c)), [])
      else if Ascii.eqb c "+" then Some (LNum PESign a, [])
      else if Ascii.eqb c "-" then Some (LNum PESign (set_eneg a), [])
      else None
  | PESign =>
      if is_digit c then Some (LNum PExp (push_exp a (digit_val c)), [])
      else None
  | PExp =>
      if is_digit c then Some (LNum PExp (push_exp a (digit_val c)), [])
      else end_number a c
  end.

Definition str_token (acc : list ascii) : token :=
  TScalar (VStr (string_of_list_ascii (rev acc))).

Definition lex_escape (acc : list ascii) (c : ascii) : option (lstate * list token) :=
  match c with
  | "\"%char | "/"%char => Some (LStr (c :: acc), [])
  | "b"%char => Some (LStr (ascii_of_N 8 :: acc), [])
  | "f"%char => Some (LStr (ascii_of_N 12 :: acc), [])
  | "n"%char => Some (LStr (ascii_of_N 10 :: acc), [])
  | "r"%char => Some (LStr (ascii_of_N 13 :: acc), [])
  | "t"%char => Some (LStr (ascii_of_N 9 :: acc), [])
  | "u"%char => Some (LHex acc 0 0%N, [])
  | _ => if is_quote c then Some (LStr (c :: acc), []) else None
  end.

Definition lex_char (st : lstate) (c : ascii) : option (lstate * list token) :=
  match st with
  | LStart => lex_start c
  | LWord [] _ => None
  | LWord [x] v => if Ascii.eqb c x then Some (LStart, [TScalar v]) else None
  | LWord (x :: more) v => if Ascii.eqb c x then Some (LWord more v, []) else None
  | LStr acc =>
      if is_quote c then Some (LStart, [str_token acc])
      else if Ascii.eqb c "\" then Some (LEsc acc, [])
      else if (code c <? 32)%N then None
      else Some (LStr (c :: acc), [])
  | LEsc acc => lex_escape acc c
  | LHex acc k n =>
      match hex_val c with
      | None => None
      | Some h =>
          let n' := (16 * n + h)%N in
          if Nat.eqb k 3 then Some (LStr (rev (unit_bytes n') ++ acc)%list, [])
          else Some (LHex acc (S k) n', [])
      end
  | LNum p a => lex_number p a c
  end.

Definition lex_end (st : lstate) : option (list token) :=
  match st with
  | LStart => Some []
  | LNum (PZero | PInt | PFrac | PExp) a => Some [TScalar (num_value a)]
  | _ => None
  end.

Fixpoint lex_from (st : lstate) (cs : list ascii) : option (list token) :=
  match cs with
  | [] => lex_end st
  | c :: cs' =>
      match lex_char st c with
      | None => None
      | Some (st', ts) =>
          match lex_from st' cs' with
          | None => None
          | Some more => Some (ts ++ more)%list
          end
      end
  end.

(** *** Parser: a stack of the containers still open *)

Inductive open_container : Type :=
| InArr (done : list value)
| InObj (done : list (string * value))
| InMember (done : list (string * value)) (key : string).

Inductive pstate : Type :=
| PValue         (* a value must come *)
| PValueOrEnd    (* just after '[' *)
| PKeyOrEnd      (* just after '{' *)
| PKey           (* after ',' in an object *)
| PColon (k : string)
| PNext          (* after a value inside a container *)
| PDone (v : value).

Definition parser : Type := (pstate * list open_container)%type.

(** A value has just been read in full. *)
Definition complete (v : value) (stack : list open_container) : option parser :=
  match stack with
  | [] => Some (PDone v, [])
  | InArr done :: up => Some (PNext, InArr (v :: done) :: up)
  | InMember done k :: up => Some (PNext, InObj ((k, v) :: done) :: up)
  | InObj _ :: _ => None
  end.

Definition begin_value (t : token) (stack : list open_container) : option parser :=
  match t with
  | TScalar v => complete v stack
  | TLBrack => Some (PValueOrEnd, InArr [] :: stack)
  | TLBrace => Some (PKeyOrEnd, InObj [] :: stack)
  | _ => None
  end.

Definition close_array (stack : list open_container) : option parser :=
  match stack with
  | InArr done :: up => complete (VArr (rev done)) up
  | _ => None
  end.

Definition close_object (stack : list open_container) : option parser :=
  match stack with
  | InObj done :: up => complete (VObj (rev done)) up
  | _ => None
  end.

Definition parse_token (p : parser) (t : token) : option parser :=
  let (st, stack) := p in
  match st, t with
  | PValue, _ => begin_value t stack
  | PValueOrEnd, TRBrack => close_array stack
  | PValueOrEnd, _ => begin_value t stack
  | (PKeyOrEnd | PKey), TScalar (VStr k) => Some (PColon k, stack)
  | PKeyOrEnd, TRBrace => close_object stack
  | PColon k, TColon =>
      match stack with
      | InObj done :: up => Some (PValue, InMember done k :: up)
      | _ => None
      end
  | PNext, TComma =>
      match stack with
      | InArr _ :: _ => Some (PValue, stack)
      | InObj _ :: _ => Some (PKey, stack)
      | _ => None
      end
  | PNext, TRBrack => close_array stack
  | PNext, TRBrace => close_object stack
  | _, _ => None
  end.

Fixpoint parse_from (p : parser) (ts : list token) : option value :=
  match ts with
  | [] => match p with
          | (PDone v, []) => Some v
          | _ => None
          end
  | t :: ts' =>
      match parse_token p t with
      | None => None
      | Some p' => parse_from p' ts'
      end
  end.

(** [JSON.parse(text)]; [None] is the [SyntaxError] it raises. *)
Definition JSON_parse (text : string) : option value :=
  match lex_from LStart (list_ascii_of_string text) with
  | None => None
  | Some ts => parse_from (PValue, []) ts
  end.

End Json.

Import Json.

(** The double-quote character, and a JSON string literal without escapes. *)
Definition dquote : string := String (ascii_of_N 34) EmptyString.
Definition lit (s : string) : string := dquote ++ s ++ dquote.


(** ** Frames and signed events *)

Module Wire.

(** The template handed to [finalizeEvent]. *)
Record EventTemplate : Type := {
  kind : Z;
  created_at : Z;
  tags : list (list value);
  content : string
}.

Record SignedEvent : Type := {
  template : EventTemplate;
  id : string;
  pubkey : string;
  sig : string
}.

(** The signing identity: [getPublicKey] and what [finalizeEvent] derives
    from a template (identifier and signature) belong to nostr-tools. *)
Record Signer : Type := {
  signer_pubkey : string;
  signer_id : EventTemplate -> string;
  signer_sig : EventTemplate -> string
}.

Definition finalizeEvent (t : EventTemplate) (key : Signer) : SignedEvent :=
  {| template := t;
     id := signer_id key t;
     pubkey := signer_pubkey key;
     sig := signer_sig key t |}.

(** The filter object of a [REQ]: [{ kinds }] or [{ kinds, '#d' }]. *)
Record Filter : Type := {
  kinds : list Z;
  d_tag : option (list string)
}.

(** The arrays given to [JSON.stringify] and [ws.send]:
    [['AUTH', ev]], [['EVENT', ev]], [['REQ', label, filter]],
    [['CLOSE', label]]. *)
Inductive frame : Type :=
| AuthSubmit (ev : SignedEvent)
| EventSubmit (ev : SignedEvent)
| Req (label : string) (filter : Filter)
| Close (label : string).

(** [Math.floor(Date.now() / 1000)] *)
Definition seconds (clock_ms : Z) : Z := (clock_ms / 1000)%Z.

(** The authentication event all three scripts build in their AUTH branch. *)
Definition auth_template (relayUrl : string) (challenge : value) (clock_ms : Z)
  : EventTemplate :=
  {| kind := 22242;
     created_at := seconds clock_ms;
     tags := [[VStr "relay"; VStr relayUrl]; [VStr "challenge"; challenge]];
     content := "" |}.

End Wire.

Import Wire.

(** ** The event loop *)

Module Loop.

Inductive ready_state : Type := Connecting | Open | Closing.

Inductive proc_status : Type :=
| Running
| Exited (code : Z)     (* process.exit(code) *)
| Crashed.              (* an exception left a handler uncaught *)

Inductive stream : Type := Out | Err.

(** What a handler does to the outside, in program order. *)
Inductive effect : Type :=
| Send (f : frame)                       (* ws.send(JSON.stringify(f)) *)
| WsClose                                (* ws.close() *)
| Exit (code : Z)                        (* process.exit(code) *)
| Console (s : stream) (args : list value) (* console.log / console.error *)
| Throw.                                 (* an exception nobody catches *)

(** A message handler can also arm a timer; a timer callback cannot. *)
Inductive action (T : Type) : Type :=
| Do (e : effect)
| SetTimeout (cb : T) (delay : N).
Arguments Do {T} e.
Arguments SetTimeout {T} cb delay.

(** What the WebSocket and its library signal to the program. *)
Inductive signal : Type :=
| SigOpen
| SigMessage (data : string)
| SigError (message : string)
| SigClose.

(** A script: its variables, its timers and its handlers. [on_message]
    also receives [Date.now()]. *)
Record script : Type := {
  vars : Type;
  timer : Type;
  epoch : Z;
  start_vars : vars;
  start_timers : list (N * timer);
  on_open : vars -> vars * list (action timer);
  on_message : Z -> string -> vars -> vars * list (action timer);
  on_error : string -> list effect;
  on_close : list effect;
  on_timer : timer -> vars -> list effect
}.

Section World.
Variable P : script.

Record world : Type := {
  prog : vars P;
  ws : ready_state;
  status : proc_status;
  now : N;                          (* milliseconds since the start *)
  timers : list (N * timer P);      (* armed timers, earliest first *)
  wire : list frame;                (* frames transmitted, oldest first *)
  console : list (stream * list value)
}.

Definition running (w : world) : bool :=
  match status w with
  | Running => true
  | _ => false
  end.

Definition set_prog (s : vars P) (w : world) : world :=
  {| prog := s; ws := ws w; status := status w; now := now w;
     timers := timers w; wire := wire w; console := console w |}.

Definition set_ws (r : ready_state) (w : world) : world :=
  {| prog := prog w; ws := r; status := status w; now := now w;
     timers := timers w; wire := wire w; console := console w |}.

Definition set_status (st : proc_status) (w : world) : world :=
  {| prog := prog w; ws := ws w; status := st; now := now w;
     timers := timers w; wire := wire w; console := console w |}.

Definition set_now (t : N) (w : world) : world :=
  {| prog := prog w; ws := ws w; status := status w; now := t;
     timers := timers w; wire := wire w; console := console w |}.

Definition set_timers (ts : list (N * timer P)) (w : world) : world :=
  {| prog := prog w; ws := ws w; status := status w; now := now w;
     timers := ts; wire := wire w; console := console w |}.

Definition transmit (f : frame) (w : world) : world :=
  {| prog := prog w; ws := ws w; status := status w; now := now w;
     timers := timers w; wire := (wire w ++ [f])%list; console := console w |}.

Definition print (s : stream) (args : list value) (w : world) : world :=
  {| prog := prog w; ws := ws w; status := status w; now := now w;
     timers := timers w; wire := wire w;
     console := (console w ++ [(s, args)])%list |}.

(** [ws.send] as the [ws] library has it since version 7: it raises while
    the socket is still connecting, transmits while it is open, and drops
    the data without an error once closing has begun (no callback is
    given).  [ws.close()] starts the closing handshake; [process.exit] and
    an uncaught exception end the process on the spot. *)
Definition perform (e : effect) (w : world) : world :=
  match e with
  | Send f =>
      match ws w with
      | Connecting => set_status Crashed w
      | Open => transmit f w
      | Closing => w
      end
  | WsClose => set_ws Closing w
  | Exit c => set_status (Exited c) w
  | Console s args => print s args w
  | Throw => set_status Crashed w
  end.

(** A timer armed later never overtakes one due at the same time. *)
Fixpoint schedule (due : N) (cb : timer P) (ts : list (N * timer P))
  : list (N * timer P) :=
  match ts with
  | [] => [(due, cb)]
  | (d, c) :: rest =>
      if (d <=? due)%N then (d, c) :: schedule due cb rest
      else (due, cb) :: ts
  end.

Definition act (a : action (timer P)) (w : world) : world :=
  match a with
  | Do e => perform e w
  | SetTimeout cb delay => set_timers (schedule (now w + delay) cb (timers w)) w
  end.

(** Statements run in order until the process ends. *)
Fixpoint perform_all (es : list effect) (w : world) : world :=
  match es with
  | [] => w
  | e :: rest => if running w then perform_all rest (perform e w) else w
  end.

Fixpoint act_all (acts : list (action (timer P))) (w : world) : world :=
  match acts with
  | [] => w
  | a :: rest => if running w then act_all rest (act a w) else w
  end.

Definition handle (r : vars P * list (action (timer P))) (w : world) : world :=
  act_all (snd r) (set_prog (fst r) w).

(** Delivery of one signal to a running process.  The library raises
    [message] only once the connection is open, and goes on raising it
    while the socket is closing, until the close signal. *)
Definition deliver (sig : signal) (w : world) : world :=
  match sig with
  | SigOpen =>
      match ws w with
      | Connecting => handle (on_open P (prog w)) (set_ws Open w)
      | _ => w
      end
  | SigMessage data =>
      match ws w with
      | Connecting => w
      | _ => handle (on_message P (epoch P + Z.of_N (now w)) data (prog w)) w
      end
  | SigError msg => perform_all (on_error P msg) w
  | SigClose => perform_all (on_close P) w
  end.

(** The callback of the earliest timer runs at the time it is due. *)
Definition fire_one (due : N) (cb : timer P) (rest : list (N * timer P))
    (w : world) : world :=
  let w0 := set_now (N.max (now w) due) (set_timers rest w) in
  perform_all (on_timer P cb (prog w0)) w0.

(** Timers due by [t] fire in order while the process runs. *)
Fixpoint fire (t : N) (pending : list (N * timer P)) (w : world) : world :=
  match pending with
  | [] => w
  | (due, cb) :: rest =>
      if (due <=? t)%N then
        let w1 := fire_one due cb rest w in
        if running w1 then fire t rest w1 else w1
      else w
  end.

Definition advance (t : N) (w : world) : world :=
  let w1 := fire t (timers w) w in
  if running w1 then set_now (N.max (now w1) t) w1 else w1.

(** One step of a run: [dt] milliseconds pass, then a signal arrives. *)
Definition step (w : world) (ev : N * signal) : world :=
  if running w then
    let w1 := advance (now w + fst ev) w in
    if running w1 then deliver (snd ev) w1 else w1
  else w.

Definition run (w : world) (tr : list (N * signal)) : world :=
  fold_left step tr w.

(** Armed timers are kept in firing order. *)
Definition in_order (ts : list (N * timer P)) : Prop :=
  StronglySorted (fun a b => (fst a <= fst b)%N) ts.

(** What a list of actions asks for: the frames it sends, the lines it
    prints, the timers it arms, and whether it closes the socket. *)
Fixpoint sends (acts : list (action (timer P))) : list frame :=
  match acts with
  | [] => []
  | Do (Send f) :: rest => f :: sends rest
  | _ :: rest => sends rest
  end.

Fixpoint prints (acts : list (action (timer P))) : list (stream * list value) :=
  match acts with
  | [] => []
  | Do (Console s args) :: rest => (s, args) :: prints rest
  | _ :: rest => prints rest
  end.

Fixpoint arms (acts : list (action (timer P))) : list (timer P * N) :=
  match acts with
  | [] => []
  | SetTimeout cb delay :: rest => (cb, delay) :: arms rest
  | _ :: rest => arms rest
  end.

Definition closes (acts : list (action (timer P))) : bool :=
  existsb (fun a => match a with Do WsClose => true | _ => false end) acts.

(** A reaction that prints, sends and arms timers, and may end with
    [ws.close()]: it neither raises nor leaves the process. *)
Fixpoint calm (acts : list (action (timer P))) : bool :=
  match acts with
  | [] => true
  | Do (Console _ _) :: rest | Do (Send _) :: rest | SetTimeout _ _ :: rest =>
      calm rest
  | Do WsClose :: rest => match rest with [] => true | _ => false end
  | _ => false
  end.

(** A deadline timer [dl] armed for time [T]: either the deadline is still
    ahead and its timer armed, with only earlier timers before it, or what
    the callback establishes, [G], holds. *)
Definition awaiting (T : N) (dl : timer P) (w : world) : Prop :=
  (now w < T)%N /\
  exists pre post,
    timers w = (pre ++ (T, dl) :: post)%list
    /\ Forall (fun x => (fst x < T)%N) pre.

Definition guarded (T : N) (dl : timer P) (G : world -> Prop) (w : world) : Prop :=
  running w = true -> awaiting T dl w \/ G w.

(** The process as [new WebSocket(relayUrl)] returns. *)
Definition boot : world :=
  {| prog := start_vars P; ws := Connecting; status := Running; now := 0%N;
     timers := start_timers P; wire := []; console := [] |}.

End World.

Arguments prog {P} w.
Arguments ws {P} w.
Arguments status {P} w.
Arguments now {P} w.
Arguments timers {P} w.
Arguments wire {P} w.
Arguments console {P} w.
Arguments running {P} w.
Arguments in_order {P} ts.
Arguments sends {P} acts.
Arguments prints {P} acts.
Arguments arms {P} acts.
Arguments closes {P} acts.
Arguments calm {P} acts.
Arguments awaiting {P} T dl w.
Arguments guarded {P} T dl G w.

End Loop.

Import Loop.

(** ** delete-group.js *)

Module DeleteGroup.

(** What the script has computed when it reaches [new WebSocket(relayUrl)]:
    the command-line argument, the environment and the derived key.  The
    checks of the arguments and the lines printed before that point are not
    part of the model. *)
Record config : Type := {
  groupId : string;        (* process.argv[2] *)
  relayUrl : string;       (* RELAY_URL, or its default *)
  key : Signer;            (* privateKeyBytes *)
  started : Z              (* Date.now() when the script is loaded *)
}.

Definition NIP29_DELETE_GROUP : Z := 9008.

Inductive timer : Type :=
| SendDelete    (* setTimeout(..., 500) of the AUTH branch *)
| Deadline.     (* setTimeout(..., 15000) at the end of the script *)

Section Script.
Variable cfg : config.

Definition eventTemplate : EventTemplate :=
  {| kind := NIP29_DELETE_GROUP;
     created_at := seconds (started cfg);
     tags := [[VStr "h"; VStr (groupId cfg)]];
     content := "" |}.

Definition signedEvent : SignedEvent := finalizeEvent eventTemplate (key cfg).

Definition on_open (_ : unit) : unit * list (action timer) :=
  (tt, [Do (Console Out [VStr "Connected to relay"])]).

Definition on_message (clock : Z) (data : string) (_ : unit)
  : unit * list (action timer) :=
  match JSON_parse data with
  | None => (tt, [Do Throw])
  | Some response =>
      match indexer response with
      | None => (tt, [Do Throw])
      | Some at_ =>
          if is_str (at_ 0%nat) "AUTH" then
            let authEvent :=
              finalizeEvent (auth_template (relayUrl cfg) (at_ 1%nat) clock)
                            (key cfg) in
            (tt, [Do (Console Out [VStr "Authenticating..."]);
                  Do (Send (AuthSubmit authEvent));
                  SetTimeout SendDelete 500])
          else if is_str (at_ 0%nat) "OK" then
            let eventId := at_ 1%nat in
            let success := at_ 2%nat in
            let message := at_ 3%nat in
            if is_str eventId (id signedEvent) then
              (tt, [Do (if truthy success
                        then Console Out [VStr "✅ Group deleted!"]
                        else Console Err [VStr "❌ Failed to delete group:"; message]);
                    Do WsClose])
            else (tt, [])
          else (tt, [])
      end
  end.

Definition on_error (message : string) : list effect :=
  [Console Err [VStr "WebSocket error:"; VStr message]; Exit 1].

Definition on_close : list effect := [Exit 0].

Definition on_timer (t : timer) (_ : unit) : list effect :=
  match t with
  | SendDelete =>
      [Console Out [VStr "Sending delete group event..."];
       Send (EventSubmit signedEvent)]
  | Deadline =>
      [Console Err [VStr "Timeout"]; WsClose; Exit 1]
  end.

Definition program : script :=
  {| vars := unit;
     Loop.timer := timer;
     epoch := started cfg;
     start_vars := tt;
     start_timers := [(15000%N, Deadline)];
     Loop.on_open := on_open;
     Loop.on_message := on_message;
     Loop.on_error := on_error;
     Loop.on_close := on_close;
     Loop.on_timer := on_timer |}.

End Script.

End DeleteGroup.

(** ** create-group.js *)

Module CreateGroup.

(** *** generateGroupId *)

Definition byte (n : N) : ascii := ascii_of_N n.

Definition lower_ascii (c : ascii) : ascii :=
  let n := code c in
  if ((65 <=? n) && (n <=? 90))%N then byte (n + 32) else c.

(** U+0130, whose lower case is [i] followed by U+0307, and U+212A (the
    Kelvin sign), whose lower case is [k], in UTF-8. *)
Definition is_dotted_I (a b : ascii) : bool :=
  ((code a =? 196) && (code b =? 176))%N.

Definition is_kelvin (a b c : ascii) : bool :=
  ((code a =? 226) && (code b =? 132) && (code c =? 170))%N.

(** [String.prototype.toLowerCase]: exact on ASCII and on the two
    characters outside ASCII whose lower case holds an ASCII letter.  Any
    other character outside ASCII has a lower case outside ASCII as well,
    which the [replace] that follows removes whatever it is; such a
    character is left as it is here. *)
Fixpoint toLowerCase (s : string) : string :=
  match s with
  | EmptyString => EmptyString
  | String a t =>
      match t with
      | EmptyString => String (lower_ascii a) EmptyString
      | String b t2 =>
          if is_dotted_I a b then
            String "i" (String (byte 204) (String (byte 135) (toLowerCase t2)))
          else
            match t2 with
            | EmptyString => String (lower_ascii a) (toLowerCase t)
            | String c t3 =>
                if is_kelvin a b c then String "k" (toLowerCase t3)
                else String (lower_ascii a) (toLowerCase t)
            end
      end
  end.

(** The characters the class [[a-z0-9]] accepts. *)
Definition is_id_char (c : ascii) : bool :=
  let n := code c in
  (((97 <=? n) && (n <=? 122)) || ((48 <=? n) && (n <=? 57)))%N.

(** [.replace(/[^a-z0-9]/g, '')] *)
Fixpoint strip (s : string) : string :=
  match s with
  | EmptyString => EmptyString
  | String c t => if is_id_char c then String c (strip t) else strip t
  end.

(** [.slice(0, 24)] *)
Definition slice24 (s : string) : string := substring 0 24 s.

Definition digit36 (d : N) : ascii :=
  if (d <? 10)%N then byte (48 + d) else byte (87 + d).

Fixpoint digits36 (fuel : nat) (n : N) (acc : string) : string :=
  match fuel with
  | O => acc
  | S f =>
      let acc' := String (digit36 (n mod 36)) acc in
      if (n / 36 =? 0)%N then acc' else digits36 f (n / 36) acc'
  end.

(** [Number.prototype.toString(36)] of an integer; a number of [k] bits has
    at most [k] digits in base 36. *)
Definition toString36 (z : Z) : string :=
  let n := Z.abs_N z in
  let ds := digits36 (S (N.size_nat n)) n "" in
  if (z <? 0)%Z then "-" ++ ds else ds.

(** [generateGroupId(groupName)], with the value [Date.now()] has when the
    fallback is evaluated. *)
Definition generateGroupId (groupName : string) (clock : Z) : string :=
  let cut := slice24 (strip (toLowerCase groupName)) in
  if cut =? "" then "group" ++ toString36 clock else cut.

(** *** generateInviteCode *)

Definition chars : string := "abcdefghijklmnopqrstuvwxyz0123456789".

(** [draw i] is [Math.floor(Math.random() * chars.length)] at the [i]-th
    turn of the loop, a number below 36. *)
Definition generateInviteCode (draw : nat -> nat) : string :=
  string_of_list_ascii
    (map (fun i => match String.get (draw i mod 36) chars with
                   | Some c => c
                   | None => " "%char
                   end)
         (seq 0 12)).

(** *** The script *)

(** What the script has computed when it reaches [new WebSocket(relayUrl)];
    as for delete-group, what it checks and prints before is left out. *)
Record config : Type := {
  name : string;                  (* first argument that is no option *)
  description : option string;    (* second one, when given *)
  isPrivate : bool;               (* args.includes('--private') *)
  relayUrl : string;
  sphereUrl : string;
  key : Signer;
  started : Z;                    (* Date.now() when the script is loaded *)
  draw : nat -> nat               (* the random draws of the invite code *)
}.

Definition NIP29_CREATE_GROUP : Z := 9007.
Definition NIP29_CREATE_INVITE : Z := 9009.

Inductive timer : Type :=
| SendCheck     (* setTimeout(..., 300) of the AUTH branch *)
| Deadline.     (* setTimeout(..., 15000) at the end of the script *)

Record vars : Type := {
  authenticated : bool;
  groupExists : bool
}.

Section Script.
Variable cfg : config.

Definition groupId : string := generateGroupId (name cfg) (started cfg).

Definition bool_word (b : bool) : string := if b then "true" else "false".

Definition eventTemplate : EventTemplate :=
  {| kind := NIP29_CREATE_GROUP;
     created_at := seconds (started cfg);
     tags := [[VStr "h"; VStr groupId];
              [VStr "name"; VStr (name cfg)];
              [VStr "about"; VStr match description cfg with
                                  | Some d => d
                                  | None => ""
                                  end];
              [VStr "public"; VStr (bool_word (negb (isPrivate cfg)))]];
     content := "" |}.

Definition signedEvent : SignedEvent := finalizeEvent eventTemplate (key cfg).

(** [let inviteCode = isPrivate ? generateInviteCode() : null] *)
Definition inviteCode : option string :=
  if isPrivate cfg then Some (generateInviteCode (draw cfg)) else None.

Definition inviteCode_text : string :=
  match inviteCode with
  | Some c => c
  | None => "null"
  end.

Definition invite_template (clock : Z) : EventTemplate :=
  {| kind := NIP29_CREATE_INVITE;
     created_at := seconds clock;
     tags := [[VStr "h"; VStr groupId];
              [VStr "code"; match inviteCode with
                            | Some c => VStr c
                            | None => VNull
                            end]];
     content := "" |}.

Definition check_filter : Filter :=
  {| kinds := [39000%Z]; d_tag := Some [groupId] |}.

Definition on_open (v : vars) : vars * list (action timer) :=
  (v, [Do (Console Out [VStr "Connected to relay"])]).

(** The invite URL; [groupId] and the code need no percent-escape, the
    slash between them becomes [%2F]. *)
Definition fullUrl : string :=
  sphereUrl cfg ++ "/#/agents/chat?join=" ++ groupId ++ "%2F" ++ inviteCode_text.

Definition rule : string := "━━━━━━━━━━━━━━━━━━━━━━━━━━━━━━━━━━━━━━━━".

(** The line of the EOSE branch when the group was found. *)
Definition exists_message : string :=
  "❌ Group " ++ dquote ++ groupId ++ dquote
  ++ " already exists. Use a different name or delete the existing group first.".

Definition on_message (clock : Z) (data : string) (v : vars)
  : vars * list (action timer) :=
  match JSON_parse data with
  | None => (v, [Do Throw])
  | Some response =>
      match indexer response with
      | None => (v, [Do Throw])
      | Some at_ =>
          if is_str (at_ 0%nat) "AUTH" then
            let authEvent :=
              finalizeEvent (auth_template (relayUrl cfg) (at_ 1%nat) clock)
                            (key cfg) in
            ({| authenticated := true; groupExists := groupExists v |},
             [Do (Console Out [VStr "Authenticating..."]);
              Do (Send (AuthSubmit authEvent));
              SetTimeout SendCheck 300])
          else if is_str (at_ 0%nat) "EVENT" && is_str (at_ 1%nat) "check" then
            ({| authenticated := authenticated v; groupExists := true |}, [])
          else if is_str (at_ 0%nat) "EOSE" && is_str (at_ 1%nat) "check" then
            (v, Do (Send (Close "check")) ::
                if groupExists v then
                  [Do (Console Err [VStr exists_message]); Do WsClose]
                else
                  [Do (Console Out [VStr "Sending create group event..."]);
                   Do (Send (EventSubmit signedEvent))])
          else if is_str (at_ 0%nat) "OK" then
            let eventId := at_ 1%nat in
            let success := at_ 2%nat in
            let message := at_ 3%nat in
            if is_str eventId (id signedEvent) then
              if truthy success then
                (v, Do (Console Out [VStr "✅ Group created!"]) ::
                    Do (Console Out [VStr ("Group ID: " ++ groupId)]) ::
                    match inviteCode with
                    | Some c =>
                        if isPrivate cfg && negb (c =? "") then
                          [Do (Console Out [VStr "Creating invite code..."]);
                           Do (Send (EventSubmit
                                 (finalizeEvent (invite_template clock) (key cfg))))]
                        else [Do WsClose]
                    | None => [Do WsClose]
                    end)
              else
                (v, [Do (Console Err [VStr "❌ Failed to create group:"; message]);
                     Do WsClose])
            else if isPrivate cfg then
              (v, (if truthy success then
                     [Do (Console Out [VStr "✅ Invite created!"]);
                      Do (Console Out [VStr ""]);
                      Do (Console Out [VStr rule]);
                      Do (Console Out [VStr ("Invite URL: " ++ fullUrl)]);
                      Do (Console Out [VStr rule]);
                      Do (Console Out [VStr ""]);
                      Do (Console Out [VStr "Share this URL with users to join."])]
                   else
                     [Do (Console Err [VStr "⚠️  Group created but invite failed:"; message]);
                      Do (Console Out [VStr ("Group ID: " ++ groupId)])])
                  ++ [Do WsClose])%list
            else (v, [])
          else (v, [])
      end
  end.

Definition on_error (message : string) : list effect :=
  [Console Err [VStr "WebSocket error:"; VStr message]; Exit 1].

Definition on_close : list effect := [Exit 0].

Definition on_timer (t : timer) (_ : vars) : list effect :=
  match t with
  | SendCheck =>
      [Console Out [VStr "Checking if group already exists..."];
       Send (Req "check" check_filter)]
  | Deadline =>
      [Console Err [VStr "Timeout"]; WsClose; Exit 1]
  end.

Definition program : script :=
  {| Loop.vars := vars;
     Loop.timer := timer;
     epoch := started cfg;
     start_vars := {| authenticated := false; groupExists := false |};
     start_timers := [(15000%N, Deadline)];
     Loop.on_open := on_open;
     Loop.on_message := on_message;
     Loop.on_error := on_error;
     Loop.on_close := on_close;
     Loop.on_timer := on_timer |}.

End Script.


End CreateGroup.

(** ** list-groups.js *)

Module ListGroups.

(** What the script has computed when it reaches [new WebSocket(relayUrl)],
    and the two functions of the runtime its EVENT branch calls. *)
Record config : Type := {
  relayUrl : string;
  key : option Signer;     (* privateKeyBytes: null without a valid mnemonic *)
  started : Z;
  (* the runtime: Number::toString, and
     [new Date(created_at * 1000).toISOString()], which raises a RangeError
     ([None]) when the time value is not a valid date *)
  number_toString : Z -> Z -> string;
  created_iso : value -> option string
}.

Definition NIP29_GROUP_METADATA : Z := 39000.

(** An element of [groups]. *)
Record GroupRecord : Type := {
  id : value;
  name : value;
  description : value;
  private : value;
  created : string
}.

Definition newline : string := String (ascii_of_N 10) EmptyString.

Inductive timer : Type :=
| SendGroups    (* setTimeout(() => sendGroupsRequest(), 300) *)
| Deadline.     (* setTimeout(..., 5000) at the end of the script *)

Record vars : Type := {
  groups : list GroupRecord;
  authenticated : bool
}.

(** The three variables [name], [description], [isPrivate] of the EVENT
    branch. *)
Definition fields : Type := (value * value * value)%type.

Definition defaults : fields := (VStr "Unnamed", VStr "", VBool false).

(** One turn of [for (const tag of event.tags)]; [None] when [tag[0]]
    raises. *)
Definition read_tag (acc : fields) (tag : value) : option fields :=
  match indexer tag with
  | None => None
  | Some at_ =>
      let '(name, description, isPrivate) := acc in
      let name := if is_str (at_ 0%nat) "name" then at_ 1%nat else name in
      let description :=
        if is_str (at_ 0%nat) "about" then at_ 1%nat else description in
      let isPrivate :=
        if is_str (at_ 0%nat) "public"
        then VBool (is_str (at_ 1%nat) "false") else isPrivate in
      let isPrivate :=
        if is_str (at_ 0%nat) "private"
        then VBool (is_str (at_ 1%nat) "true") else isPrivate in
      Some (name, description, isPrivate)
  end.

Fixpoint read_tags (acc : fields) (tags : list value) : option fields :=
  match tags with
  | [] => Some acc
  | tag :: rest =>
      match read_tag acc tag with
      | None => None
      | Some acc' => read_tags acc' rest
      end
  end.

(** [event.tags.find(t => t[0] === 'd')]: [None] when the callback raises,
    [Some None] when no tag matches. *)
Fixpoint find_d (tags : list value) : option (option value) :=
  match tags with
  | [] => Some None
  | t :: rest =>
      match indexer t with
      | None => None
      | Some at_ => if is_str (at_ 0%nat) "d" then Some (Some t) else find_d rest
      end
  end.

(** [found?.[1]] *)
Definition second_of (found : option value) : value :=
  match found with
  | None => VUndef
  | Some t =>
      match indexer t with
      | Some at_ => at_ 1%nat
      | None => VUndef
      end
  end.

Section Script.
Variable cfg : config.

Definition groups_filter : Filter :=
  {| kinds := [NIP29_GROUP_METADATA]; d_tag := None |}.

Definition sendGroupsRequest : effect := Send (Req "groups" groups_filter).

Definition on_open (v : vars) : vars * list (action timer) :=
  (v, match key cfg with
      | None => [Do sendGroupsRequest]
      | Some _ => []
      end).

(** The inner [try]: what the JSON content sets, the defaults when it is
    absent, cannot be turned into a string, does not parse, or parses to
    [null]. *)
Definition from_content (content : value) : fields :=
  if truthy content && negb (toString_raises content) then
    match JSON_parse (js_toString (number_toString cfg) content) with
    | None => defaults
    | Some metadata =>
        match reader metadata with
        | None => defaults
        | Some m =>
            (js_or (m "name") (VStr "Unnamed"),
             js_or (m "about") (VStr ""),
             js_or (m "private") (VBool false))
        end
    end
  else defaults.

(** The body of the outer [try] of the EVENT branch: the record pushed
    to [groups], or [None] when an exception makes the branch skip the
    event.  Only an array has both an iterator and [find]. *)
Definition reconstruct (event : value) : option GroupRecord :=
  match reader event with
  | None => None
  | Some field =>
      match field "tags" with
      | VArr tags =>
          match read_tags (from_content (field "content")) tags with
          | None => None
          | Some (name, description, isPrivate) =>
              match find_d tags with
              | None => None
              | Some found =>
                  match created_iso cfg (field "created_at") with
                  | None => None
                  | Some iso =>
                      Some {| id := js_or (second_of found) (VStr "unknown");
                              name := name;
                              description := description;
                              private := isPrivate;
                              created := iso |}
                  end
              end
          end
      | _ => None
      end
  end.

(** The lines [groups.forEach] prints for one group; a template literal
    is recorded by its pieces.  Each literal applies [ToString] to its
    values before [console.log] is called, outside of any [try]: the
    callback raises at the first of [g.name], [g.id] and a truthy
    [g.description] that cannot be turned into a string. *)
Definition show_group (i : nat) (g : GroupRecord) : list effect :=
  if toString_raises (name g) then [Throw] else
  Console Out [VNum (Z.of_nat (i + 1)) 0; VStr ". "; name g; VStr " ";
               VStr (if truthy (private g) then "🔒" else "🌐")]
  :: if toString_raises (id g) then [Throw] else
     Console Out [VStr "   ID: "; id g]
     :: if truthy (description g) then
          if toString_raises (description g) then [Throw] else
          [Console Out [VStr "   "; description g];
           Console Out [VStr "   Created: "; VStr (created g)];
           Console Out [VStr ""]]
        else
          [Console Out [VStr "   Created: "; VStr (created g)];
           Console Out [VStr ""]].

Fixpoint show_groups (i : nat) (gs : list GroupRecord) : list effect :=
  match gs with
  | [] => []
  | g :: rest => (show_group i g ++ show_groups (S i) rest)%list
  end.

Definition on_message (clock : Z) (data : string) (v : vars)
  : vars * list (action timer) :=
  match JSON_parse data with
  | None => (v, [Do Throw])
  | Some response =>
      match indexer response with
      | None => (v, [Do Throw])
      | Some at_ =>
          match (if is_str (at_ 0%nat) "AUTH" && negb (authenticated v)
                 then key cfg else None) with
          | Some privateKeyBytes =>
              ({| groups := groups v; authenticated := true |},
               [Do (Console Out [VStr "Authenticating..."]);
                Do (Send (AuthSubmit
                      (finalizeEvent
                         (auth_template (relayUrl cfg) (at_ 1%nat) clock)
                         privateKeyBytes)));
                SetTimeout SendGroups 300])
          | None =>
              if is_str (at_ 0%nat) "EVENT" && is_str (at_ 1%nat) "groups" then
                match reconstruct (at_ 2%nat) with
                | Some g =>
                    ({| groups := (groups v ++ [g])%list;
                        authenticated := authenticated v |}, [])
                | None => (v, [])
                end
              else if is_str (at_ 0%nat) "EOSE" then
                (v, map Do
                      ((match groups v with
                        | [] => [Console Out [VStr "No groups found on this relay."]]
                        | _ =>
                            Console Out [VStr "Found ";
                                       VNum (Z.of_nat (List.length (groups v))) 0;
                                       VStr (" group(s):" ++ newline)]
                            :: show_groups 0 (groups v)
                        end) ++ [WsClose])%list)
              else if is_str (at_ 0%nat) "OK" && truthy (at_ 1%nat)
                      && negb (truthy (at_ 2%nat)) then
                (v, [Do (Console Err [VStr "Authentication failed:"; at_ 3%nat])])
              else (v, [])
          end
      end
  end.

Definition on_error (message : string) : list effect :=
  [Console Err [VStr "WebSocket error:"; VStr message]; Exit 1].

Definition on_close : list effect := [Exit 0].

Definition on_timer (t : timer) (v : vars) : list effect :=
  match t with
  | SendGroups => [sendGroupsRequest]
  | Deadline =>
      match groups v with
      | [] => [Console Out [VStr "No groups found (or timeout reached)."]; WsClose]
      | _ => [WsClose]
      end
  end.

Definition program : script :=
  {| Loop.vars := vars;
     Loop.timer := timer;
     epoch := started cfg;
     start_vars := {| groups := []; authenticated := false |};
     start_timers := [(5000%N, Deadline)];
     Loop.on_open := on_open;
     Loop.on_message := on_message;
     Loop.on_error := on_error;
     Loop.on_close := on_close;
     Loop.on_timer := on_timer |}.

End Script.

End ListGroups.

(** ** Reading an inbound frame *)

Module Inbound.

(** The indexed reader of [response = JSON.parse(data.toString())];
    [None] when the text does not parse or parses to [null], the two ways
    in which [response[0]] raises. *)
Definition fields_of (data : string) : option (nat -> value) :=
  match JSON_parse data with
  | Some response => indexer response
  | None => None
  end.

(** [response[0] === tag] *)
Definition tagged (data tag : string) : bool :=
  match fields_of data with
  | Some at_ => is_str (at_ 0%nat) tag
  | None => false
  end.

(** [response[0] === tag && response[1] === label] *)
Definition labelled (data tag label : string) : bool :=
  match fields_of data with
  | Some at_ => is_str (at_ 0%nat) tag && is_str (at_ 1%nat) label
  | None => false
  end.

(** The signals of a run that satisfy [ok], and the time a run takes. *)
Definition all_signals (ok : signal -> bool) (tr : list (N * signal)) : bool :=
  forallb (fun ev => ok (snd ev)) tr.

Definition duration (tr : list (N * signal)) : N :=
  fold_right (fun ev acc => (fst ev + acc)%N) 0%N tr.

End Inbound.

Import Inbound.

(** ** Concrete configurations *)

Module Demo.

(** A signer whose identifiers tell the event kinds apart. *)
Definition demo_key : Signer :=
  {| signer_pubkey := "84de98f0";
     signer_id := fun t =>
       if (kind t =? 22242)%Z then "a01" else
       if (kind t =? 9007)%Z then "c07" else
       if (kind t =? 9008)%Z then "d08" else "e09";
     signer_sig := fun _ => "5167" |}.

Definition demo_url : string := "ws://localhost:3334".

Definition demo_delete : DeleteGroup.config :=
  {| DeleteGroup.groupId := "ghost-group";
     DeleteGroup.relayUrl := demo_url;
     DeleteGroup.key := demo_key;
     DeleteGroup.started := 1700000000000 |}.

Definition demo_create (isPrivate : bool) : CreateGroup.config :=
  {| CreateGroup.name := "Team Chat!!";
     CreateGroup.description := Some "Private team discussions";
     CreateGroup.isPrivate := isPrivate;
     CreateGroup.relayUrl := demo_url;
     CreateGroup.sphereUrl := "http://localhost:5173";
     CreateGroup.key := demo_key;
     CreateGroup.started := 1700000000000;
     CreateGroup.draw := fun i => (7 * i + 3)%nat |}.

(** [new Date(created_at * 1000).toISOString()] for a whole number of
    seconds from 1970 to the end of the year 9999, by the days of the
    proleptic Gregorian calendar. *)
Definition two_digits (n : Z) : string :=
  String (ascii_of_N (48 + Z.to_N (n / 10)))
    (String (ascii_of_N (48 + Z.to_N (n mod 10))) EmptyString).

Definition iso_of_seconds (n : Z) : string :=
  let days := (n / 86400)%Z in
  let secs := (n mod 86400)%Z in
  let z := (days + 719468)%Z in
  let era := (z / 146097)%Z in
  let doe := (z mod 146097)%Z in
  let yoe := ((doe - doe / 1460 + doe / 36524 - doe / 146096) / 365)%Z in
  let doy := (doe - (365 * yoe + yoe / 4 - yoe / 100))%Z in
  let mp := ((5 * doy + 2) / 153)%Z in
  let d := (doy - (153 * mp + 2) / 5 + 1)%Z in
  let m := (if mp <? 10 then mp + 3 else mp - 9)%Z in
  let y := (yoe + era * 400 + if m <=? 2 then 1 else 0)%Z in
  two_digits (y / 100) ++ two_digits (y mod 100) ++ "-" ++ two_digits m ++ "-"
  ++ two_digits d ++ "T" ++ two_digits (secs / 3600) ++ ":"
  ++ two_digits (secs mod 3600 / 60) ++ ":" ++ two_digits (secs mod 60)
  ++ ".000Z".

(** The dates of the sample runtime: an absent [created_at] makes
    [new Date(NaN)], whose [toISOString] raises; the examples use whole
    seconds of the years 1970 to 9999 and nothing else. *)
Definition demo_iso (created_at : value) : option string :=
  match created_at with
  | VNum m e =>
      if ((0 <=? e) && (0 <=? m) && (m * 10 ^ e <=? 253402300799))%Z
      then Some (iso_of_seconds (m * 10 ^ e))
      else None
  | _ => None
  end.

Definition demo_list (key : option Signer) : ListGroups.config :=
  {| ListGroups.relayUrl := demo_url;
     ListGroups.key := key;
     ListGroups.started := 1700000000000;
     ListGroups.number_toString := fun m _ => CreateGroup.toString36 m;
     ListGroups.created_iso := demo_iso |}.

(** Frames as a relay writes them. *)
Definition frame2 (tag arg : string) : string :=
  "[" ++ lit tag ++ "," ++ lit arg ++ "]".

Definition auth_frame (challenge : string) : string := frame2 "AUTH" challenge.

Definition ok_frame (event_id : string) (accepted : bool) (message : string)
  : string :=
  "[" ++ lit "OK" ++ "," ++ lit event_id ++ ","
  ++ (if accepted then "true" else "false") ++ "," ++ lit message ++ "]".

Definition eose_frame (label : string) : string := frame2 "EOSE" label.

Definition event_frame (label : string) (payload : string) : string :=
  "[" ++ lit "EVENT" ++ "," ++ lit label ++ "," ++ payload ++ "]".

End Demo.


(** ** The words of the specification *)

Module GroupIdSpec.
Import CreateGroup.

(** The name lowercased, stripped and truncated, in the words of the
    specification, over the list of the name's characters. *)
Definition normalized_spec (groupName : list ascii) : list ascii :=
  firstn 24 (filter is_id_char (map lower_ascii groupName)).

Definition ascii_only (s : string) : Prop :=
  Forall (fun c => (code c < 128)%N) (list_ascii_of_string s).

End GroupIdSpec.

Module RecordSpec.
Import ListGroups.

(** [tag[0]] is one of [names]. *)
Definition tag_named (names : list string) (tag : value) : bool :=
  match indexer tag with
  | Some at_ => existsb (is_str (at_ 0%nat)) names
  | None => false
  end.

(** The last tag of the list that bears one of [names]. *)
Fixpoint last_tag (names : list string) (tags : list value) : option value :=
  match tags with
  | [] => None
  | t :: rest =>
      match last_tag names rest with
      | Some u => Some u
      | None => if tag_named names t then Some t else None
      end
  end.

(** The first tag of the list that bears one of [names]. *)
Fixpoint first_tag (names : list string) (tags : list value) : option value :=
  match tags with
  | [] => None
  | t :: rest => if tag_named names t then Some t else first_tag names rest
  end.

(** [tag[1]] *)
Definition tag_value (tag : value) : value := second_of (Some tag).

(** What a [public] or [private] tag says about the group being private. *)
Definition tag_privacy (tag : value) : value :=
  VBool (if tag_named ["private"] tag
         then is_str (tag_value tag) "true"
         else is_str (tag_value tag) "false").

(** The fields as the specification words them: the last tag of the name
    when there is one, what the content gave otherwise. *)
Definition fields_spec (from_content : fields) (tags : list value) : fields :=
  let '(name, description, isPrivate) := from_content in
  (match last_tag ["name"] tags with
   | Some t => tag_value t
   | None => name
   end,
   match last_tag ["about"] tags with
   | Some t => tag_value t
   | None => description
   end,
   match last_tag ["public"; "private"] tags with
   | Some t => tag_privacy t
   | None => isPrivate
   end).

(** The event of the specification's example: content
    [{"name":"X","about":"Y"}] and the single tag [["name","Z"]]. *)
Definition example_content : string :=
  "{" ++ lit "name" ++ ":" ++ lit "X" ++ "," ++ lit "about" ++ ":" ++ lit "Y" ++ "}".

Definition example_event (created_at : value) : value :=
  VObj [("content", VStr example_content);
        ("tags", VArr [VArr [VStr "name"; VStr "Z"]]);
        ("created_at", created_at)].

End RecordSpec.

Module DeleteSpec.
Import DeleteGroup.

(** The first frame on the wire is the authentication reply, and the
    delete event waits on a timer only once that reply has gone out (or
    the socket is closing and drops whatever is sent). *)
Definition auth_first (cfg : config) (w : world (program cfg)) : Prop :=
  (ws w <> Closing -> wire w = [] ->
   forall due, ~ In (due, SendDelete) (timers w))
  /\ (forall f rest, wire w = f :: rest -> exists ev, f = AuthSubmit ev).

(** Nothing sent, nothing armed but the deadline, and no end other than
    the deadline's. *)
Definition idle (cfg : config) (w : world (program cfg)) : Prop :=
  (wire w = [] /\ (forall due, ~ In (due, SendDelete) (timers w)))
  /\ (status w = Running
      \/ (status w = Exited 1 /\ ws w = Closing
          /\ exists before, console w = (before ++ [(Err, [VStr "Timeout"])])%list)).

(** Signals of a run in which the relay never challenges, the transport
    stays up and every frame can be read. *)
Definition unchallenged (sig : signal) : bool :=
  match sig with
  | SigOpen => true
  | SigMessage data =>
      match fields_of data with
      | None => false
      | Some at_ => negb (is_str (at_ 0%nat) "AUTH")
      end
  | SigError _ | SigClose => false
  end.

(** Nothing sent so far and no delete timer armed. *)
Definition silent (cfg : config) (w : world (program cfg)) : Prop :=
  wire w = [] /\ (forall due, ~ In (due, SendDelete) (timers w)).

(** Signals other than an AUTH frame. *)
Definition no_challenge (sig : signal) : bool :=
  match sig with
  | SigMessage data => negb (tagged data "AUTH")
  | _ => true
  end.

End DeleteSpec.

Module CreateSpec.
Import CreateGroup.

(** The frame that carries the create-group event. *)
Definition create_frame (cfg : config) : frame := EventSubmit (signedEvent cfg).

(** The frame that opens the existence check. *)
Definition check_frame (cfg : config) : frame := Req "check" (check_filter cfg).

(** Signals other than an EOSE frame on the label of the check. *)
Definition no_check_end (sig : signal) : bool :=
  match sig with
  | SigMessage data => negb (labelled data "EOSE" "check")
  | _ => true
  end.

(** What a run has let the script know, told from the signals alone:
    whether the socket has opened, and for how long the script has known
    the first challenge it received on the open socket ([None] before any
    challenge).  The REQ of the check is due 300 ms after a challenge. *)
Definition hearing : Type := (bool * option N)%type.

Definition elapse (dt : N) (st : hearing) : hearing :=
  (fst st, option_map (N.add dt) (snd st)).

Definition notice (sig : signal) (st : hearing) : hearing :=
  match sig with
  | SigOpen => (true, snd st)
  | SigMessage data =>
      if fst st && tagged data "AUTH" then
        (true, match snd st with Some t => Some t | None => Some 0%N end)
      else st
  | _ => st
  end.

Definition hears (st : hearing) (ev : N * signal) : hearing :=
  notice (snd ev) (elapse (fst ev) st).

Definition heard (tr : list (N * signal)) : hearing :=
  fold_left hears tr (false, None).

(** The relay ends the check only in answer to it: an EOSE frame on the
    label of the check comes no sooner than 300 ms after the first
    challenge, when the REQ of the check is due.  A condition on the
    signals, not on what the script has sent. *)
Fixpoint in_answer (st : hearing) (tr : list (N * signal)) : bool :=
  match tr with
  | [] => true
  | ev :: rest =>
      (match snd ev with
       | SigMessage data =>
           if labelled data "EOSE" "check" then
             match snd (elapse (fst ev) st) with
             | Some t => (300 <=? t)%N
             | None => false
             end
           else true
       | _ => true
       end)
      && in_answer (hears st ev) rest
  end.

(** The REQ of the check is under way for a script that has heard [st]:
    the socket is no longer connecting once it has opened, and once a
    challenge is known the socket is closing, or the REQ is on the wire,
    or its timer is armed and due 300 ms after the challenge at the
    latest. *)
Definition under_way (cfg : config) (st : hearing) (w : world (program cfg))
    : Prop :=
  running w = true ->
  (fst st = true -> ws w <> Connecting)
  /\ (forall t, snd st = Some t ->
        ws w <> Connecting
        /\ (ws w = Closing
            \/ In (check_frame cfg) (wire w)
            \/ exists due,
                 In (due, SendCheck) (timers w)
                 /\ (due + t <= now w + 300)%N /\ (now w < due)%N)).

(** What the timers due in the meantime leave of a world whose socket is
    no longer connecting: a timer of the check that is no longer armed has
    sent the REQ, unless the socket is closing. *)
Definition fired (cfg : config) (w w' : world (program cfg)) : Prop :=
  ws w <> Connecting ->
  ws w' <> Connecting
  /\ (forall f, In f (wire w) -> In f (wire w'))
  /\ (ws w = Closing -> ws w' = Closing)
  /\ (forall due, In (due, SendCheck) (timers w) ->
        In (due, SendCheck) (timers w')
        \/ ws w' = Closing \/ In (check_frame cfg) (wire w')).

(** Every create-group event on the wire comes after the REQ of the
    check. *)
Definition check_first (cfg : config) (l : list frame) : Prop :=
  forall l1 l2, l = (l1 ++ create_frame cfg :: l2)%list -> In (check_frame cfg) l1.

End CreateSpec.

(** ** The invite link of create-group.js *)

Module Uri.

(** The characters [encodeURIComponent] leaves as they are: the letters,
    the digits and [- _ . ! ~ * ' ( )]. *)
Definition is_unreserved (c : ascii) : bool :=
  let n := code c in
  (((65 <=? n) && (n <=? 90)) || ((97 <=? n) && (n <=? 122))
   || ((48 <=? n) && (n <=? 57))
   || (n =? 45) || (n =? 95) || (n =? 46) || (n =? 33) || (n =? 126)
   || (n =? 42) || (n =? 39) || (n =? 40) || (n =? 41))%N.

Definition hex_upper (d : N) : ascii :=
  if (d <? 10)%N then ascii_of_N (48 + d) else ascii_of_N (55 + d).

(** [%XX] for one byte of the UTF-8 encoding. *)
Definition escape (c : ascii) : string :=
  String "%" (String (hex_upper (code c / 16))
                     (String (hex_upper (code c mod 16)) EmptyString)).

(** [encodeURIComponent]: every byte of the UTF-8 encoding that is not an
    unreserved character is escaped. *)
Fixpoint encodeURIComponent (s : string) : string :=
  match s with
  | EmptyString => EmptyString
  | String c t =>
      if is_unreserved c then String c (encodeURIComponent t)
      else escape c ++ encodeURIComponent t
  end.

End Uri.

Module InviteLink.
Import CreateGroup.

Section Link.
Variable cfg : config.

(** [`${groupId}/${inviteCode}`] *)
Definition inviteParam : string := groupId cfg ++ "/" ++ inviteCode_text cfg.

(** [`${sphereUrl}/#/agents/chat?join=${encodeURIComponent(inviteParam)}`] *)
Definition fullUrl : string :=
  sphereUrl cfg ++ "/#/agents/chat?join=" ++ Uri.encodeURIComponent inviteParam.

End Link.

End InviteLink.

(** ** Identifiers *)

Module IdSpec.
Import CreateGroup.

(** A string of characters of [a-z0-9] only. *)
Definition id_only (s : string) : Prop :=
  Forall (fun c => is_id_char c = true) (list_ascii_of_string s).

(** The values [Date.now()] can return: from 1970 to the end of the range
    of [Date]. *)
Definition date_range (clock : Z) : Prop := (0 <= clock <= 8640000000000000)%Z.

End IdSpec.

(** ** Reading a numeral in base 36 *)

Module Base36.

(** The value of a digit [0-9a-z], and of a numeral read from the left, as
    [parseInt(s, 36)] reads it. *)
Definition digit_value (c : ascii) : N :=
  let n := code c in
  if (n <? 58)%N then (n - 48)%N else (n - 87)%N.

Fixpoint parse_from (acc : N) (s : string) : N :=
  match s with
  | EmptyString => acc
  | String c t => parse_from (36 * acc + digit_value c) t
  end.

Definition parse (s : string) : N := parse_from 0 s.

End Base36.

(** ** The name as a list of characters *)

Module NameSpec.
Import Json CreateGroup IdSpec.

(** A name is a list of Unicode scalar values (code points other than the
    surrogates); the string the script works on holds their UTF-8
    encoding. *)
Definition scalar (cp : N) : bool :=
  ((cp <? 55296) || ((57344 <=? cp) && (cp <? 1114112)))%N.

Definition utf8 (cp : N) : list ascii :=
  if (cp <? 128)%N then [byte cp]
  else if (cp <? 2048)%N then
    [byte (192 + cp / 64); byte (128 + cp mod 64)]
  else if (cp <? 65536)%N then
    [byte (224 + cp / 4096); byte (128 + (cp / 64) mod 64);
     byte (128 + cp mod 64)]
  else
    [byte (240 + cp / 262144); byte (128 + (cp / 4096) mod 64);
     byte (128 + (cp / 64) mod 64); byte (128 + cp mod 64)].

Definition utf8_string (name : list N) : string :=
  string_of_list_ascii (flat_map utf8 name).

(** The lower case of a character, in the words of the specification:
    [A-Z] go to [a-z]; U+0130 goes to [i] followed by U+0307 and U+212A
    (the Kelvin sign) to [k]; every other character outside ASCII has a
    lower case outside ASCII, which is not alphanumeric whatever it is, and
    is kept as it is here. *)
Definition lower_point (cp : N) : list N :=
  if ((65 <=? cp) && (cp <=? 90))%N then [(cp + 32)%N]
  else if (cp =? 304)%N then [105%N; 775%N]
  else if (cp =? 8490)%N then [107%N]
  else [cp].

(** The alphanumeric characters: [a-z] and [0-9]. *)
Definition alphanumeric (cp : N) : bool :=
  (((97 <=? cp) && (cp <=? 122)) || ((48 <=? cp) && (cp <=? 57)))%N.

(** The name lowercased, stripped and truncated, character by
    character. *)
Definition normalized (name : list N) : list N :=
  firstn 24 (filter alphanumeric (flat_map lower_point name)).

(** [s] is the numeral of [n] in base 36: digits of [0-9a-z] that read
    back as [n], without a leading zero. *)
Definition numeral36 (s : string) (n : N) : Prop :=
  id_only s /\ Base36.parse s = n
  /\ (s = "0" \/ exists c t, s = String c t /\ c <> "0"%char).

End NameSpec.

(** ** The three scripts before they connect *)

Module Startup.

(** [process.env] once [dotenv/config] is loaded: the three variables the
    scripts read. *)
Record Environment : Type := {
  NOSTR_MNEMONIC : option string;
  RELAY_URL : option string;
  SPHERE_URL : option string
}.

(** What the scripts take from [@scure/bip39] and [@scure/bip32]:
    [validateMnemonic(mnemonic, wordlist)], and [derived.privateKey] of the
    key at [m/44'/0'/0'/0/0] of the mnemonic's seed, [None] when it is
    null. *)
Record Wallet : Type := {
  validateMnemonic : string -> bool;
  privateKey : string -> option Signer
}.

(** A script either leaves through [process.exit(code)] or reaches
    [new WebSocket(relayUrl)]; both after the lines it has printed. *)
Inductive outcome (C : Type) : Type :=
| Quit (printed : list (stream * list value)) (code : Z)
| Connect (printed : list (stream * list value)) (cfg : C).
Arguments Quit {C} printed code.
Arguments Connect {C} printed cfg.

(** A string that is neither [undefined] nor empty: what [if (!v)] lets
    through. *)
Definition present (v : option string) : option string :=
  match v with
  | Some s => if s =? "" then None else Some s
  | None => None
  end.

(** [v || fallback] *)
Definition or_else (v : option string) (fallback : string) : string :=
  match present v with
  | Some s => s
  | None => fallback
  end.

Definition err (s : string) : stream * list value := (Err, [VStr s]).
Definition out (s : string) : stream * list value := (Out, [VStr s]).

(** [a.startsWith(prefix)] and [args.includes(x)] *)
Definition startsWith (a prefix : string) : bool := String.prefix prefix a.

Definition includes (args : list string) (x : string) : bool :=
  existsb (String.eqb x) args.

(** [args.filter(a => !a.startsWith('--'))] *)
Definition filteredArgs (args : list string) : list string :=
  filter (fun a => negb (startsWith a "--")) args.

Definition default_relay : string := "ws://localhost:3334".
Definition default_sphere : string := "http://localhost:5173".

(** *** delete-group.js; [args] is [process.argv.slice(2)] *)

Definition delete_usage : list (stream * list value) :=
  map err ["Usage: node delete-group.js <group-id>"; "";
           "Example:"; "  node delete-group.js general"; "";
           "To see available groups:"; "  node list-groups.js"].

Definition delete_group (args : list string) (env : Environment) (lib : Wallet)
    (clock : Z) : outcome DeleteGroup.config :=
  match present (nth_error args 0) with
  | None => Quit delete_usage 1
  | Some groupId =>
      match present (NOSTR_MNEMONIC env) with
      | None =>
          Quit (map err ["Error: NOSTR_MNEMONIC environment variable required";
                         "Set it in .env file or export it"]) 1
      | Some mnemonic =>
          if validateMnemonic lib mnemonic then
            match privateKey lib mnemonic with
            | None => Quit [err "Error: Failed to derive private key"] 1
            | Some privateKeyBytes =>
                let relayUrl := or_else (RELAY_URL env) default_relay in
                Connect
                  [out ("Deleting group " ++ dquote ++ groupId ++ dquote
                        ++ " on " ++ relayUrl);
                   out ("Admin pubkey: " ++ signer_pubkey privateKeyBytes);
                   out ""]
                  {| DeleteGroup.groupId := groupId;
                     DeleteGroup.relayUrl := relayUrl;
                     DeleteGroup.key := privateKeyBytes;
                     DeleteGroup.started := clock |}
            end
          else Quit [err "Error: Invalid mnemonic phrase"] 1
      end
  end.

(** *** create-group.js *)

Definition create_usage : list (stream * list value) :=
  map err ["Usage: node create-group.js <name> [description] [--private]"; "";
           "Examples:";
           "  node create-group.js " ++ lit "general" ++ " " ++ lit "General discussion";
           "  node create-group.js " ++ lit "team" ++ " " ++ lit "Team only"
           ++ " --private";
           "";
           "Environment:";
           "  NOSTR_MNEMONIC - Your 12-word recovery phrase from Sphere";
           "  RELAY_URL      - Relay URL (default: ws://localhost:3334)";
           "  SPHERE_URL     - Sphere URL for invite links (default: http://localhost:5173)"].

Definition create_mnemonic_help : list (stream * list value) :=
  map err ["Error: NOSTR_MNEMONIC environment variable required"; "";
           "Get your recovery phrase from Sphere:";
           "  Settings > Backup Wallet > Show Recovery Phrase"; "";
           "Then export it:";
           "  export NOSTR_MNEMONIC=" ++ lit "word1 word2 word3 ... word12"].

Definition create_group (args : list string) (env : Environment) (lib : Wallet)
    (clock : Z) (draw : nat -> nat) : outcome CreateGroup.config :=
  let isPrivate := includes args "--private" in
  let filtered := filteredArgs args in
  match present (nth_error filtered 0) with
  | None => Quit create_usage 1
  | Some name =>
      let description := nth_error filtered 1 in
      match present (NOSTR_MNEMONIC env) with
      | None => Quit create_mnemonic_help 1
      | Some mnemonic =>
          if validateMnemonic lib mnemonic then
            match privateKey lib mnemonic with
            | None => Quit [err "Error: Failed to derive private key"] 1
            | Some privateKeyBytes =>
                let cfg :=
                  {| CreateGroup.name := name;
                     CreateGroup.description := description;
                     CreateGroup.isPrivate := isPrivate;
                     CreateGroup.relayUrl := or_else (RELAY_URL env) default_relay;
                     CreateGroup.sphereUrl := or_else (SPHERE_URL env) default_sphere;
                     CreateGroup.key := privateKeyBytes;
                     CreateGroup.started := clock;
                     CreateGroup.draw := draw |} in
                Connect
                  [out ("Creating group " ++ dquote ++ name ++ dquote
                        ++ " on " ++ CreateGroup.relayUrl cfg);
                   out ("Group ID: " ++ CreateGroup.groupId cfg);
                   out ("Admin pubkey: " ++ signer_pubkey privateKeyBytes);
                   out ("Visibility: " ++ if isPrivate then "private" else "public");
                   out "";
                   (Out, [VStr "Event ID:"; VStr (id (CreateGroup.signedEvent cfg))]);
                   out ""]
                  cfg
            end
          else Quit [err "Error: Invalid mnemonic phrase"] 1
      end
  end.

(** *** list-groups.js: the key is optional and nothing makes it leave *)

Definition list_key (env : Environment) (lib : Wallet) : option Signer :=
  match present (NOSTR_MNEMONIC env) with
  | Some mnemonic =>
      if validateMnemonic lib mnemonic then privateKey lib mnemonic else None
  | None => None
  end.

Definition list_groups (env : Environment) (lib : Wallet) (clock : Z)
    (number_toString : Z -> Z -> string) (created_iso : value -> option string)
  : outcome ListGroups.config :=
  let relayUrl := or_else (RELAY_URL env) default_relay in
  let privateKeyBytes := list_key env lib in
  Connect
    (out ("Fetching groups from " ++ relayUrl ++ "...")
     :: match privateKeyBytes with
        | None => [out "(No NOSTR_MNEMONIC - listing public groups only)"]
        | Some _ => []
        end
     ++ [out ""])%list
    {| ListGroups.relayUrl := relayUrl;
       ListGroups.key := privateKeyBytes;
       ListGroups.started := clock;
       ListGroups.number_toString := number_toString;
       ListGroups.created_iso := created_iso |}.

End Startup.

Module StartupSpec.
Import Startup.

(** A script is ready to connect: the word it needs is there, the phrase
    is there and valid, and a key comes out of it. *)
Definition ready (first : option string) (env : Environment) (lib : Wallet) : Prop :=
  exists word phrase k,
    present first = Some word
    /\ present (NOSTR_MNEMONIC env) = Some phrase
    /\ validateMnemonic lib phrase = true
    /\ privateKey lib phrase = Some k.

(** The group an event is about: its first tag. *)
Definition target (t : EventTemplate) : list value := nth 0 (tags t) [].

End StartupSpec.

(** ** The frames of a conversation *)

Module Frames.

(** The reply of create-group to a challenge received at [clock]. *)
Definition create_reply (cfg : CreateGroup.config) (challenge : string) (clock : Z)
  : frame :=
  AuthSubmit
    (finalizeEvent
       (auth_template (CreateGroup.relayUrl cfg) (VStr challenge) clock)
       (CreateGroup.key cfg)).

(** The invite event of create-group, signed at [clock]. *)
Definition invite (cfg : CreateGroup.config) (clock : Z) : frame :=
  EventSubmit (finalizeEvent (CreateGroup.invite_template cfg clock)
                             (CreateGroup.key cfg)).

(** What create-group has printed when the create event is sent. *)
Definition create_prologue : list (stream * list value) :=
  [(Out, [VStr "Connected to relay"]); (Out, [VStr "Authenticating..."]);
   (Out, [VStr "Checking if group already exists..."]);
   (Out, [VStr "Sending create group event..."])].

End Frames.

(** ** Sample traffic *)

Module Samples.

(** Frames of every shape but the unreadable ones. *)
Definition odd_traffic : list (N * signal) :=
  [(0%N, SigOpen); (5%N, SigMessage "[]"); (5%N, SigMessage "{}");
   (5%N, SigMessage "3"); (5%N, SigMessage (lit "AUTH"));
   (5%N, SigMessage (Demo.auth_frame "nonce123"));
   (5%N, SigMessage (Demo.event_frame "groups" "null"));
   (5%N, SigMessage (Demo.event_frame "check" "7"));
   (400%N, SigMessage (Demo.ok_frame "zz" false "blocked"));
   (5%N, SigMessage (Demo.frame2 "EOSE" "other"));
   (5%N, SigOpen)].

End Samples.

(** ** What handlers and callbacks may do *)

Module Conduct.

(** Effects that leave the process alive once the socket has opened, those
    that do so in any state of the socket, and those that raise in none. *)
Definition is_mild (e : effect) : bool :=
  match e with
  | Send _ | Console _ _ | WsClose => true
  | _ => false
  end.

Definition is_quiet (e : effect) : bool :=
  match e with
  | Console _ _ | WsClose => true
  | _ => false
  end.

Definition sends_nothing (e : effect) : bool :=
  match e with
  | Send _ => false
  | _ => true
  end.

Definition raises_nothing (e : effect) : bool :=
  match e with
  | Throw | Send _ => false
  | _ => true
  end.

(** A frame the handlers can read: it parses, to something other than
    [null]. *)
Definition readable (sig : signal) : bool :=
  match sig with
  | SigMessage data =>
      match fields_of data with
      | Some _ => true
      | None => false
      end
  | _ => true
  end.

(** A frame that can be read and, when it is a challenge, carries a string:
    [finalizeEvent] accepts no other tag value. *)
Definition answerable (sig : signal) : bool :=
  match sig with
  | SigMessage data =>
      match fields_of data with
      | Some at_ =>
          if is_str (at_ 0%nat) "AUTH"
          then match at_ 1%nat with VStr _ => true | _ => false end
          else true
      | None => false
      end
  | _ => true
  end.

(** Armed timers, for a script whose deadline timer is told by [late] and
    due at [T]: any other timer was armed by a message, hence after the
    socket opened. *)
Definition armed_safely (P : script) (late : timer P -> bool) (T : N)
    (w : world P) : Prop :=
  Forall (fun x => if late (snd x) then fst x = T else ws w <> Connecting)
         (timers w).

(** No armed timer is due by [t]: the earliest one comes later. *)
Definition head_after {P : script} (t : N) (ts : list (N * timer P)) : Prop :=
  match ts with
  | [] => True
  | x :: _ => (t < fst x)%N
  end.

(** A script that starts with its deadline timer alone, whose other
    callbacks only send, print and close, whose deadline callback and
    transport handlers neither send nor raise, and whose message handler
    never arms the deadline again. *)
Definition well_armed (P : script) (late : timer P -> bool) (T : N) : Prop :=
  Forall (fun x => late (snd x) = true /\ fst x = T) (start_timers P)
  /\ in_order (start_timers P)
  /\ (forall cb v, late cb = true ->
        forallb raises_nothing (on_timer P cb v) = true)
  /\ (forall cb v, late cb = false -> forallb is_mild (on_timer P cb v) = true)
  /\ (forall v, calm (snd (on_open P v)) = true /\ arms (snd (on_open P v)) = [])
  /\ (forall clock data v,
        Forall (fun x => late (fst x) = false)
               (arms (snd (on_message P clock data v))))
  /\ (forall m, forallb raises_nothing (on_error P m) = true)
  /\ forallb raises_nothing (on_close P) = true.

(** A message handler keeps [J], a property of the variables, and is calm
    on the frames [safe] accepts when [J] holds. *)
Definition calm_on (P : script) (J : vars P -> Prop) (safe : signal -> bool)
  : Prop :=
  J (start_vars P)
  /\ (forall v, J v -> J (fst (on_open P v)))
  /\ (forall clock data v,
        J v -> safe (SigMessage data) = true ->
        calm (snd (on_message P clock data v)) = true
        /\ J (fst (on_message P clock data v))).

(** The deadline's callback neither sends nor leaves. *)
Definition soft_deadline (P : script) (late : timer P -> bool) : Prop :=
  forall cb v, late cb = true -> forallb is_quiet (on_timer P cb v) = true.

(** The deadline timers of the three scripts. *)
Definition delete_late (cb : DeleteGroup.timer) : bool :=
  match cb with
  | DeleteGroup.Deadline => true
  | DeleteGroup.SendDelete => false
  end.

Definition create_late (cb : CreateGroup.timer) : bool :=
  match cb with
  | CreateGroup.Deadline => true
  | CreateGroup.SendCheck => false
  end.

Definition list_late (cb : ListGroups.timer) : bool :=
  match cb with
  | ListGroups.Deadline => true
  | ListGroups.SendGroups => false
  end.

(** What running statements cannot undo: the clock, the armed timers, the
    frames sent, and a socket that has left the connecting state. *)
Definition lasting (P : script) (w w' : world P) : Prop :=
  now w' = now w
  /\ (forall x, In x (timers w) -> In x (timers w'))
  /\ (forall f, In f (wire w) -> In f (wire w'))
  /\ (ws w <> Connecting -> ws w' <> Connecting)
  /\ (ws w = Closing -> ws w' = Closing).

End Conduct.

(** ** What list-groups.js sends and shows *)

Module ListSpec.
Import ListGroups.

(** The one request of the script. *)
Definition groups_frame : frame :=
  Req "groups" {| kinds := [39000%Z]; d_tag := None |}.

Definition is_send_groups (x : N * timer) : bool :=
  match snd x with
  | SendGroups => true
  | Deadline => false
  end.

(** How many requests are still waiting on their timer. *)
Definition pending (ts : list (N * timer)) : nat :=
  List.length (filter is_send_groups ts).

(** The authentication reply of the script, whose key is [k]. *)
Definition is_reply (cfg : config) (k : Signer) (f : frame) : Prop :=
  exists challenge clock,
    f = AuthSubmit
          (finalizeEvent (auth_template (relayUrl cfg) challenge clock) k).

(** All the script ever says when it has a key: nothing, the reply, or the
    reply and the request. *)
Definition keyed_wire (cfg : config) (k : Signer) (l : list frame) : Prop :=
  l = [] \/ exists f, is_reply cfg k f /\ (l = [f] \/ l = [f; groups_frame]).

Definition keyed (cfg : config) (k : Signer) (w : world (program cfg)) : Prop :=
  keyed_wire cfg k (wire w)
  /\ (authenticated (prog w) = false ->
      wire w = [] /\ pending (timers w) = 0%nat)
  /\ (ws w <> Closing -> authenticated (prog w) = true ->
      exists f,
        is_reply cfg k f
        /\ ((wire w = [f] /\ pending (timers w) <= 1)
            \/ (wire w = [f; groups_frame] /\ pending (timers w) = 0%nat))).

(** And without a key: nothing before the socket opens, the request
    after. *)
Definition keyless (cfg : config) (w : world (program cfg)) : Prop :=
  pending (timers w) = 0%nat
  /\ (wire w = [] \/ wire w = [groups_frame])
  /\ (ws w = Connecting -> wire w = []).

(** An event the EVENT branch turns into a record: an object, or any value
    but [null] and [undefined], whose [tags] is an array without [null] or
    [undefined] member and whose [created_at] makes a valid date. *)
Definition well_formed (cfg : config) (event : value) : Prop :=
  exists field tags,
    reader event = Some field
    /\ field "tags" = VArr tags
    /\ Forall (fun tag => indexer tag <> None) tags
    /\ created_iso cfg (field "created_at") <> None.

(** What the EOSE branch does before it closes the socket. *)
Definition listing (gs : list GroupRecord) : list effect :=
  match gs with
  | [] => [Console Out [VStr "No groups found on this relay."]]
  | _ =>
      Console Out [VStr "Found "; VNum (Z.of_nat (List.length gs)) 0;
                   VStr (" group(s):" ++ newline)]
      :: show_groups 0 gs
  end.

(** A record the listing can print: its name, its identifier and, when it
    is shown, its description can be turned into strings. *)
Definition printable (g : GroupRecord) : bool :=
  negb (toString_raises (name g)) && negb (toString_raises (id g))
  && negb (truthy (description g) && toString_raises (description g)).

(** A frame that adds no record the listing cannot print. *)
Definition presentable (cfg : config) (sig : signal) : bool :=
  match sig with
  | SigMessage data =>
      if labelled data "EVENT" "groups" then
        match fields_of data with
        | Some at_ =>
            match reconstruct cfg (at_ 2%nat) with
            | Some g => printable g
            | None => true
            end
        | None => true
        end
      else true
  | _ => true
  end.

(** The [console] call that leaves a line. *)
Definition say (l : stream * list value) : effect := Console (fst l) (snd l).

(** The header of the listing, and the lines of the group at position
    [i]. *)
Definition header (gs : list GroupRecord) : stream * list value :=
  (Out, [VStr "Found "; VNum (Z.of_nat (List.length gs)) 0;
         VStr (" group(s):" ++ newline)]).

Definition entry (i : nat) (g : GroupRecord) : list (stream * list value) :=
  ([(Out, [VNum (Z.of_nat (i + 1)) 0; VStr ". "; name g; VStr " ";
           VStr (if truthy (private g) then "🔒" else "🌐")]);
    (Out, [VStr "   ID: "; id g])]
   ++ (if truthy (description g) then [(Out, [VStr "   "; description g])] else [])
   ++ [(Out, [VStr "   Created: "; VStr (created g)]); (Out, [VStr ""])])%list.

(** The listing in the words of its header: the groups in the order they
    came, numbered from [i + 1]. *)
Definition entries (i : nat) (gs : list GroupRecord) : list (stream * list value) :=
  List.concat (map (fun ig => entry (fst ig) (snd ig))
                   (combine (seq i (List.length gs)) gs)).

(** The lines of a group that cannot be printed, up to the one that
    raises. *)
Definition cut_entry (i : nat) (g : GroupRecord) : list (stream * list value) :=
  if toString_raises (name g) then [] else
  (Out, [VNum (Z.of_nat (i + 1)) 0; VStr ". "; name g; VStr " ";
         VStr (if truthy (private g) then "🔒" else "🌐")])
  :: if toString_raises (id g) then [] else [(Out, [VStr "   ID: "; id g])].

End ListSpec.

(** ** First checks *)

Example parse_auth :
  JSON_parse ("[" ++ lit "AUTH" ++ "," ++ lit "nonce123" ++ "]")
  = Some (VArr [VStr "AUTH"; VStr "nonce123"]).
Proof. reflexivity. Qed.

Example team_chat : forall clock, CreateGroup.generateGroupId "Team Chat!!" clock = "teamchat".
Proof. reflexivity. Qed.

(** ** Facts about the event loop, for any script *)


Module LoopFacts.

Section Any.
Variable P : script.
Abbreviation world := (world P).

Lemma perform_all_stopped (es : list effect) (w : world) :
  running w = false -> perform_all P es w = w.
Proof. destruct es; simpl; intros H; [reflexivity | now rewrite H]. Qed.

Lemma act_all_stopped (acts : list (action (timer P))) (w : world) :
  running w = false -> act_all P acts w = w.
Proof. destruct acts; simpl; intros H; [reflexivity | now rewrite H]. Qed.

Lemma step_stopped (w : world) ev : running w = false -> step P w ev = w.
Proof. unfold step; intros H; now rewrite H. Qed.

Lemma run_stopped tr : forall w : world, running w = false -> run P w tr = w.
Proof.
  induction tr as [|ev tr IH]; intros w H; simpl; [reflexivity|].
  rewrite step_stopped by assumption. now apply IH.
Qed.

Lemma run_app (w : world) tr1 tr2 :
  run P w (tr1 ++ tr2) = run P (run P w tr1) tr2.
Proof. unfold run. apply fold_left_app. Qed.

Lemma run_snoc (w : world) tr ev :
  run P w (tr ++ [ev]) = step P (run P w tr) ev.
Proof. now rewrite run_app. Qed.

(** *** Properties kept by every primitive operation *)

Section Stable.
Variable Q : world -> Prop.
Hypothesis Q_prog : forall s w, Q w -> Q (set_prog P s w).
Hypothesis Q_now : forall t w, Q w -> Q (set_now P t w).
Hypothesis Q_timers : forall ts w, Q w -> Q (set_timers P ts w).
Hypothesis Q_perform : forall e w, Q w -> Q (perform P e w).
Hypothesis Q_open : forall w, Q w -> ws w = Connecting -> Q (set_ws P Open w).

Lemma perform_all_stable es : forall w, Q w -> Q (perform_all P es w).
Proof.
  induction es as [|e es IH]; intros w H; simpl; [assumption|].
  destruct (running w); [apply IH, Q_perform|]; assumption.
Qed.

Lemma act_all_stable acts : forall w, Q w -> Q (act_all P acts w).
Proof.
  induction acts as [|a acts IH]; intros w H; simpl; [assumption|].
  destruct (running w); [|assumption].
  apply IH. destruct a as [e|cb delay]; simpl; [apply Q_perform | apply Q_timers];
    assumption.
Qed.

Lemma deliver_stable sig w : Q w -> Q (deliver P sig w).
Proof.
  intros H. destruct sig as [|data|msg|]; simpl.
  - destruct (ws w) eqn:E; try assumption.
    unfold handle. apply act_all_stable, Q_prog, Q_open; assumption.
  - destruct (ws w); try assumption;
      unfold handle; apply act_all_stable, Q_prog; assumption.
  - now apply perform_all_stable.
  - now apply perform_all_stable.
Qed.

Lemma fire_stable t pending : forall w, Q w -> Q (fire P t pending w).
Proof.
  induction pending as [|[due cb] rest IH]; intros w H; simpl; [assumption|].
  destruct (due <=? t)%N; [|assumption].
  assert (H1 : Q (fire_one P due cb rest w)).
  { unfold fire_one. apply perform_all_stable, Q_now, Q_timers, H. }
  destruct (running _); [now apply IH | assumption].
Qed.

Lemma advance_stable t w : Q w -> Q (advance P t w).
Proof.
  intros H. unfold advance.
  pose proof (fire_stable t (timers w) w H) as H1.
  destruct (running (fire P t (timers w) w)); [now apply Q_now | assumption].
Qed.

Lemma step_stable w ev : Q w -> Q (step P w ev).
Proof.
  intros H. unfold step. destruct (running w); [|assumption].
  pose proof (advance_stable (now w + fst ev) w H) as H1.
  destruct (running (advance P (now w + fst ev) w));
    [now apply deliver_stable | assumption].
Qed.

Lemma run_stable tr : forall w, Q w -> Q (run P w tr).
Proof.
  induction tr as [|ev tr IH]; intros w H; simpl; [assumption|].
  apply IH, step_stable, H.
Qed.
End Stable.

(** Once [ws.close()] has been called nothing more is transmitted. *)
Lemma closing_is_final (w : world) tr :
  ws w = Closing ->
  ws (run P w tr) = Closing /\ wire (run P w tr) = wire w.
Proof.
  intros H.
  apply (run_stable (fun w' => ws w' = Closing /\ wire w' = wire w)); auto.
  - intros e w' [H1 H2]. destruct e; simpl; auto. now rewrite H1.
  - intros w' [H1 _] H2. congruence.
Qed.

(** A connection that has opened never goes back to connecting. *)
Lemma advance_connected (w : world) t :
  ws w <> Connecting -> ws (advance P t w) <> Connecting.
Proof.
  apply (advance_stable (fun w' => ws w' <> Connecting)); auto.
  - intros e w' H. destruct e; cbn; auto; try discriminate.
    destruct (ws w') eqn:E; cbn; congruence.
Qed.

(** The wire only grows. *)
Lemma wire_grows (w : world) tr :
  exists more, wire (run P w tr) = (wire w ++ more)%list.
Proof.
  apply (run_stable (fun w' => exists more, wire w' = (wire w ++ more)%list)); auto.
  - intros e w' [more H]. destruct e; simpl; eauto.
    destruct (ws w'); simpl; eauto.
    exists (more ++ [f])%list. now rewrite H, app_assoc.
  - exists []. now rewrite app_nil_r.
Qed.

(** A process that has ended stays as it is. *)
Lemma ended_is_final (w : world) tr c :
  status w = Exited c -> run P w tr = w.
Proof. intros H. apply run_stopped. unfold running. now rewrite H. Qed.

(** *** Timers stay in firing order *)

Lemma schedule_in (due : N) (cb : timer P) ts x :
  In x (schedule P due cb ts) <-> x = (due, cb) \/ In x ts.
Proof.
  induction ts as [|[d c] rest IH]; simpl.
  - intuition.
  - destruct (d <=? due)%N; simpl; rewrite ?IH; intuition.
Qed.

Lemma schedule_in_order due cb ts :
  in_order ts -> in_order (schedule P due cb ts).
Proof.
  induction ts as [|[d c] rest IH]; intros H; simpl.
  - repeat constructor.
  - inversion H as [|? ? Hs Hf]; subst.
    destruct (d <=? due)%N eqn:E.
    + constructor; [now apply IH|].
      apply Forall_forall. intros x Hx. apply schedule_in in Hx.
      destruct Hx as [->|Hx]; simpl.
      * now apply N.leb_le.
      * rewrite Forall_forall in Hf. now apply Hf.
    + apply N.leb_gt in E. constructor; [assumption|].
      constructor; [simpl; lia|].
      rewrite Forall_forall in Hf |- *. intros x Hx. specialize (Hf x Hx).
      simpl in *. lia.
Qed.

Lemma perform_timers e (w : world) : timers (perform P e w) = timers w.
Proof. destruct e; simpl; try reflexivity. now destruct (ws w). Qed.

Lemma perform_all_timers es : forall w : world,
  timers (perform_all P es w) = timers w.
Proof.
  induction es as [|e es IH]; intros w; simpl; [reflexivity|].
  destruct (running w); [|reflexivity]. now rewrite IH, perform_timers.
Qed.

Lemma perform_now e (w : world) : now (perform P e w) = now w.
Proof. destruct e; simpl; try reflexivity. now destruct (ws w). Qed.

Lemma perform_all_now es : forall w : world,
  now (perform_all P es w) = now w.
Proof.
  induction es as [|e es IH]; intros w; simpl; [reflexivity|].
  destruct (running w); [|reflexivity]. now rewrite IH, perform_now.
Qed.

Lemma act_all_in_order acts : forall w : world,
  in_order (timers w) -> in_order (timers (act_all P acts w)).
Proof.
  induction acts as [|a acts IH]; intros w H; simpl; [assumption|].
  destruct (running w); [|assumption]. apply IH.
  destruct a as [e|cb delay]; simpl.
  - now rewrite perform_timers.
  - now apply schedule_in_order.
Qed.

Lemma deliver_in_order sig (w : world) :
  in_order (timers w) -> in_order (timers (deliver P sig w)).
Proof.
  intros H. destruct sig; simpl.
  - destruct (ws w); try assumption. now apply act_all_in_order.
  - destruct (ws w); try assumption; now apply act_all_in_order.
  - now rewrite perform_all_timers.
  - now rewrite perform_all_timers.
Qed.

Lemma fire_one_timers due cb rest (w : world) :
  timers (fire_one P due cb rest w) = rest.
Proof. unfold fire_one. now rewrite perform_all_timers. Qed.

(** *** Invariants of a script, handler by handler *)

Section Invariant.
Variable I : world -> Prop.
Hypothesis I_fire :
  forall due cb rest w,
    I w -> running w = true -> timers w = (due, cb) :: rest ->
    I (fire_one P due cb rest w).
Hypothesis I_wait :
  forall t w,
    I w -> running w = true ->
    Forall (fun x => (t < fst x)%N) (timers w) ->
    I (set_now P (N.max (now w) t) w).

Lemma fire_invariant t pending : forall w,
  timers w = pending -> in_order pending -> I w -> running w = true ->
  let w' := fire P t pending w in
  I w' /\ in_order (timers w') /\
  (running w' = true -> Forall (fun x => (t < fst x)%N) (timers w')).
Proof.
  induction pending as [|[due cb] rest IH]; intros w Ht Hs Hi Hr; simpl.
  - rewrite Ht. repeat split; auto.
  - destruct (due <=? t)%N eqn:E.
    + inversion Hs as [|? ? Hs' Hf]; subst.
      pose proof (I_fire due cb rest w Hi Hr Ht) as H1.
      pose proof (fire_one_timers due cb rest w) as H2.
      destruct (running (fire_one P due cb rest w)) eqn:R.
      * now apply IH.
      * rewrite H2, R. repeat split; auto. discriminate.
    + rewrite Ht. repeat split; auto.
      apply N.leb_gt in E. inversion Hs as [|? ? Hs' Hf]; subst.
      constructor; [assumption|].
      rewrite Forall_forall in Hf |- *. intros x Hx. specialize (Hf x Hx).
      simpl in *. lia.
Qed.

Lemma advance_invariant t (w : world) :
  in_order (timers w) -> I w -> running w = true ->
  I (advance P t w) /\ in_order (timers (advance P t w)).
Proof.
  intros Hs Hi Hr. unfold advance.
  destruct (fire_invariant t (timers w) w eq_refl Hs Hi Hr) as (H1 & H2 & H3).
  destruct (running (fire P t (timers w) w)) eqn:R; [|now split].
  split; [|exact H2]. apply I_wait; auto.
Qed.

(** A step keeps [I] when the delivery of its signal does. *)
Lemma step_invariant_for (w : world) dt sig :
  (forall w', I w' -> running w' = true -> I (deliver P sig w')) ->
  in_order (timers w) -> I w ->
  I (step P w (dt, sig)) /\ in_order (timers (step P w (dt, sig))).
Proof.
  intros Hd Hs Hi. unfold step. destruct (running w) eqn:Hr; [|now split].
  cbn [fst snd].
  destruct (advance_invariant (now w + dt) w Hs Hi Hr) as [H1 H2].
  destruct (running (advance P _ w)) eqn:R; [|now split].
  split; [now apply Hd | now apply deliver_in_order].
Qed.

Hypothesis I_deliver :
  forall sig w, I w -> running w = true -> I (deliver P sig w).

Lemma run_invariant tr : forall w : world,
  in_order (timers w) -> I w ->
  I (run P w tr) /\ in_order (timers (run P w tr)).
Proof.
  induction tr as [|[dt sig] tr IH]; intros w Hs Hi; simpl; [now split|].
  destruct (step_invariant_for w dt sig (I_deliver sig) Hs Hi). now apply IH.
Qed.
End Invariant.

(** *** Invariants that do not look at the timers or the clock *)

Section Plain.
Variable I : world -> Prop.
Hypothesis I_fire :
  forall due cb rest w, I w -> running w = true -> I (fire_one P due cb rest w).
Hypothesis I_now : forall t w, I w -> I (set_now P t w).

Lemma fire_keeps t pending : forall w,
  running w = true -> I w -> I (fire P t pending w).
Proof.
  induction pending as [|[due cb] rest IH]; intros w R H; simpl; [assumption|].
  destruct (due <=? t)%N; [|assumption].
  pose proof (I_fire due cb rest w H R) as H1.
  destruct (running (fire_one P due cb rest w)) eqn:R1; [now apply IH | assumption].
Qed.

Lemma advance_keeps t w : running w = true -> I w -> I (advance P t w).
Proof.
  intros R H. unfold advance.
  pose proof (fire_keeps t (timers w) w R H) as H1.
  destruct (running (fire P t (timers w) w)); [now apply I_now | assumption].
Qed.

(** A step keeps [I] when the delivery of its signal does. *)
Lemma step_keeps w dt sig :
  (forall w', I w' -> running w' = true -> I (deliver P sig w')) ->
  I w -> I (step P w (dt, sig)).
Proof.
  intros Hd H. unfold step. destruct (running w) eqn:R; [|assumption].
  pose proof (advance_keeps (now w + dt) w R H) as H1. cbn [fst snd].
  destruct (running (advance P (now w + dt) w)) eqn:R1; [now apply Hd | assumption].
Qed.

Hypothesis I_deliver :
  forall sig w, I w -> running w = true -> I (deliver P sig w).

Lemma run_keeps tr : forall w, I w -> I (run P w tr).
Proof.
  induction tr as [|[dt sig] tr IH]; intros w H; simpl; [assumption|].
  apply IH, step_keeps; auto.
Qed.
End Plain.

(** *** What a calm reaction does to the world *)

Lemma calm_effect acts : forall w : world,
  calm acts = true -> running w = true -> ws w <> Connecting ->
  let w' := act_all P acts w in
  running w' = true /\ prog w' = prog w /\ now w' = now w
  /\ wire w' = (wire w ++ match ws w with Open => sends acts | _ => [] end)%list
  /\ console w' = (console w ++ prints acts)%list
  /\ ws w' = (if closes acts then Closing else ws w)
  /\ timers w'
     = fold_left (fun ts x => schedule P (now w + snd x) (fst x) ts)
                 (arms acts) (timers w).
Proof.
  induction acts as [|a acts IH]; intros w Hc Hr Hw; cbn [act_all].
  - cbn. repeat split; rewrite ?app_nil_r; auto.
    destruct (ws w); now rewrite app_nil_r.
  - rewrite Hr. destruct a as [e|cb delay].
    + destruct e as [f| |c|s args|]; try discriminate.
      * (* Send *)
        cbn [calm] in Hc. cbn [act perform].
        destruct (ws w) eqn:E; [congruence| |].
        -- destruct (IH (transmit P f w) Hc Hr) as (H1 & H2 & H3 & H4 & H5 & H6 & H7);
             [cbn; congruence|].
           cbn [ws transmit] in *. rewrite E in *.
           repeat split; auto. cbn [sends wire transmit] in *.
           now rewrite H4, <- app_assoc.
        -- destruct (IH w Hc Hr) as (H1 & H2 & H3 & H4 & H5 & H6 & H7);
             [congruence|].
           rewrite E in *. repeat split; auto.
      * (* WsClose, last *)
        cbn [calm] in Hc. destruct acts; [|discriminate].
        cbn. rewrite app_nil_r. repeat split; auto.
        destruct (ws w); auto; now rewrite app_nil_r.
      * (* Console *)
        cbn [calm] in Hc. cbn [act perform].
        destruct (IH (print P s args w) Hc Hr Hw) as (H1 & H2 & H3 & H4 & H5 & H6 & H7).
        cbn [ws print wire console prog now timers] in *.
        repeat split; auto. cbn [prints]. now rewrite H5, <- app_assoc.
    + cbn [calm] in Hc. cbn [act].
      destruct (IH (set_timers P (schedule P (now w + delay) cb (timers w)) w) Hc Hr Hw)
        as (H1 & H2 & H3 & H4 & H5 & H6 & H7).
      cbn [ws set_timers wire console prog now timers] in *.
      repeat split; auto.
Qed.

(** *** A deadline timer *)

Section Guard.
Variable T : N.
Variable dl : timer P.
(** What the deadline callback establishes when the process survives it. *)
Variable G : world -> Prop.
Hypothesis G_prog : forall s w, G w -> G (set_prog P s w).
Hypothesis G_now : forall t w, G w -> G (set_now P t w).
Hypothesis G_timers : forall ts w, G w -> G (set_timers P ts w).
Hypothesis G_perform : forall e w, G w -> G (perform P e w).
Hypothesis G_open : forall w, G w -> ws w = Connecting -> G (set_ws P Open w).
Hypothesis dl_fires :
  forall w, running w = true ->
    let w' := perform_all P (on_timer P dl (prog w)) w in
    running w' = true -> G w'.

Lemma schedule_awaiting due cb pre post :
  Forall (fun x => (fst x < T)%N) pre ->
  exists pre' post',
    schedule P due cb (pre ++ (T, dl) :: post) = (pre' ++ (T, dl) :: post')%list
    /\ Forall (fun x => (fst x < T)%N) pre'.
Proof.
  induction pre as [|[d c] pre IH]; intros H; cbn [schedule app].
  - destruct (T <=? due)%N eqn:E.
    + exists [], (schedule P due cb post). split; [reflexivity | constructor].
    + apply N.leb_gt in E. exists [(due, cb)], post. split; [reflexivity|].
      repeat constructor. exact E.
  - inversion H as [|? ? Hd Hp]; subst. cbn [fst] in Hd.
    destruct (d <=? due)%N eqn:E.
    + destruct (IH Hp) as (pre' & post' & E1 & E2).
      exists ((d, c) :: pre'), post'. rewrite E1. split; [reflexivity|].
      now constructor.
    + apply N.leb_gt in E.
      exists ((due, cb) :: (d, c) :: pre), post. split; [reflexivity|].
      constructor; [cbn; lia|]. now constructor.
Qed.

Lemma perform_all_awaiting es : forall w,
  awaiting T dl w -> awaiting T dl (perform_all P es w).
Proof.
  intros w [H1 H2]. unfold awaiting.
  now rewrite perform_all_now, perform_all_timers.
Qed.

Lemma perform_all_guarded es w :
  running w = true -> guarded T dl G w -> guarded T dl G (perform_all P es w).
Proof.
  intros R H R'. destruct (H R) as [A|A].
  - left. now apply perform_all_awaiting.
  - right. now apply perform_all_stable.
Qed.

Lemma act_all_guarded acts : forall w,
  running w = true -> guarded T dl G w -> guarded T dl G (act_all P acts w).
Proof.
  induction acts as [|a acts IH]; intros w R H; cbn [act_all]; [assumption|].
  rewrite R.
  destruct (running (act P a w)) eqn:R1;
    [|intros R2; rewrite act_all_stopped in R2 by assumption; congruence].
  apply IH; [assumption|]. intros _.
  destruct (H R) as [[A1 (pre & post & A2 & A3)]|A].
  - left. destruct a as [e|cb delay]; cbn [act].
    + split; [now rewrite perform_now|]. rewrite perform_timers. eauto.
    + split; [assumption|]. cbn [timers set_timers]. rewrite A2.
      now apply schedule_awaiting.
  - right. destruct a as [e|cb delay]; cbn [act]; auto.
Qed.

Lemma guarded_prog s w : guarded T dl G w -> guarded T dl G (set_prog P s w).
Proof. intros H R. destruct (H R) as [A|A]; [left; exact A | right; auto]. Qed.

Lemma guarded_run tr : forall w,
  in_order (timers w) -> guarded T dl G w -> guarded T dl G (run P w tr).
Proof.
  intros w Hs Hg.
  apply (run_invariant (guarded T dl G)); auto.
  3: { (* deliver *)
    intros sig w' H R. destruct sig; cbn [deliver].
    + destruct (ws w') eqn:E; try assumption. unfold handle.
      apply act_all_guarded; [assumption|]. apply guarded_prog.
      intros _. destruct (H R) as [A|A]; [left; exact A | right; auto].
    + destruct (ws w'); try assumption; unfold handle;
        (apply act_all_guarded; [assumption | now apply guarded_prog]).
    + now apply perform_all_guarded.
    + now apply perform_all_guarded. }
  - (* a timer fires *)
    intros due cb rest w' H R Ht R'. unfold fire_one in *.
    set (w0 := set_now P (N.max (now w') due) (set_timers P rest w')) in *.
    destruct (H R) as [[A1 (pre & post & A2 & A3)]|A].
    + rewrite Ht in A2. destruct pre as [|[d c] pre]; cbn [app] in A2.
      * injection A2 as -> -> ->. right.
        apply (dl_fires w0); [exact R | exact R'].
      * injection A2 as -> -> ->. inversion A3 as [|? ? Hd Hp]; subst.
        cbn [fst] in Hd. left. apply perform_all_awaiting.
        split; [cbn; lia|]. exists pre, post. split; [reflexivity | assumption].
    + right. apply perform_all_stable; auto. subst w0. auto.
  - (* time passes *)
    intros t w' H R Hf _. destruct (H R) as [[A1 (pre & post & A2 & A3)]|A].
    + left. rewrite A2 in Hf. apply Forall_app in Hf. destruct Hf as [_ Hf].
      inversion Hf as [|? ? Hd _]; subst. cbn [fst] in Hd.
      split; [cbn; lia|]. exists pre, post. split; assumption.
    + right. auto.
Qed.

(** With the deadline armed at the start, a process that is still running
    has not reached the deadline, unless the callback left it running. *)
Lemma deadline_bounds tr :
  start_timers P = [(T, dl)] -> (0 < T)%N ->
  let w := run P (boot P) tr in
  running w = true -> (now w < T)%N \/ G w.
Proof.
  intros Hs HT w R.
  assert (H : guarded T dl G (run P (boot P) tr)).
  { apply guarded_run.
    - cbn. rewrite Hs. repeat constructor.
    - intros _. left. split; [exact HT|].
      exists [], []. cbn. rewrite Hs. split; [reflexivity | constructor]. }
  destruct (H R) as [[A _]|A]; [now left | now right].
Qed.
End Guard.

(** *** Delivery of a message *)

Lemma deliver_message data (w : world) :
  ws w <> Connecting ->
  deliver P (SigMessage data) w
  = handle P (on_message P (epoch P + Z.of_N (now w)) data (prog w)) w.
Proof. intros H. cbn [deliver]. now destruct (ws w). Qed.

Lemma handle_calm r (w : world) :
  calm (snd r) = true -> running w = true -> ws w <> Connecting ->
  let w' := handle P r w in
  running w' = true /\ prog w' = fst r /\ now w' = now w
  /\ wire w' = (wire w ++ match ws w with Open => sends (snd r) | _ => [] end)%list
  /\ console w' = (console w ++ prints (snd r))%list
  /\ ws w' = (if closes (snd r) then Closing else ws w)
  /\ timers w'
     = fold_left (fun ts x => schedule P (now w + snd x) (fst x) ts)
                 (arms (snd r)) (timers w).
Proof.
  intros Hc Hr Hw. unfold handle.
  exact (calm_effect (snd r) (set_prog P (fst r) w) Hc Hr Hw).
Qed.

Lemma handle_throw v (w : world) :
  running w = true ->
  handle P (v, [Do Throw]) w = set_status P Crashed (set_prog P v w).
Proof. intros Hr. unfold handle. cbn. unfold running in *. cbn. now rewrite Hr. Qed.

(** While the process runs the clock follows the run. *)
Lemma deliver_clock sig (w : world) : (now w <= now (deliver P sig w))%N.
Proof.
  assert (Hn : forall acts w1, (now w1 <= now (act_all P acts w1))%N).
  { induction acts as [|a acts IH]; intros w1; cbn [act_all]; [lia|].
    destruct (running w1); [|lia].
    specialize (IH (act P a w1)).
    destruct a as [e|cb delay]; cbn [act] in *;
      [rewrite perform_now in IH|]; cbn in *; lia. }
  destruct sig; cbn [deliver].
  - destruct (ws w); try lia.
    unfold handle. etransitivity; [|apply Hn]. cbn. lia.
  - destruct (ws w); try lia;
      unfold handle; (etransitivity; [|apply Hn]); cbn; lia.
  - rewrite perform_all_now. lia.
  - rewrite perform_all_now. lia.
Qed.

Lemma step_clock (w : world) dt sig :
  running (step P w (dt, sig)) = true ->
  (now w + dt <= now (step P w (dt, sig)))%N.
Proof.
  unfold step. destruct (running w) eqn:R; [|congruence]. cbn [fst snd].
  unfold advance. set (w1 := fire P (now w + dt) (timers w) w).
  destruct (running w1) eqn:R1.
  - change (running (set_now P (N.max (now w1) (now w + dt)) w1)) with (running w1).
    rewrite R1. intros _.
    etransitivity; [|apply deliver_clock]. cbn. lia.
  - rewrite R1. congruence.
Qed.

Lemma run_clock tr : forall w : world,
  running (run P w tr) = true -> (now w + duration tr <= now (run P w tr))%N.
Proof.
  induction tr as [|[dt sig] tr IH]; intros w R.
  - cbn. lia.
  - change (run P w ((dt, sig) :: tr)) with (run P (step P w (dt, sig)) tr) in *.
    change (duration ((dt, sig) :: tr)) with (dt + duration tr)%N.
    pose proof (IH _ R) as H.
    assert (R1 : running (step P w (dt, sig)) = true).
    { destruct (running (step P w (dt, sig))) eqn:E; [reflexivity|].
      rewrite (run_stopped tr _ E) in R. congruence. }
    pose proof (step_clock w dt sig R1). lia.
Qed.

End Any.

End LoopFacts.

(** ** generateGroupId *)

Module GroupIdFacts.
Import CreateGroup GroupIdSpec.

Lemma toLowerCase_plain a t :
  (code a < 128)%N ->
  toLowerCase (String a t) = String (lower_ascii a) (toLowerCase t).
Proof.
  intros H.
  assert (E1 : forall b, is_dotted_I a b = false).
  { intros b. unfold is_dotted_I.
    destruct (N.eqb_spec (code a) 196) as [E|E]; [lia | reflexivity]. }
  assert (E2 : forall b c, is_kelvin a b c = false).
  { intros b c. unfold is_kelvin.
    destruct (N.eqb_spec (code a) 226) as [E|E]; [lia | reflexivity]. }
  destruct t as [|b [|c t3]]; cbn [toLowerCase]; rewrite ?E1, ?E2; reflexivity.
Qed.

Lemma toLowerCase_ascii s :
  ascii_only s ->
  list_ascii_of_string (toLowerCase s) = map lower_ascii (list_ascii_of_string s).
Proof.
  unfold ascii_only. induction s as [|a t IH]; intros H; [reflexivity|].
  cbn [list_ascii_of_string] in H. inversion H as [|? ? Ha Ht]; subst.
  rewrite toLowerCase_plain by assumption.
  cbn [list_ascii_of_string map]. now rewrite IH.
Qed.

Lemma strip_filter s :
  list_ascii_of_string (strip s) = filter is_id_char (list_ascii_of_string s).
Proof.
  induction s as [|c t IH]; [reflexivity|].
  cbn [strip list_ascii_of_string filter].
  destruct (is_id_char c); cbn [list_ascii_of_string]; now rewrite IH.
Qed.

Lemma substring_firstn n : forall s,
  list_ascii_of_string (substring 0 n s) = firstn n (list_ascii_of_string s).
Proof.
  induction n as [|n IH]; intros [|c t]; cbn; try reflexivity.
  now rewrite IH.
Qed.

Lemma slice24_length s : String.length (slice24 s) <= 24.
Proof.
  unfold slice24. generalize 24 as n.
  intros n. revert s. induction n as [|n IH]; intros [|c t]; cbn; try lia.
  specialize (IH t). lia.
Qed.

Lemma strip_id_chars s c :
  In c (list_ascii_of_string (strip s)) -> is_id_char c = true.
Proof. rewrite strip_filter, filter_In. tauto. Qed.

Lemma slice24_chars s c :
  In c (list_ascii_of_string (slice24 s)) -> In c (list_ascii_of_string s).
Proof.
  unfold slice24. rewrite substring_firstn.
  generalize 24 as n. intros n. revert s.
  induction n as [|n IH]; intros [|a t]; cbn; try tauto.
  intros [H|H]; [now left | right; now apply IH].
Qed.

Lemma digits36_keeps fuel : forall n acc,
  acc <> "" -> digits36 fuel n acc <> "".
Proof.
  induction fuel as [|f IH]; intros n acc H; cbn [digits36]; [assumption|].
  destruct (n / 36 =? 0)%N; [discriminate | apply IH; discriminate].
Qed.

Lemma toString36_nonempty z : toString36 z <> "".
Proof.
  unfold toString36. cbn [digits36].
  destruct (z <? 0)%Z; [discriminate|].
  destruct (_ =? 0)%N; [discriminate | apply digits36_keeps; discriminate].
Qed.

(** More fuel than digits changes nothing: [digits36] is the full base-36
    expansion as soon as [n < 36 ^ fuel]. *)
Lemma digits36_enough f1 : forall f2 n acc,
  (n < 36 ^ N.of_nat f1)%N -> f1 <= f2 -> 0 < f1 ->
  digits36 f1 n acc = digits36 f2 n acc.
Proof.
  induction f1 as [|f1 IH]; intros f2 n acc Hn Hle Hpos; [lia|].
  destruct f2 as [|f2]; [lia|]. cbn [digits36].
  destruct (N.eqb_spec (n / 36) 0) as [E|E]; [reflexivity|].
  assert (Hq : (n / 36 < 36 ^ N.of_nat f1)%N).
  { apply N.Div0.div_lt_upper_bound.
    replace (N.of_nat (S f1)) with (N.succ (N.of_nat f1)) in Hn by lia.
    now rewrite N.pow_succ_r' in Hn. }
  destruct f1 as [|f1].
  - change (N.of_nat 0) with 0%N in Hq. rewrite N.pow_0_r in Hq.
    exfalso. apply E. now apply N.lt_1_r.
  - apply IH; lia.
Qed.

Lemma size_fuel_enough n : (n < 36 ^ N.of_nat (S (N.size_nat n)))%N.
Proof.
  assert (H : (n < 2 ^ N.of_nat (N.size_nat n))%N).
  { destruct n as [|p]; [reflexivity|]. cbn [N.size_nat].
    induction p as [p IH|p IH|]; cbn [Pos.size_nat];
      rewrite ?Nat2N.inj_succ, ?N.pow_succ_r'; [lia | lia | reflexivity]. }
  eapply N.lt_le_trans; [exact H|].
  replace (N.of_nat (S (N.size_nat n))) with (N.succ (N.of_nat (N.size_nat n))) by lia.
  rewrite N.pow_succ_r'.
  assert (H2 : (2 ^ N.of_nat (N.size_nat n) <= 36 ^ N.of_nat (N.size_nat n))%N)
    by (apply N.pow_le_mono_l; lia).
  lia.
Qed.

Lemma toString36_fuel n k :
  digits36 (S (N.size_nat n)) n "" = digits36 (S (N.size_nat n) + k) n "".
Proof. apply digits36_enough; [apply size_fuel_enough | lia | lia]. Qed.

(** Whatever the bytes of the name, [generateGroupId] returns the cut when
    it is not empty, and [group] followed by the clock otherwise. *)
Lemma generateGroupId_cut (groupName : string) (clock : Z) :
  let cut := slice24 (strip (toLowerCase groupName)) in
  let result := generateGroupId groupName clock in
  result <> ""
  /\ (cut <> "" ->
      result = cut
      /\ String.length result <= 24
      /\ Forall (fun c => is_id_char c = true) (list_ascii_of_string result))
  /\ (cut = "" ->
      result = "group" ++ toString36 clock /\ toString36 clock <> "")
  /\ (ascii_only groupName ->
      list_ascii_of_string cut = normalized_spec (list_ascii_of_string groupName))
  /\ generateGroupId "Team Chat!!" clock = "teamchat"
  /\ generateGroupId "!!!" clock = "group" ++ toString36 clock.
Proof.
  intros cut result.
  assert (Hspec : ascii_only groupName ->
                  list_ascii_of_string cut
                  = normalized_spec (list_ascii_of_string groupName)).
  { intros H. subst cut. unfold slice24, normalized_spec.
    now rewrite substring_firstn, strip_filter, toLowerCase_ascii. }
  assert (Hres : result = if cut =? "" then "group" ++ toString36 clock else cut)
    by reflexivity.
  destruct (String.eqb_spec cut "") as [E|E]; rewrite Hres.
  - split; [discriminate|].
    split; [intros H; contradiction|].
    split; [intros _; split; [reflexivity | apply toString36_nonempty]|].
    split; [exact Hspec|]. split; reflexivity.
  - split; [exact E|].
    split.
    { intros _. split; [reflexivity|]. split; [apply slice24_length|].
      apply Forall_forall. intros c Hc.
      apply slice24_chars in Hc. now apply strip_id_chars in Hc. }
    split; [intros H; contradiction|].
    split; [exact Hspec|]. split; reflexivity.
Qed.

End GroupIdFacts.

(** ** list-groups.js: how a group record is put together *)

Module RecordFacts.
Import ListGroups RecordSpec.

Lemma last_tag_is_last names tags :
  last_tag names tags = hd_error (rev (filter (tag_named names) tags)).
Proof.
  induction tags as [|t rest IH]; [reflexivity|].
  cbn [last_tag filter]. rewrite IH.
  destruct (tag_named names t); cbn [rev];
    destruct (rev (filter (tag_named names) rest)); reflexivity.
Qed.

Lemma read_tags_refines tags : forall acc r,
  read_tags acc tags = Some r -> r = fields_spec acc tags.
Proof.
  induction tags as [|t rest IH]; intros acc r H.
  - cbn in H. injection H as <-. now destruct acc as [[n d] p].
  - cbn [read_tags] in H.
    destruct (read_tag acc t) as [acc'|] eqn:E; [|discriminate].
    apply IH in H. subst r.
    unfold read_tag in E. destruct (indexer t) as [at_|] eqn:Et; [|discriminate].
    destruct acc as [[n d] p]. injection E as <-.
    unfold fields_spec. cbn [last_tag].
    unfold tag_privacy, tag_value, tag_named, second_of. rewrite Et.
    cbn [existsb].
    destruct (last_tag ["name"] rest), (last_tag ["about"] rest),
      (last_tag ["public"; "private"] rest);
      rewrite ?orb_false_r;
      destruct (is_str (at_ 0%nat) "name") eqn:E1;
      destruct (is_str (at_ 0%nat) "about") eqn:E2;
      destruct (is_str (at_ 0%nat) "public") eqn:E3;
      destruct (is_str (at_ 0%nat) "private") eqn:E4;
      cbn [orb]; try reflexivity;
      rewrite ?Et; cbv beta iota; rewrite ?orb_false_r, ?E3, ?E4; reflexivity.
Qed.

Lemma find_d_refines tags : forall found,
  find_d tags = Some found -> found = first_tag ["d"] tags.
Proof.
  induction tags as [|t rest IH]; intros found H.
  - cbn in H. now injection H as <-.
  - cbn [find_d first_tag] in *. unfold tag_named.
    destruct (indexer t) as [at_|]; [|discriminate].
    cbn [existsb]. rewrite orb_false_r.
    destruct (is_str (at_ 0%nat) "d"); [now injection H as <- | now apply IH].
Qed.

(** C6.  In every record the EVENT branch of list-groups builds, the name,
    the description and the visibility are those of the last [name],
    [about] and [public]/[private] tag when the event has one, and those of
    the JSON content otherwise; the example event gets the name [Z] of its
    tag and keeps the description [Y] of its content. *)
Theorem tags_override_content (cfg : config) (event : value) (g : GroupRecord) :
  reconstruct cfg event = Some g ->
  (exists field tags,
      reader event = Some field /\ field "tags" = VArr tags
      /\ (name g, description g, private g)
         = fields_spec (from_content cfg (field "content")) tags)
  /\ (forall created_at iso,
        created_iso cfg created_at = Some iso ->
        reconstruct cfg (example_event created_at)
        = Some {| id := VStr "unknown"; name := VStr "Z"; description := VStr "Y";
                  private := VBool false; created := iso |}).
Proof.
  intros H. split.
  - unfold reconstruct in H.
    destruct (reader event) as [field|] eqn:Er; [|discriminate].
    destruct (field "tags") as [| | | | |tags|] eqn:Et; try discriminate.
    destruct (read_tags _ tags) as [[[n d] p]|] eqn:Ea; [|discriminate].
    destruct (find_d tags); [|discriminate].
    destruct (created_iso cfg _); [|discriminate].
    injection H as <-. cbn [name description private].
    exists field, tags. repeat split; auto.
    now apply read_tags_refines in Ea.
  - intros created_at iso Hiso. unfold reconstruct, example_event.
    cbn [reader own_property String.eqb Ascii.eqb Bool.eqb].
    cbv beta iota. rewrite Hiso. reflexivity.
Qed.

End RecordFacts.

(** ** delete-group.js: runs *)

Module DeleteFacts.
Import DeleteGroup DeleteSpec LoopFacts.

Section Delete.
Variable cfg : config.
Abbreviation P := (program cfg).

Lemma delete_reaction clock data :
  on_message cfg clock data tt
  = (tt,
     match fields_of data with
     | None => [Do Throw]
     | Some at_ =>
         if is_str (at_ 0%nat) "AUTH" then
           [Do (Console Out [VStr "Authenticating..."]);
            Do (Send (AuthSubmit
                  (finalizeEvent
                     (auth_template (relayUrl cfg) (at_ 1%nat) clock) (key cfg))));
            SetTimeout SendDelete 500]
         else if is_str (at_ 0%nat) "OK"
                 && is_str (at_ 1%nat) (id (signedEvent cfg)) then
           [Do (if truthy (at_ 2%nat)
                then Console Out [VStr "✅ Group deleted!"]
                else Console Err [VStr "❌ Failed to delete group:"; at_ 3%nat]);
            Do WsClose]
         else []
     end).
Proof.
  unfold on_message, fields_of.
  destruct (JSON_parse data) as [response|]; [|reflexivity].
  destruct (indexer response) as [at_|]; [|reflexivity].
  destruct (is_str (at_ 0%nat) "AUTH"); [reflexivity|].
  destruct (is_str (at_ 0%nat) "OK"); [|reflexivity].
  destruct (is_str (at_ 1%nat) (id (signedEvent cfg))); reflexivity.
Qed.

(** Every reaction to a message either raises or is calm; it sends the
    authentication reply and arms the delete timer on an AUTH frame, and
    sends and arms nothing on any other frame. *)
Lemma delete_reaction_shape clock data (v : vars P) :
  let acts : list (action (Loop.timer P)) :=
    snd (Loop.on_message P clock data v) in
  (fields_of data = None /\ acts = [Do Throw])
  \/ (calm acts = true /\
      ((tagged data "AUTH" = true /\ closes acts = false
        /\ arms acts = [(SendDelete, 500%N)]
        /\ exists ev, sends acts = [AuthSubmit ev])
       \/ (tagged data "AUTH" = false /\ sends acts = [] /\ arms acts = []))).
Proof.
  destruct v. cbn [Loop.on_message program].
  rewrite delete_reaction. unfold tagged. cbn [snd].
  destruct (fields_of data) as [at_|]; [|now left].
  right. destruct (is_str (at_ 0%nat) "AUTH").
  - split; [reflexivity|]. left.
    split; [reflexivity|]. split; [reflexivity|]. split; [reflexivity|].
    eexists; reflexivity.
  - destruct (is_str (at_ 0%nat) "OK" && is_str (at_ 1%nat) (id (signedEvent cfg))).
    + destruct (truthy (at_ 2%nat)); split; auto.
    + split; auto.
Qed.

Lemma delete_timer_effect due cb rest (w : world P) :
  running w = true ->
  let w' := fire_one P due cb rest w in
  timers w' = rest /\
  match cb with
  | SendDelete =>
      match ws w with
      | Open => wire w' = (wire w ++ [EventSubmit (signedEvent cfg)])%list
                /\ status w' = Running
      | Closing => wire w' = wire w /\ status w' = Running
      | Connecting => wire w' = wire w /\ status w' = Crashed
      end
      /\ ws w' = ws w
  | Deadline =>
      wire w' = wire w /\ status w' = Exited 1 /\ ws w' = Closing
      /\ console w' = (console w ++ [(Err, [VStr "Timeout"])])%list
  end.
Proof.
  intros R. destruct w as [pr r st n ts wi co].
  unfold running in R. cbn in R. destruct st; try discriminate.
  destruct cb, r; cbn; auto.
Qed.

Lemma auth_first_deliver sig (w : world P) :
  auth_first cfg w -> running w = true -> auth_first cfg (deliver P sig w).
Proof.
  intros H R. destruct sig as [|data|msg|].
  - (* open *)
    cbn [deliver]. destruct (ws w) eqn:E; [|exact H..].
    destruct H as [H1 H2].
    destruct w as [pr r st n ts wi co]. cbn in *. subst r.
    unfold running in R. cbn in R. destruct st; try discriminate.
    cbn. split; auto. intros _. apply H1. discriminate.
  - (* message *)
    destruct (ws w) eqn:E.
    { cbn [deliver]. now rewrite E. }
    all: destruct H as [H1 H2].
    all: rewrite deliver_message by congruence.
    all: pose proof (delete_reaction_shape (epoch P + Z.of_N (now w)) data (prog w))
           as Hshape.
    all: remember (Loop.on_message P (epoch P + Z.of_N (now w)) data (prog w))
           as r eqn:Er.
    all: cbv zeta in Hshape; destruct Hshape as [[_ Ht]|[Hc Hs]].
    all: try (destruct r as [v acts]; cbn [snd] in Ht; subst acts;
              rewrite handle_throw by assumption; split; cbn; auto).
    all: destruct (handle_calm P r w Hc R ltac:(congruence))
           as (_ & _ & _ & Hw & _ & Hws & Htm).
    all: rewrite E in Hw, Hws.
    all: destruct Hs as [(_ & Hcl & Ha & ev & Hse)|(_ & Hse & Ha)].
    all: unfold auth_first; rewrite Hw, Htm, Hws, ?Ha, ?Hse, ?Hcl; cbn [fold_left].
    + (* AUTH while open *)
      split.
      * intros _ Hnil. now destruct (wire w).
      * intros f rest Hf. destruct (wire w) as [|f0 more] eqn:Ew.
        -- injection Hf as <- _. eauto.
        -- injection Hf as <- _. now apply (H2 f0 more).
    + (* another frame while open *)
      rewrite app_nil_r. split; [|exact H2].
      destruct (closes (snd r)); [congruence|]. rewrite <- E. exact H1.
    + (* AUTH while closing *)
      rewrite app_nil_r. split; [congruence | exact H2].
    + rewrite app_nil_r. split; [|exact H2].
      destruct (closes (snd r)); congruence.
  - destruct w as [pr r st n ts wi co].
    unfold running in R. cbn in *. destruct st; try discriminate. exact H.
  - destruct w as [pr r st n ts wi co].
    unfold running in R. cbn in *. destruct st; try discriminate. exact H.
Qed.

Lemma auth_first_fire due cb rest (w : world P) :
  auth_first cfg w -> running w = true -> timers w = (due, cb) :: rest ->
  auth_first cfg (fire_one P due cb rest w).
Proof.
  intros [H1 H2] R Ht.
  destruct (delete_timer_effect due cb rest w R) as [Hr He].
  unfold auth_first. rewrite Hr. destruct cb.
  - destruct He as [He Hws]. rewrite Hws.
    assert (Hrest : ws w <> Closing -> wire w = [] ->
                    forall due0, ~ In (due0, SendDelete) rest).
    { intros A B due0 C. apply (H1 A B due0). rewrite Ht. now right. }
    destruct (ws w) eqn:E; destruct He as [Hw _]; rewrite Hw.
    + split; [exact Hrest | exact H2].
    + split; [intros _ Hnil; now destruct (wire w)|].
      intros f more Hf. destruct (wire w) as [|f0 more0] eqn:Ew.
      * exfalso. apply (H1 ltac:(discriminate) eq_refl due).
        rewrite Ht. now left.
      * injection Hf as <- _. now apply (H2 f0 more0).
    + split; [congruence | exact H2].
  - destruct He as (Hw & _ & Hws & _). rewrite Hw, Hws.
    split; [congruence | exact H2].
Qed.

Lemma auth_first_run tr : auth_first cfg (run P (boot P) tr).
Proof.
  apply (run_invariant P (auth_first cfg)).
  - apply auth_first_fire.
  - intros t w H _ _. exact H.
  - intros sig w. apply auth_first_deliver.
  - repeat constructor.
  - split; [intros _ _ due [H|[]]; discriminate | discriminate].
Qed.

(** Without an AUTH frame nothing is sent. *)
Lemma silent_fire due cb rest (w : world P) :
  silent cfg w -> running w = true -> timers w = (due, cb) :: rest ->
  let w' := fire_one P due cb rest w in
  silent cfg w' /\ status w' = Exited 1 /\ ws w' = Closing
  /\ console w' = (console w ++ [(Err, [VStr "Timeout"])])%list.
Proof.
  intros [H1 H2] R Ht.
  destruct (delete_timer_effect due cb rest w R) as [Hr He].
  destruct cb.
  - exfalso. apply (H2 due). rewrite Ht. now left.
  - destruct He as (Hw & Hs & Hws & Hc). unfold silent. rewrite Hw, Hr.
    repeat split; auto. intros due0 C. apply (H2 due0). rewrite Ht. now right.
Qed.

Lemma silent_deliver sig (w : world P) :
  no_challenge sig = true ->
  silent cfg w -> running w = true -> silent cfg (deliver P sig w).
Proof.
  intros Hn H R. destruct sig as [|data|msg|].
  - cbn [deliver]. destruct (ws w) eqn:E; [|exact H..].
    destruct w as [pr r st n ts wi co]. cbn in *.
    unfold running in R. cbn in R. destruct st; try discriminate. exact H.
  - destruct (ws w) eqn:E.
    { cbn [deliver]. now rewrite E. }
    all: rewrite deliver_message by congruence.
    all: pose proof (delete_reaction_shape (epoch P + Z.of_N (now w)) data (prog w))
           as Hshape.
    all: remember (Loop.on_message P (epoch P + Z.of_N (now w)) data (prog w))
           as r eqn:Er.
    all: cbv zeta in Hshape; destruct Hshape as [[_ Ht]|[Hc Hs]].
    all: try (destruct r as [v acts]; cbn [snd] in Ht; subst acts;
              rewrite handle_throw by assumption; exact H).
    all: destruct (handle_calm P r w Hc R ltac:(congruence))
           as (_ & _ & _ & Hw & _ & _ & Htm).
    all: cbn [no_challenge] in Hn; apply negb_true_iff in Hn.
    all: destruct Hs as [(Hta & _)|(_ & Hse & Ha)]; [congruence|].
    all: unfold silent; rewrite Hw, Htm, Ha, ?Hse; cbn [fold_left].
    all: destruct H as [H1 H2]; rewrite H1; split; auto.
    all: now destruct (ws w).
  - destruct w as [pr r st n ts wi co].
    unfold running in R. cbn in *. destruct st; try discriminate. exact H.
  - destruct w as [pr r st n ts wi co].
    unfold running in R. cbn in *. destruct st; try discriminate. exact H.
Qed.

Lemma silent_run tr :
  all_signals no_challenge tr = true -> silent cfg (run P (boot P) tr).
Proof.
  enough (forall w : world P,
             in_order (timers w) -> silent cfg w ->
             all_signals no_challenge tr = true -> silent cfg (run P w tr)) as H.
  { apply H; [repeat constructor|].
    split; [reflexivity | intros due [E|[]]; discriminate]. }
  induction tr as [|[dt sig] tr IH]; intros w Hs Hi Ha; [exact Hi|].
  cbn [all_signals forallb snd] in Ha. apply andb_true_iff in Ha. destruct Ha as [Ha1 Ha2].
  destruct (step_invariant_for P (silent cfg)) with (w := w) (dt := dt) (sig := sig)
    as [H1 H2]; auto.
  - intros due cb rest w' Hw' R Ht. now apply silent_fire.
  - intros w' Hw' R. now apply silent_deliver.
  - apply IH; assumption.
Qed.

(** With no challenge, a transport that stays up and harmless frames, only
    the deadline ends the run. *)
Lemma idle_fire due cb rest (w : world P) :
  idle cfg w -> running w = true -> timers w = (due, cb) :: rest ->
  idle cfg (fire_one P due cb rest w).
Proof.
  intros [H _] R Ht.
  destruct (silent_fire due cb rest w H R Ht) as (H1 & H2 & H3 & H4).
  split; [exact H1|]. right. eauto.
Qed.

Lemma running_status (w : world P) : running w = true -> status w = Running.
Proof. unfold running. now destruct (status w). Qed.

Lemma idle_deliver sig (w : world P) :
  unchallenged sig = true ->
  idle cfg w -> running w = true -> idle cfg (deliver P sig w).
Proof.
  intros Hn H R. destruct sig as [|data|msg|]; try discriminate.
  - cbn [deliver]. destruct (ws w) eqn:E; [|exact H..].
    destruct w as [pr r st n ts wi co]. cbn in *.
    unfold running in R. cbn in R. destruct st; try discriminate.
    destruct H as [Hs _]. split; [exact Hs | now left].
  - cbn [unchallenged] in Hn.
    destruct (fields_of data) as [at_|] eqn:Ef; [|discriminate].
    split.
    + apply silent_deliver; [|exact (proj1 H) | exact R].
      cbn [no_challenge]. unfold tagged. now rewrite Ef.
    + left. apply running_status.
      destruct (ws w) eqn:E.
      { cbn [deliver]. now rewrite E. }
      all: rewrite deliver_message by congruence.
      all: pose proof (delete_reaction_shape (epoch P + Z.of_N (now w)) data (prog w))
             as Hshape.
      all: cbv zeta in Hshape; destruct Hshape as [[Hf _]|[Hc _]]; [congruence|].
      all: now destruct (handle_calm P _ w Hc R ltac:(congruence)) as (Hrun & _).
Qed.

Lemma idle_run tr :
  all_signals unchallenged tr = true -> idle cfg (run P (boot P) tr).
Proof.
  enough (forall w : world P,
             in_order (timers w) -> idle cfg w ->
             all_signals unchallenged tr = true -> idle cfg (run P w tr)) as H.
  { apply H; [repeat constructor|].
    split; [|now left].
    split; [reflexivity | intros due [E|[]]; discriminate]. }
  induction tr as [|[dt sig] tr IH]; intros w Hs Hi Ha; [exact Hi|].
  cbn [all_signals forallb snd] in Ha. apply andb_true_iff in Ha. destruct Ha as [Ha1 Ha2].
  destruct (step_invariant_for P (idle cfg)) with (w := w) (dt := dt) (sig := sig)
    as [H1 H2]; auto.
  - intros due cb rest w' Hw' R Ht. now apply idle_fire.
  - intros w' Hw' R. now apply idle_deliver.
  - apply IH; assumption.
Qed.

(** The deadline: no run of delete-group is alive 15 seconds after its
    start. *)
Lemma delete_deadline tr :
  running (run P (boot P) tr) = true -> (now (run P (boot P) tr) < 15000)%N.
Proof.
  intros R.
  assert (H : (now (run P (boot P) tr) < 15000)%N \/ False).
  { apply (deadline_bounds P 15000 Deadline (fun _ => False)); auto.
    - intros w Rw. destruct w as [pr r st n ts wi co].
      unfold running in *. cbn in *. destruct st; discriminate.
    - reflexivity. }
  now destruct H.
Qed.

End Delete.

End DeleteFacts.

(** ** create-group.js: runs *)

Module CreateFacts.
Import CreateGroup CreateSpec LoopFacts.

Section Create.
Variable cfg : config.
Abbreviation P := (program cfg).

Lemma create_reaction clock data (v : vars) :
  on_message cfg clock data v
  = match fields_of data with
    | None => (v, [Do Throw])
    | Some at_ =>
        if is_str (at_ 0%nat) "AUTH" then
          ({| authenticated := true; groupExists := groupExists v |},
           [Do (Console Out [VStr "Authenticating..."]);
            Do (Send (AuthSubmit
                  (finalizeEvent
                     (auth_template (relayUrl cfg) (at_ 1%nat) clock) (key cfg))));
            SetTimeout SendCheck 300])
        else if is_str (at_ 0%nat) "EVENT" && is_str (at_ 1%nat) "check" then
          ({| authenticated := authenticated v; groupExists := true |}, [])
        else if is_str (at_ 0%nat) "EOSE" && is_str (at_ 1%nat) "check" then
          (v, Do (Send (Close "check")) ::
              if groupExists v then
                [Do (Console Err [VStr (exists_message cfg)]); Do WsClose]
              else
                [Do (Console Out [VStr "Sending create group event..."]);
                 Do (Send (create_frame cfg))])
        else if is_str (at_ 0%nat) "OK" then
          if is_str (at_ 1%nat) (id (signedEvent cfg)) then
            if truthy (at_ 2%nat) then
              (v, Do (Console Out [VStr "✅ Group created!"]) ::
                  Do (Console Out [VStr ("Group ID: " ++ groupId cfg)]) ::
                  match inviteCode cfg with
                  | Some c =>
                      if isPrivate cfg && negb (c =? "") then
                        [Do (Console Out [VStr "Creating invite code..."]);
                         Do (Send (EventSubmit
                               (finalizeEvent (invite_template cfg clock) (key cfg))))]
                      else [Do WsClose]
                  | None => [Do WsClose]
                  end)
            else
              (v, [Do (Console Err [VStr "❌ Failed to create group:"; at_ 3%nat]);
                   Do WsClose])
          else if isPrivate cfg then
            (v, (if truthy (at_ 2%nat) then
                   [Do (Console Out [VStr "✅ Invite created!"]);
                    Do (Console Out [VStr ""]);
                    Do (Console Out [VStr rule]);
                    Do (Console Out [VStr ("Invite URL: " ++ fullUrl cfg)]);
                    Do (Console Out [VStr rule]);
                    Do (Console Out [VStr ""]);
                    Do (Console Out [VStr "Share this URL with users to join."])]
                 else
                   [Do (Console Err [VStr "⚠️  Group created but invite failed:";
                                     at_ 3%nat]);
                    Do (Console Out [VStr ("Group ID: " ++ groupId cfg)])])
                ++ [Do WsClose])%list
          else (v, [])
        else (v, [])
    end.
Proof.
  unfold on_message, fields_of.
  destruct (JSON_parse data) as [response|]; [|reflexivity].
  destruct (indexer response) as [at_|]; reflexivity.
Qed.

Lemma invite_is_not_create clock :
  EventSubmit (finalizeEvent (invite_template cfg clock) (key cfg))
  <> create_frame cfg.
Proof.
  unfold create_frame, signedEvent. intros H.
  apply (f_equal (fun f => match f with
                           | EventSubmit ev => kind (template ev)
                           | _ => 0%Z
                           end)) in H.
  discriminate H.
Qed.

Lemma tag_exclusive v a b :
  a <> b -> is_str v a = true -> is_str v b = false.
Proof.
  destruct v; cbn; try discriminate.
  intros Hab Ha. apply String.eqb_eq in Ha. subst.
  now apply String.eqb_neq.
Qed.

(** Every reaction either raises or is calm.  The create-group event is
    sent on an EOSE frame of the check received while [groupExists] is
    false, after the CLOSE, and on no other frame; once [groupExists] is
    true it stays true, and an EOSE frame of the check then gets the CLOSE,
    the error line and [ws.close()]. *)
Lemma create_reaction_shape clock data (v : vars) :
  let r := Loop.on_message P clock data v in
  let acts : list (action (Loop.timer P)) := snd r in
  (fields_of data = None /\ r = (v, [Do Throw]))
  \/ (calm acts = true
      /\ (groupExists v = true -> groupExists (fst r) = true)
      /\ (labelled data "EVENT" "check" = true -> groupExists (fst r) = true)
      /\ (if labelled data "EOSE" "check" then
            fst r = v /\
            if groupExists v then
              sends acts = [Close "check"] /\ closes acts = true
              /\ prints acts = [(Err, [VStr (exists_message cfg)])]
            else
              sends acts = [Close "check"; create_frame cfg]
              /\ closes acts = false
          else ~ In (create_frame cfg) (sends acts))).
Proof.
  cbn [Loop.on_message program]. rewrite create_reaction. unfold labelled.
  destruct (fields_of data) as [at_|]; [|now left]. right.
  destruct (is_str (at_ 0%nat) "AUTH") eqn:E1.
  { rewrite (tag_exclusive _ "AUTH" "EVENT"), (tag_exclusive _ "AUTH" "EOSE")
      by (assumption || discriminate).
    cbn. repeat split; auto; try discriminate.
    intros [H|[]]. discriminate. }
  destruct (is_str (at_ 0%nat) "EVENT" && is_str (at_ 1%nat) "check") eqn:E2.
  { apply andb_true_iff in E2. destruct E2 as [E2 _].
    rewrite (tag_exclusive _ "EVENT" "EOSE") by (assumption || discriminate).
    cbn. repeat split; auto. }
  destruct (is_str (at_ 0%nat) "EOSE" && is_str (at_ 1%nat) "check") eqn:E3.
  { cbn [fst snd]. destruct (groupExists v) eqn:G; cbn; repeat split; auto;
      discriminate. }
  split; [|split; [|split; [discriminate|]]].
  - destruct (is_str (at_ 0%nat) "OK"); [|reflexivity].
    destruct (is_str (at_ 1%nat) (id (signedEvent cfg))).
    + destruct (truthy (at_ 2%nat)); [|reflexivity].
      destruct (inviteCode cfg); [|reflexivity].
      destruct (isPrivate cfg && negb (s =? "")); reflexivity.
    + destruct (isPrivate cfg); [|reflexivity].
      destruct (truthy (at_ 2%nat)); reflexivity.
  - destruct (is_str (at_ 0%nat) "OK"); [|auto].
    destruct (is_str (at_ 1%nat) (id (signedEvent cfg))).
    + destruct (truthy (at_ 2%nat)); auto.
    + destruct (isPrivate cfg); auto.
  - destruct (is_str (at_ 0%nat) "OK"); [|cbn; tauto].
    destruct (is_str (at_ 1%nat) (id (signedEvent cfg))).
    + destruct (truthy (at_ 2%nat)); [|cbn; tauto].
      destruct (inviteCode cfg); [|cbn; tauto].
      destruct (isPrivate cfg && negb (s =? "")); [|cbn; tauto].
      cbn. intros [H|[]]. now apply invite_is_not_create in H.
    + destruct (isPrivate cfg); [|cbn; tauto].
      destruct (truthy (at_ 2%nat)); cbn; tauto.
Qed.

Lemma create_timer_effect due cb rest (w : world P) :
  running w = true ->
  let w' := fire_one P due cb rest w in
  timers w' = rest /\ prog w' = prog w /\
  match cb with
  | SendCheck =>
      match ws w with
      | Open => wire w' = (wire w ++ [check_frame cfg])%list
                /\ status w' = Running
      | Closing => wire w' = wire w /\ status w' = Running
      | Connecting => wire w' = wire w /\ status w' = Crashed
      end
      /\ ws w' = ws w
  | Deadline =>
      wire w' = wire w /\ status w' = Exited 1 /\ ws w' = Closing
      /\ console w' = (console w ++ [(Err, [VStr "Timeout"])])%list
  end.
Proof.
  intros R. destruct w as [pr r st n ts wi co].
  unfold running in R. cbn in R. destruct st; try discriminate.
  destruct cb, r; cbn; repeat split; reflexivity.
Qed.

(** What any signal does to the wire and to [groupExists]. *)
Lemma create_deliver_wire sig (w : world P) :
  running w = true ->
  let w' := deliver P sig w in
  (groupExists (prog w) = true -> groupExists (prog w') = true)
  /\ exists more,
       wire w' = (wire w ++ more)%list
       /\ match sig with
          | SigMessage data =>
              if labelled data "EOSE" "check" then
                if groupExists (prog w) then
                  ws w <> Connecting ->
                  more = match ws w with Open => [Close "check"] | _ => [] end
                  /\ ws w' = Closing /\ running w' = true
                  /\ console w' = (console w ++ [(Err, [VStr (exists_message cfg)])])%list
                else
                  more = match ws w with
                         | Open => [Close "check"; create_frame cfg]
                         | _ => []
                         end
              else
                ~ In (create_frame cfg) more
                /\ (labelled data "EVENT" "check" = true -> ws w <> Connecting ->
                    groupExists (prog w') = true)
          | _ => more = []
          end.
Proof.
  intros R. cbv zeta. destruct sig as [|data|msg|].
  - cbn [deliver]. destruct w as [pr r st n ts wi co].
    unfold running in R. cbn in R. destruct st; try discriminate.
    destruct r; cbn; (split; [auto | exists []; now rewrite app_nil_r]).
  - destruct (ws w) eqn:E.
    { cbn [deliver]. rewrite E. split; [auto|]. exists [].
      rewrite app_nil_r. split; [reflexivity|].
      destruct (labelled data "EOSE" "check").
      - destruct (groupExists (prog w)); [congruence | reflexivity].
      - split; [auto | congruence]. }
    all: rewrite deliver_message by congruence.
    all: pose proof (create_reaction_shape (epoch P + Z.of_N (now w)) data (prog w))
           as Hshape.
    all: remember (Loop.on_message P (epoch P + Z.of_N (now w)) data (prog w))
           as r eqn:Er.
    all: cbv zeta in Hshape; destruct Hshape as [[Hf Ht]|(Hc & Hg & Hev & Hs)].
    all: try (subst r; rewrite Ht, handle_throw by assumption; cbn;
              split; [auto|]; exists []; rewrite app_nil_r; split; [reflexivity|];
              unfold labelled; rewrite Hf; split; [auto | discriminate]).
    all: destruct (handle_calm P r w Hc R ltac:(congruence))
           as (Hrun & Hp & _ & Hw & Hco & Hws & _).
    all: rewrite E in Hw, Hws; rewrite Hp.
    all: split; [exact Hg|].
    all: eexists; split; [exact Hw|].
    all: destruct (labelled data "EOSE" "check");
      [destruct Hs as [Hv Hs]; destruct (groupExists (prog w));
       [destruct Hs as (Hs1 & Hs2 & Hs3); intros _;
        rewrite Hws, Hs2, Hco, Hs3, ?Hs1; auto
       |destruct Hs as [Hs1 Hs2]; rewrite ?Hs1; reflexivity]
      |split; [auto | intros H _; auto]].
  - destruct w as [pr r st n ts wi co].
    unfold running in R. cbn in *. destruct st; try discriminate.
    split; [auto | exists []; now rewrite app_nil_r].
  - destruct w as [pr r st n ts wi co].
    unfold running in R. cbn in *. destruct st; try discriminate.
    split; [auto | exists []; now rewrite app_nil_r].
Qed.

Lemma check_frame_is_not_create : check_frame cfg <> create_frame cfg.
Proof. discriminate. Qed.

Lemma check_first_app l more :
  check_first cfg l ->
  ~ In (create_frame cfg) more \/ In (check_frame cfg) l ->
  check_first cfg (l ++ more).
Proof.
  intros H Hm l1 l2 E. apply app_eq_app in E.
  destruct E as (m & [[E1 E2]|[E1 E2]]).
  - (* the event lies in [l] *)
    destruct m as [|x m].
    + rewrite app_nil_r in E1. subst l1. cbn in E2.
      destruct Hm as [Hm|Hm]; [|exact Hm].
      exfalso. apply Hm. rewrite <- E2. now left.
    + cbn in E2. injection E2 as <- E2. apply (H l1 m). exact E1.
  - (* the event lies in [more] *)
    subst l1. destruct Hm as [Hm|Hm].
    + exfalso. apply Hm. rewrite E2. apply in_or_app. right. now left.
    + apply in_or_app. now left.
Qed.

(** Once a group-metadata event of the check has been seen, the create-group
    event is never sent. *)
Lemma exists_is_final (w : world P) tr :
  groupExists (prog w) = true ->
  groupExists (prog (run P w tr)) = true
  /\ exists more,
       wire (run P w tr) = (wire w ++ more)%list
       /\ ~ In (create_frame cfg) more.
Proof.
  intros G.
  apply (run_keeps P (fun w' =>
           groupExists (prog w') = true
           /\ exists more, wire w' = (wire w ++ more)%list
                           /\ ~ In (create_frame cfg) more)).
  - intros due cb rest w' [G' (more & E & Hn)] R.
    destruct (create_timer_effect due cb rest w' R) as (_ & Hp & He).
    rewrite Hp. split; [exact G'|].
    destruct cb.
    + destruct He as [He _]. destruct (ws w'); destruct He as [Hw _]; rewrite Hw.
      * now exists more.
      * exists (more ++ [check_frame cfg])%list. rewrite E, app_assoc.
        split; [reflexivity|]. intros H. apply in_app_or in H.
        destruct H as [H|[H|[]]]; [contradiction | discriminate].
      * now exists more.
    + destruct He as (Hw & _). rewrite Hw. now exists more.
  - intros t w' H. exact H.
  - intros sig w' [G' (more & E & Hn)] R.
    destruct (create_deliver_wire sig w' R) as (Hg & extra & Hw & Hx).
    split; [auto|]. exists (more ++ extra)%list. rewrite Hw, E, app_assoc.
    split; [reflexivity|]. intros H. apply in_app_or in H.
    destruct H as [H|H]; [contradiction|].
    destruct sig as [|data| |]; try (subst extra; contradiction).
    rewrite G' in Hx. destruct (labelled data "EOSE" "check").
    + destruct (ws w') eqn:E'.
      * (* not delivered: the wire has not changed *)
        cbn [deliver] in Hw. rewrite E' in Hw.
        apply (f_equal (@List.length frame)) in Hw.
        rewrite length_app in Hw.
        destruct extra; [contradiction | cbn in Hw; lia].
      * destruct Hx as [-> _]; [congruence|].
        destruct H as [H|[]]. discriminate.
      * destruct Hx as [-> _]; [congruence|]. contradiction.
    + now destruct Hx.
  - split; [exact G|]. exists []. now rewrite app_nil_r.
Qed.

(** Before an EOSE frame of the check has arrived, the create-group event
    has not been sent. *)
Lemma no_create_before_check_end tr : forall w : world P,
  all_signals no_check_end tr = true ->
  ~ In (create_frame cfg) (wire w) ->
  ~ In (create_frame cfg) (wire (run P w tr)).
Proof.
  induction tr as [|[dt sig] tr IH]; intros w Ha Hw; [exact Hw|].
  cbn [all_signals forallb snd] in Ha. apply andb_true_iff in Ha.
  destruct Ha as [Ha1 Ha2].
  apply IH; [exact Ha2|].
  apply (step_keeps P (fun w' => ~ In (create_frame cfg) (wire w'))); auto.
  - intros due cb rest w' H R.
    destruct (create_timer_effect due cb rest w' R) as (_ & _ & He).
    destruct cb.
    + destruct He as [He _]. destruct (ws w'); destruct He as [E _]; rewrite E; auto.
      intros C. apply in_app_or in C. destruct C as [C|[C|[]]];
        [contradiction | discriminate].
    + destruct He as (E & _). now rewrite E.
  - intros w' H R.
    destruct (create_deliver_wire sig w' R) as (_ & extra & E & Hx).
    rewrite E. intros C. apply in_app_or in C. destruct C as [C|C]; [contradiction|].
    destruct sig as [|data| |]; try (subst extra; contradiction).
    cbn [no_check_end] in Ha1. apply negb_true_iff in Ha1. rewrite Ha1 in Hx.
    now destruct Hx.
Qed.

(** The deadline: no run of create-group is alive 15 seconds after its
    start. *)
Lemma create_deadline tr :
  running (run P (boot P) tr) = true -> (now (run P (boot P) tr) < 15000)%N.
Proof.
  intros R.
  assert (H : (now (run P (boot P) tr) < 15000)%N \/ False).
  { apply (deadline_bounds P 15000 Deadline (fun _ => False)); auto.
    - intros w Rw. destruct w as [pr r st n ts wi co].
      unfold running in *. cbn in *. destruct st; discriminate.
    - reflexivity. }
  now destruct H.
Qed.

End Create.

End CreateFacts.

(** ** list-groups.js: runs *)

Module ListFacts.
Import ListGroups LoopFacts.

Section Listing.
Variable cfg : config.
Abbreviation P := (program cfg).

(** A frame that is read and bears none of the four tags gets no reaction. *)
Lemma list_ignores clock data at_ (v : vars) :
  fields_of data = Some at_ ->
  is_str (at_ 0%nat) "AUTH" = false -> is_str (at_ 0%nat) "EVENT" = false ->
  is_str (at_ 0%nat) "EOSE" = false -> is_str (at_ 0%nat) "OK" = false ->
  on_message cfg clock data v = (v, []).
Proof.
  unfold on_message, fields_of.
  destruct (JSON_parse data) as [response|]; [|discriminate].
  intros H1 H2 H3 H4 H5. rewrite H1, H2, H3, H4, H5. reflexivity.
Qed.

Lemma list_raises clock data (v : vars) :
  fields_of data = None -> on_message cfg clock data v = (v, [Do Throw]).
Proof.
  unfold on_message, fields_of.
  destruct (JSON_parse data) as [response|]; [|reflexivity].
  intros H. now rewrite H.
Qed.

(** The 5000 ms timer: it closes the socket, reports no failure and leaves
    the process running. *)
Lemma list_deadline_effect due rest (w : world P) :
  running w = true ->
  let w' := fire_one P due Deadline rest w in
  status w' = Running /\ ws w' = Closing /\ wire w' = wire w
  /\ console w'
     = (console w ++ match groups (prog w) with
                     | [] => [(Out, [VStr "No groups found (or timeout reached)."])]
                     | _ => []
                     end)%list.
Proof.
  intros R. destruct w as [pr r st n ts wi co].
  unfold running in R. cbn in R. destruct st; try discriminate.
  cbn. destruct (groups pr); cbn; rewrite ?app_nil_r; auto.
Qed.

(** A run of list-groups that is still alive has not reached 5000 ms, or
    has called [ws.close()]. *)
Lemma list_deadline tr :
  running (run P (boot P) tr) = true ->
  (now (run P (boot P) tr) < 5000)%N \/ ws (run P (boot P) tr) = Closing.
Proof.
  intros R.
  apply (deadline_bounds P 5000 Deadline (fun w => ws w = Closing)); auto.
  - intros e w H. destruct e; cbn; auto. now rewrite H.
  - intros w H1 H2. congruence.
  - intros w Rw. cbv zeta. intros _. cbn [on_timer Loop.on_timer program].
    destruct w as [pr r st n ts wi co].
    unfold running in Rw. cbn in Rw. destruct st; try discriminate.
    cbn. destruct (groups pr); reflexivity.
  - reflexivity.
Qed.

End Listing.

End ListFacts.

(** ** The properties of the relay session *)

Module Session.
Import LoopFacts.

Lemma fields_of_array data items :
  JSON_parse data = Some (VArr items) ->
  fields_of data = Some (fun i => nth i items VUndef).
Proof. intros H. unfold fields_of. now rewrite H. Qed.

(** C1.  On an AUTH frame that carries a challenge string, delete-group and
    create-group send exactly one frame, an AuthSubmit whose event has kind
    22242 and the two tags [relay] (the address dialed) and [challenge] (the
    string received), in that order; no timer callback sends an AuthSubmit.
    list-groups does the same on the first challenge when it has a key. *)
Theorem auth_reply_binds_challenge
    (dcfg : DeleteGroup.config) (ccfg : CreateGroup.config)
    (data challenge : string) (more : list value) :
  JSON_parse data = Some (VArr (VStr "AUTH" :: VStr challenge :: more)) ->
  (forall w : world (DeleteGroup.program dcfg),
      running w = true -> ws w = Open ->
      exists ev,
        wire (deliver _ (SigMessage data) w) = (wire w ++ [AuthSubmit ev])%list
        /\ kind (template ev) = 22242%Z
        /\ tags (template ev)
           = [[VStr "relay"; VStr (DeleteGroup.relayUrl dcfg)];
              [VStr "challenge"; VStr challenge]])
  /\ (forall w : world (CreateGroup.program ccfg),
      running w = true -> ws w = Open ->
      exists ev,
        wire (deliver _ (SigMessage data) w) = (wire w ++ [AuthSubmit ev])%list
        /\ kind (template ev) = 22242%Z
        /\ tags (template ev)
           = [[VStr "relay"; VStr (CreateGroup.relayUrl ccfg)];
              [VStr "challenge"; VStr challenge]])
  /\ (forall t ev, ~ In (Send (AuthSubmit ev)) (DeleteGroup.on_timer dcfg t tt))
  /\ (forall t v ev, ~ In (Send (AuthSubmit ev)) (CreateGroup.on_timer ccfg t v))
  /\ (forall (lcfg : ListGroups.config) privateKeyBytes
             (w : world (ListGroups.program lcfg)),
        ListGroups.key lcfg = Some privateKeyBytes ->
        ListGroups.authenticated (prog w) = false ->
        running w = true -> ws w = Open ->
        exists ev,
          wire (deliver _ (SigMessage data) w) = (wire w ++ [AuthSubmit ev])%list
          /\ kind (template ev) = 22242%Z
          /\ tags (template ev)
             = [[VStr "relay"; VStr (ListGroups.relayUrl lcfg)];
                [VStr "challenge"; VStr challenge]]).
Proof.
  intros Hparse. pose proof (fields_of_array _ _ Hparse) as Hp.
  split; [|split; [|split; [|split]]].
  - intros w R Ho. rewrite deliver_message by congruence.
    destruct w as [[] r st n ts wi co]. cbn in Ho. subst r.
    unfold running in R. cbn in R. destruct st; try discriminate.
    cbn [Loop.on_message DeleteGroup.program prog].
    rewrite DeleteFacts.delete_reaction, Hp. cbn [nth].
    change (is_str (VStr "AUTH") "AUTH") with true. cbv iota.
    eexists. split; [reflexivity | split; reflexivity].
  - intros w R Ho. rewrite deliver_message by congruence.
    cbn [Loop.on_message CreateGroup.program].
    rewrite CreateFacts.create_reaction, Hp. cbn [nth].
    change (is_str (VStr "AUTH") "AUTH") with true. cbv iota.
    destruct w as [pr r st n ts wi co]. cbn in Ho. subst r.
    unfold running in R. cbn in R. destruct st; try discriminate.
    eexists. split; [reflexivity | split; reflexivity].
  - intros [] ev; cbn; intuition discriminate.
  - intros [] v ev; cbn; intuition discriminate.
  - intros lcfg k w Hk Ha R Ho. rewrite deliver_message by congruence.
    cbn [Loop.on_message ListGroups.program].
    unfold ListGroups.on_message. rewrite Hparse. cbn [indexer nth].
    change (is_str (VStr "AUTH") "AUTH") with true. rewrite Ha, Hk. cbn [andb negb].
    destruct w as [pr r st n ts wi co]. cbn in Ho. subst r.
    unfold running in R. cbn in R. destruct st; try discriminate.
    eexists. split; [reflexivity | split; reflexivity].
Qed.

Lemma auth_reply_witness :
  exists ev,
    wire (run (DeleteGroup.program Demo.demo_delete)
              (boot (DeleteGroup.program Demo.demo_delete))
              [(0%N, SigOpen); (10%N, SigMessage (Demo.auth_frame "nonce123"))])
    = [AuthSubmit ev]
    /\ tags (template ev)
       = [[VStr "relay"; VStr Demo.demo_url]; [VStr "challenge"; VStr "nonce123"]].
Proof.
  destruct (auth_reply_binds_challenge Demo.demo_delete (Demo.demo_create false)
              (Demo.auth_frame "nonce123") "nonce123" [] eq_refl)
    as (H & _).
  destruct (H (run (DeleteGroup.program Demo.demo_delete)
                   (boot (DeleteGroup.program Demo.demo_delete))
                   [(0%N, SigOpen)]) eq_refl eq_refl) as (ev & H1 & _ & H2).
  exists ev. split; [exact H1 | exact H2].
Defined.

(** C3.  When delete-group receives the OK frame of its delete event with
    a false [accepted], it prints the failure with the relay's message as it
    came and calls [ws.close()]; from then on the socket stays closing and
    nothing more is transmitted. *)
Theorem delete_rejection_surfaces
    (cfg : DeleteGroup.config) (data : string)
    (accepted message : value) (more : list value)
    (w : world (DeleteGroup.program cfg)) :
  JSON_parse data
  = Some (VArr (VStr "OK" :: VStr (id (DeleteGroup.signedEvent cfg))
                :: accepted :: message :: more)) ->
  truthy accepted = false ->
  running w = true -> ws w <> Connecting ->
  let w' := deliver _ (SigMessage data) w in
  console w' = (console w ++ [(Err, [VStr "❌ Failed to delete group:"; message])])%list
  /\ ws w' = Closing
  /\ wire w' = wire w
  /\ (forall tr, ws (run _ w' tr) = Closing /\ wire (run _ w' tr) = wire w').
Proof.
  intros Hp Ha R Hw w'.
  assert (H : console w' = (console w ++ [(Err, [VStr "❌ Failed to delete group:"; message])])%list
              /\ ws w' = Closing /\ wire w' = wire w).
  { subst w'. rewrite deliver_message by assumption.
    apply fields_of_array in Hp.
    destruct w as [[] r st n ts wi co].
    unfold running in R. cbn in R. destruct st; try discriminate.
    cbn [Loop.on_message DeleteGroup.program prog].
    rewrite DeleteFacts.delete_reaction, Hp. cbn [nth].
    change (is_str (VStr "OK") "AUTH") with false.
    change (is_str (VStr "OK") "OK") with true.
    cbn [is_str]. rewrite String.eqb_refl, Ha. cbn.
    repeat split. }
  destruct H as (H1 & H2 & H3). repeat split; auto;
    now apply closing_is_final.
Qed.

Lemma delete_rejection_witness :
  let w := run (DeleteGroup.program Demo.demo_delete)
               (boot (DeleteGroup.program Demo.demo_delete))
               [(0%N, SigOpen); (10%N, SigMessage (Demo.auth_frame "nonce123"));
                (600%N, SigMessage (Demo.ok_frame "d08" false "group not found"))] in
  console w
  = [(Out, [VStr "Connected to relay"]); (Out, [VStr "Authenticating..."]);
     (Out, [VStr "Sending delete group event..."]);
     (Err, [VStr "❌ Failed to delete group:"; VStr "group not found"])]
  /\ ws w = Closing.
Proof.
  destruct (delete_rejection_surfaces Demo.demo_delete
              (Demo.ok_frame "d08" false "group not found")
              (VBool false) (VStr "group not found") []
              (advance _ 610
                 (run (DeleteGroup.program Demo.demo_delete)
                      (boot (DeleteGroup.program Demo.demo_delete))
                      [(0%N, SigOpen); (10%N, SigMessage (Demo.auth_frame "nonce123"))]))
              ltac:(vm_compute; reflexivity) eq_refl
              ltac:(vm_compute; reflexivity) ltac:(vm_compute; discriminate))
    as (H1 & H2 & _).
  vm_compute in H1, H2. vm_compute. split; [exact H1 | exact H2].
Defined.

(** C4, as the code has it.  A frame that parses to something other than
    [null] and whose first element is none of the tags a script handles is
    ignored: the process is left exactly as it was.  A frame that does not
    parse, or parses to [null], is not dropped: the exception leaves the
    message handler and ends the process. *)
Theorem unknown_frames_are_ignored
    (dcfg : DeleteGroup.config) (ccfg : CreateGroup.config)
    (lcfg : ListGroups.config) (data : string) (at_ : nat -> value) :
  fields_of data = Some at_ ->
  is_str (at_ 0%nat) "AUTH" = false -> is_str (at_ 0%nat) "EVENT" = false ->
  is_str (at_ 0%nat) "EOSE" = false -> is_str (at_ 0%nat) "OK" = false ->
  (forall w : world (DeleteGroup.program dcfg),
      deliver _ (SigMessage data) w = w)
  /\ (forall w : world (CreateGroup.program ccfg),
      deliver _ (SigMessage data) w = w)
  /\ (forall w : world (ListGroups.program lcfg),
      deliver _ (SigMessage data) w = w)
  /\ (forall (bad : string) (w : world (DeleteGroup.program dcfg)),
      fields_of bad = None -> running w = true -> ws w <> Connecting ->
      status (deliver _ (SigMessage bad) w) = Crashed)
  /\ (forall (bad : string) (w : world (CreateGroup.program ccfg)),
      fields_of bad = None -> running w = true -> ws w <> Connecting ->
      status (deliver _ (SigMessage bad) w) = Crashed)
  /\ (forall (bad : string) (w : world (ListGroups.program lcfg)),
      fields_of bad = None -> running w = true -> ws w <> Connecting ->
      status (deliver _ (SigMessage bad) w) = Crashed).
Proof.
  intros Hf H1 H2 H3 H4.
  split; [|split; [|split; [|split; [|split]]]].
  - intros [[] r st n ts wi co]. cbn [deliver ws].
    destruct r; try reflexivity; unfold handle;
      cbn [Loop.on_message DeleteGroup.program prog];
      rewrite DeleteFacts.delete_reaction, Hf, H1, H4; reflexivity.
  - intros [pr r st n ts wi co]. cbn [deliver ws].
    destruct r; try reflexivity; unfold handle;
      cbn [Loop.on_message CreateGroup.program prog];
      rewrite CreateFacts.create_reaction, Hf, H1, H2, H3, H4; reflexivity.
  - intros [pr r st n ts wi co]. cbn [deliver ws].
    destruct r; try reflexivity; unfold handle;
      cbn [Loop.on_message ListGroups.program prog];
      rewrite (ListFacts.list_ignores lcfg _ data at_) by assumption; reflexivity.
  - intros bad [[] r st n ts wi co] Hb R Hw.
    unfold running in R. cbn in R, Hw. destruct st; try discriminate.
    cbn [deliver ws]. destruct r; try contradiction; unfold handle;
      cbn [Loop.on_message DeleteGroup.program prog];
      rewrite DeleteFacts.delete_reaction, Hb; reflexivity.
  - intros bad [pr r st n ts wi co] Hb R Hw.
    unfold running in R. cbn in R, Hw. destruct st; try discriminate.
    cbn [deliver ws]. destruct r; try contradiction; unfold handle;
      cbn [Loop.on_message CreateGroup.program prog];
      rewrite CreateFacts.create_reaction, Hb; reflexivity.
  - intros bad [pr r st n ts wi co] Hb R Hw.
    unfold running in R. cbn in R, Hw. destruct st; try discriminate.
    cbn [deliver ws]. destruct r; try contradiction; unfold handle;
      cbn [Loop.on_message ListGroups.program prog];
      rewrite ListFacts.list_raises by assumption; reflexivity.
Qed.

Lemma unknown_frame_witness :
  let w := advance (DeleteGroup.program Demo.demo_delete) 5
             (run (DeleteGroup.program Demo.demo_delete)
                  (boot (DeleteGroup.program Demo.demo_delete)) [(0%N, SigOpen)]) in
  deliver _ (SigMessage (Demo.frame2 "NOTICE" "restricted")) w = w.
Proof.
  exact (proj1 (unknown_frames_are_ignored Demo.demo_delete (Demo.demo_create false)
                  (Demo.demo_list None) (Demo.frame2 "NOTICE" "restricted")
                  (fun i => nth i [VStr "NOTICE"; VStr "restricted"] VUndef)
                  eq_refl eq_refl eq_refl eq_refl eq_refl) _).
Defined.

(** C4, as the specification has it, fails: a frame that is no JSON text,
    and the frame [null], end the process with an uncaught exception. *)
Lemma malformed_frame_ends_the_process :
  status (run (DeleteGroup.program Demo.demo_delete)
              (boot (DeleteGroup.program Demo.demo_delete))
              [(0%N, SigOpen); (5%N, SigMessage "not json")]) = Crashed
  /\ status (run (CreateGroup.program (Demo.demo_create false))
                 (boot (CreateGroup.program (Demo.demo_create false)))
                 [(0%N, SigOpen); (5%N, SigMessage "[")]) = Crashed
  /\ status (run (ListGroups.program (Demo.demo_list None))
                 (boot (ListGroups.program (Demo.demo_list None)))
                 [(0%N, SigOpen); (5%N, SigMessage "null")]) = Crashed.
Proof. vm_compute. repeat split. Qed.

(** C10, as the specification has it, fails in its last part: with no
    AUTH frame at all, a close signal of the transport ends the run through
    the close handler, with status 0 and no [Timeout], and an error signal
    through the error handler. *)
Lemma delete_ends_on_close :
  let P := DeleteGroup.program Demo.demo_delete in
  let closed := run P (boot P) [(0%N, SigOpen); (100%N, SigClose)] in
  let failed := run P (boot P) [(50%N, SigError "ECONNREFUSED")] in
  status closed = Exited 0
  /\ wire closed = []
  /\ console closed = [(Out, [VStr "Connected to relay"])]
  /\ status failed = Exited 1
  /\ console failed = [(Err, [VStr "WebSocket error:"; VStr "ECONNREFUSED"])].
Proof. vm_compute. repeat split. Qed.

(** C10, as the code has it.  In every run of delete-group a delete event
    on the wire comes after an authentication reply, which is the first
    frame sent; the message handler never sends the event itself and arms
    the timer that does only on an AUTH frame.  A run without AUTH frame
    sends nothing; and when, besides, the transport stays up and every
    frame is readable, the run ends at the deadline: [Timeout],
    [ws.close()], exit status 1. *)
Theorem delete_only_after_auth (cfg : DeleteGroup.config) :
  let P := DeleteGroup.program cfg in
  (forall tr l1 ev l2,
      wire (run P (boot P) tr) = (l1 ++ EventSubmit ev :: l2)%list ->
      exists reply before, l1 = AuthSubmit reply :: before)
  /\ (forall clock data,
        let acts : list (action (timer P)) :=
          snd (DeleteGroup.on_message cfg clock data tt) in
        (forall ev, ~ In (EventSubmit ev) (sends acts))
        /\ (arms acts <> [] -> tagged data "AUTH" = true))
  /\ (forall tr,
        all_signals DeleteSpec.no_challenge tr = true ->
        wire (run P (boot P) tr) = [])
  /\ (forall tr,
        all_signals DeleteSpec.unchallenged tr = true ->
        (15000 <= duration tr)%N ->
        let w := run P (boot P) tr in
        status w = Exited 1 /\ ws w = Closing /\ wire w = []
        /\ exists before, console w = (before ++ [(Err, [VStr "Timeout"])])%list).
Proof.
  cbv zeta. split; [|split; [|split]].
  - intros tr l1 ev l2 E.
    destruct (DeleteFacts.auth_first_run cfg tr) as [_ H].
    destruct l1 as [|f before].
    + destruct (H _ _ E) as [a Ha]. discriminate.
    + destruct (H f (before ++ EventSubmit ev :: l2)%list E) as [a ->]. eauto.
  - intros clock data.
    match goal with |- context [sends ?a] => set (acts := a) end.
    destruct (DeleteFacts.delete_reaction_shape cfg clock data tt)
      as [[_ Ht]|[_ [(Ha & _ & _ & ev & Hs)|(_ & Hs & Ha)]]].
    + change (acts = [Do Throw]) in Ht. rewrite Ht. cbn.
      split; [tauto | congruence].
    + change (@sends (DeleteGroup.program cfg) acts = [AuthSubmit ev]) in Hs.
      rewrite Hs.
      split; [|auto]. intros ev' [C|[]]. discriminate.
    + change (@sends (DeleteGroup.program cfg) acts = []) in Hs.
      change (@arms (DeleteGroup.program cfg) acts = []) in Ha.
      rewrite Hs, Ha. split; [tauto | congruence].
  - intros tr Ha. now destruct (DeleteFacts.silent_run cfg tr Ha).
  - intros tr Ha Hd.
    destruct (DeleteFacts.idle_run cfg tr Ha) as [[Hw _] Hs].
    destruct Hs as [Hs|(H1 & H2 & H3)]; [|auto].
    exfalso.
    assert (R : running (run _ (boot (DeleteGroup.program cfg)) tr) = true)
      by (unfold running; now rewrite Hs).
    pose proof (DeleteFacts.delete_deadline cfg tr R) as Hlt.
    pose proof (run_clock _ tr _ R) as Hge.
    cbn [now boot] in Hge. lia.
Qed.

(** The steps of the existence check.  A group-metadata event of the
    check that arrives on the open connection before any EOSE frame of the
    check keeps the create-group event off the wire for the rest of the
    run; the EOSE frame then gets the CLOSE of the check, the error line
    and [ws.close()], and nothing is transmitted afterwards. *)
Lemma check_steps (cfg : CreateGroup.config) :
  let P := CreateGroup.program cfg in
  CreateSpec.check_frame cfg
  = Req "check" {| kinds := [39000%Z];
                   d_tag := Some [CreateGroup.generateGroupId
                                    (CreateGroup.name cfg) (CreateGroup.started cfg)] |}
  /\ (forall pre dt data post,
        all_signals CreateSpec.no_check_end pre = true ->
        labelled data "EVENT" "check" = true ->
        ws (run P (boot P) pre) <> Connecting ->
        ~ In (CreateSpec.create_frame cfg)
             (wire (run P (boot P) (pre ++ (dt, SigMessage data) :: post))))
  /\ (forall (w : world P) data,
        ws w <> Connecting -> labelled data "EVENT" "check" = true ->
        let w' := deliver P (SigMessage data) w in
        CreateGroup.groupExists (prog w') = true /\ wire w' = wire w)
  /\ (forall (w : world P) tr,
        CreateGroup.groupExists (prog w) = true ->
        CreateGroup.groupExists (prog (run P w tr)) = true)
  /\ (forall (w : world P) data,
        running w = true -> ws w <> Connecting ->
        CreateGroup.groupExists (prog w) = true ->
        labelled data "EOSE" "check" = true ->
        let w' := deliver P (SigMessage data) w in
        wire w' = (wire w ++ match ws w with Open => [Close "check"] | _ => [] end)%list
        /\ console w'
           = (console w ++ [(Err, [VStr (CreateGroup.exists_message cfg)])])%list
        /\ ws w' = Closing
        /\ (forall tr, wire (run P w' tr) = wire w')).
Proof.
  intros P. subst P. split; [reflexivity|]. split; [|split; [|split]].
  - intros pre dt data post Ha Hl Hc.
    rewrite run_app. set (w0 := run (CreateGroup.program cfg) (boot (CreateGroup.program cfg)) pre) in *.
    assert (H0 : ~ In (CreateSpec.create_frame cfg) (wire w0)).
    { apply CreateFacts.no_create_before_check_end; [exact Ha | intros []]. }
    change (run (CreateGroup.program cfg) w0 ((dt, SigMessage data) :: post))
      with (run (CreateGroup.program cfg) (step (CreateGroup.program cfg) w0 (dt, SigMessage data)) post).
    unfold step. destruct (running w0) eqn:R0;
      [|rewrite run_stopped by assumption; exact H0].
    cbn [fst snd].
    assert (H1 : ~ In (CreateSpec.create_frame cfg)
                      (wire (advance (CreateGroup.program cfg) (now w0 + dt) w0))).
    { apply (CreateFacts.no_create_before_check_end cfg [(dt, SigOpen)] w0 eq_refl)
        in H0.
      cbn [run fold_left] in H0. unfold step in H0. rewrite R0 in H0.
      cbn [fst snd] in H0.
      destruct (running (advance (CreateGroup.program cfg) (now w0 + dt) w0)) eqn:R1; [|exact H0].
      destruct (CreateFacts.create_deliver_wire cfg SigOpen _ R1)
        as (_ & more & E & ->).
      rewrite E, app_nil_r in H0. exact H0. }
    pose proof (advance_connected (CreateGroup.program cfg) w0 (now w0 + dt) Hc) as Hc1.
    set (w1 := advance (CreateGroup.program cfg) (now w0 + dt) w0) in *.
    destruct (running w1) eqn:R1; [|rewrite run_stopped by assumption; exact H1].
    destruct (CreateFacts.create_deliver_wire cfg (SigMessage data) w1 R1)
      as (_ & more & E & Hx).
    assert (Hl' : labelled data "EOSE" "check" = false).
    { unfold labelled in *. destruct (fields_of data) as [at_|]; [|reflexivity].
      apply andb_true_iff in Hl. destruct Hl as [Hl _].
      now rewrite (CreateFacts.tag_exclusive _ "EVENT" "EOSE"). }
    rewrite Hl' in Hx. destruct Hx as [Hn Hg].
    destruct (CreateFacts.exists_is_final cfg (deliver (CreateGroup.program cfg) (SigMessage data) w1) post
                (Hg Hl Hc1)) as (_ & extra & E2 & Hn2).
    rewrite E2, E. intros C. apply in_app_or in C. destruct C as [C|C]; [|contradiction].
    apply in_app_or in C. destruct C as [C|C]; contradiction.
  - intros w data Hc Hl. rewrite deliver_message by assumption.
    cbn [Loop.on_message CreateGroup.program].
    rewrite CreateFacts.create_reaction. unfold labelled in Hl.
    destruct (fields_of data) as [at_|]; [|discriminate].
    rewrite Hl. apply andb_true_iff in Hl. destruct Hl as [Hl _].
    rewrite (CreateFacts.tag_exclusive _ "EVENT" "AUTH") by (assumption || discriminate).
    now destruct w.
  - intros w tr G. now destruct (CreateFacts.exists_is_final cfg w tr G).
  - intros w data R Hc G Hl w'.
    destruct (CreateFacts.create_deliver_wire cfg (SigMessage data) w R)
      as (_ & more & E & Hx).
    rewrite Hl, G in Hx. destruct (Hx Hc) as (-> & Hws & _ & Hco).
    fold w' in E, Hws, Hco. repeat split; auto.
    intros tr. now apply closing_is_final.
Qed.

(** C7, as the specification has it, fails: when the deadline passes
    before the EOSE frame, the REQ of the check is on the wire and no CLOSE
    follows it; the process has ended with status 1. *)
Lemma check_left_open_at_deadline :
  let P := CreateGroup.program (Demo.demo_create false) in
  let w := run P (boot P)
             [(0%N, SigOpen); (10%N, SigMessage (Demo.auth_frame "nonce123"));
              (20000%N, SigClose)] in
  status w = Exited 1
  /\ ws w = Closing
  /\ wire w
     = [AuthSubmit
          (finalizeEvent
             (auth_template Demo.demo_url (VStr "nonce123") 1700000000010)
             Demo.demo_key);
        Req "check" {| kinds := [39000%Z]; d_tag := Some ["teamchat"] |}].
Proof. vm_compute. repeat split. Qed.

(** C7, as the code has it.  On the EOSE frame of the check create-group
    sends the CLOSE of the check first, whether the group was found or not.
    The deadline and a transport error send nothing: the process ends with
    status 1 and the frames already sent stay as they are. *)
Theorem check_closed_on_eose (cfg : CreateGroup.config) :
  let P := CreateGroup.program cfg in
  (forall (w : world P) data,
      running w = true -> ws w = Open ->
      labelled data "EOSE" "check" = true ->
      wire (deliver P (SigMessage data) w)
      = (wire w ++ Close "check"
           :: if CreateGroup.groupExists (prog w) then []
              else [CreateSpec.create_frame cfg])%list)
  /\ (forall (w : world P) due rest,
        running w = true ->
        let w' := fire_one P due CreateGroup.Deadline rest w in
        wire w' = wire w /\ status w' = Exited 1 /\ ws w' = Closing)
  /\ (forall (w : world P) message,
        running w = true ->
        let w' := deliver P (SigError message) w in
        wire w' = wire w /\ status w' = Exited 1 /\ ws w' = ws w).
Proof.
  cbv zeta. split; [|split].
  - intros w data R Ho Hl.
    destruct (CreateFacts.create_deliver_wire cfg (SigMessage data) w R)
      as (_ & more & E & Hx).
    rewrite E, Hl, Ho in *.
    destruct (CreateGroup.groupExists (prog w)).
    + now destruct Hx as [-> _].
    + now subst more.
  - intros w due rest R.
    destruct (CreateFacts.create_timer_effect cfg due CreateGroup.Deadline rest w R)
      as (_ & _ & H1 & H2 & H3 & _). auto.
  - intros w message R. destruct w as [pr r st n ts wi co].
    unfold running in R. cbn in R. destruct st; try discriminate.
    cbn. auto.
Qed.

(** C8, as the specification has it, fails for list-groups: its deadline
    reports no failure and does not end the process, which is still running
    past the deadline until the close signal comes and then ends with
    status 0. *)
Lemma list_deadline_is_no_failure :
  let P := ListGroups.program (Demo.demo_list None) in
  let after := run P (boot P) [(0%N, SigOpen); (5100%N, SigMessage "[]")] in
  let closed := run P (boot P) [(0%N, SigOpen); (5200%N, SigClose)] in
  status after = Running
  /\ ws after = Closing
  /\ now after = 5100%N
  /\ status closed = Exited 0
  /\ console closed = [(Out, [VStr "No groups found (or timeout reached)."])].
Proof. vm_compute. repeat split. Qed.

(** C8, as the code has it.  No run of delete-group or of create-group is
    alive 15000 ms after its start, and their deadline callback prints
    [Timeout], calls [ws.close()] and exits with status 1.  A run of
    list-groups that is alive 5000 ms after its start has called
    [ws.close()]: its deadline callback closes the socket, prints no error
    and leaves the process running, and the close signal then ends it with
    status 0. *)
Theorem deadlines (dcfg : DeleteGroup.config) (ccfg : CreateGroup.config)
    (lcfg : ListGroups.config) :
  let D := DeleteGroup.program dcfg in
  let C := CreateGroup.program ccfg in
  let L := ListGroups.program lcfg in
  (forall tr, running (run D (boot D) tr) = true -> (now (run D (boot D) tr) < 15000)%N)
  /\ (forall tr, running (run C (boot C) tr) = true -> (now (run C (boot C) tr) < 15000)%N)
  /\ (forall (w : world D) due rest,
        running w = true ->
        let w' := fire_one D due DeleteGroup.Deadline rest w in
        status w' = Exited 1 /\ ws w' = Closing
        /\ console w' = (console w ++ [(Err, [VStr "Timeout"])])%list)
  /\ (forall (w : world C) due rest,
        running w = true ->
        let w' := fire_one C due CreateGroup.Deadline rest w in
        status w' = Exited 1 /\ ws w' = Closing
        /\ console w' = (console w ++ [(Err, [VStr "Timeout"])])%list)
  /\ (forall tr,
        running (run L (boot L) tr) = true ->
        (now (run L (boot L) tr) < 5000)%N \/ ws (run L (boot L) tr) = Closing)
  /\ (forall (w : world L) due rest,
        running w = true ->
        let w' := fire_one L due ListGroups.Deadline rest w in
        status w' = Running /\ ws w' = Closing /\ wire w' = wire w
        /\ console w'
           = (console w
              ++ match ListGroups.groups (prog w) with
                 | [] => [(Out, [VStr "No groups found (or timeout reached)."])]
                 | _ => []
                 end)%list)
  /\ (forall w : world L,
        running w = true -> status (deliver L SigClose w) = Exited 0).
Proof.
  cbv zeta. split; [|split; [|split; [|split; [|split; [|split]]]]].
  - apply DeleteFacts.delete_deadline.
  - apply CreateFacts.create_deadline.
  - intros w due rest H.
    destruct (DeleteFacts.delete_timer_effect dcfg due DeleteGroup.Deadline rest w H)
      as (_ & _ & E1 & E2 & E3). auto.
  - intros w due rest H.
    destruct (CreateFacts.create_timer_effect ccfg due CreateGroup.Deadline rest w H)
      as (_ & _ & _ & E1 & E2 & E3). auto.
  - apply ListFacts.list_deadline.
  - intros w due rest H. exact (ListFacts.list_deadline_effect lcfg due rest w H).
  - intros w H. destruct w as [pr r st n ts wi co].
    unfold running in H. cbn in H. destruct st; try discriminate. reflexivity.
Qed.

(** C9 on the code.  delete-group, and create-group for a public group,
    leave the process as it was on an OK frame whose identifier is not that
    of their event.  create-group for a private group does not: the relay's
    acknowledgment of the authentication event is taken for the answer to
    the invite, the invite is reported as created and the socket is closed
    before the group is created; the REQ of the check, due later, is never
    transmitted. *)
Theorem unmatched_ok_in_private_create :
  (forall (cfg : DeleteGroup.config) data at_ (w : world (DeleteGroup.program cfg)),
      fields_of data = Some at_ -> is_str (at_ 0%nat) "OK" = true ->
      is_str (at_ 1%nat) (Wire.id (DeleteGroup.signedEvent cfg)) = false ->
      deliver _ (SigMessage data) w = w)
  /\ (forall (cfg : CreateGroup.config) data at_ (w : world (CreateGroup.program cfg)),
        CreateGroup.isPrivate cfg = false ->
        fields_of data = Some at_ -> is_str (at_ 0%nat) "OK" = true ->
        is_str (at_ 1%nat) (Wire.id (CreateGroup.signedEvent cfg)) = false ->
        deliver _ (SigMessage data) w = w)
  /\ (let P := CreateGroup.program (Demo.demo_create true) in
      let w := run P (boot P)
                 [(0%N, SigOpen); (10%N, SigMessage (Demo.auth_frame "nonce123"));
                  (20%N, SigMessage (Demo.ok_frame "a01" true ""));
                  (400%N, SigMessage (Demo.eose_frame "check"))] in
      status w = Running
      /\ ws w = Closing
      /\ wire w
         = [AuthSubmit
              (finalizeEvent
                 (auth_template Demo.demo_url (VStr "nonce123") 1700000000010)
                 Demo.demo_key)]
      /\ firstn 3 (console w)
         = [(Out, [VStr "Connected to relay"]); (Out, [VStr "Authenticating..."]);
            (Out, [VStr "✅ Invite created!"])]).
Proof.
  split; [|split].
  - intros cfg data at_ [[] r st n ts wi co] Hf H1 H2. cbn [deliver ws].
    destruct r; try reflexivity; unfold handle;
      cbn [Loop.on_message DeleteGroup.program prog];
      rewrite DeleteFacts.delete_reaction, Hf, H1, H2;
      rewrite (CreateFacts.tag_exclusive _ "OK" "AUTH") by (assumption || discriminate);
      reflexivity.
  - intros cfg data at_ [pr r st n ts wi co] Hp Hf H1 H2. cbn [deliver ws].
    destruct r; try reflexivity; unfold handle;
      cbn [Loop.on_message CreateGroup.program prog];
      rewrite CreateFacts.create_reaction, Hf, H1, H2, Hp;
      rewrite (CreateFacts.tag_exclusive _ "OK" "AUTH"),
        (CreateFacts.tag_exclusive _ "OK" "EVENT"),
        (CreateFacts.tag_exclusive _ "OK" "EOSE") by (assumption || discriminate);
      reflexivity.
  - vm_compute. repeat split.
Qed.

(** The record list-groups builds for the example event of C6. *)
Lemma tags_override_content_witness :
  ListGroups.reconstruct (Demo.demo_list None)
    (RecordSpec.example_event (VNum 1737288000 0))
  = Some {| ListGroups.id := VStr "unknown"; ListGroups.name := VStr "Z";
            ListGroups.description := VStr "Y"; ListGroups.private := VBool false;
            ListGroups.created := "2025-01-19T12:00:00.000Z" |}.
Proof.
  exact (proj2 (RecordFacts.tags_override_content (Demo.demo_list None)
                  (RecordSpec.example_event (VNum 1737288000 0)) _
                  ltac:(vm_compute; reflexivity))
               (VNum 1737288000 0) "2025-01-19T12:00:00.000Z" eq_refl).
Defined.

(** ** Whole runs *)

(** create-group for a new public group: the reply, the REQ of the check
    300 ms later, and on EOSE the CLOSE followed by the create-group event;
    the relay answered. *)
Example create_fresh_run :
  let cfg := Demo.demo_create false in
  let P := CreateGroup.program cfg in
  let tr := [(0%N, SigOpen); (10%N, SigMessage (Demo.auth_frame "nonce123"));
             (400%N, SigMessage (Demo.eose_frame "check"))] in
  CreateSpec.in_answer (false, None) tr = true
  /\ wire (run P (boot P) tr)
     = [AuthSubmit
          (finalizeEvent
             (auth_template Demo.demo_url (VStr "nonce123") 1700000000010)
             Demo.demo_key);
        CreateSpec.check_frame cfg; Close "check"; CreateSpec.create_frame cfg]
  /\ ws (run P (boot P) tr) = Open.
Proof. vm_compute. repeat split. Qed.

(** create-group when the group exists: after the CLOSE nothing is sent. *)
Example create_existing_run :
  let cfg := Demo.demo_create false in
  let P := CreateGroup.program cfg in
  let tr := [(0%N, SigOpen); (10%N, SigMessage (Demo.auth_frame "nonce123"));
             (350%N, SigMessage (Demo.event_frame "check" "{}"));
             (50%N, SigMessage (Demo.eose_frame "check"));
             (5%N, SigMessage (Demo.eose_frame "check"))] in
  CreateSpec.in_answer (false, None) tr = true
  /\ wire (run P (boot P) tr)
     = [AuthSubmit
          (finalizeEvent
             (auth_template Demo.demo_url (VStr "nonce123") 1700000000010)
             Demo.demo_key);
        CreateSpec.check_frame cfg; Close "check"]
  /\ ws (run P (boot P) tr) = Closing
  /\ last (console (run P (boot P) tr)) (Out, [])
     = (Err, [VStr (CreateGroup.exists_message cfg)]).
Proof. vm_compute. repeat split. Qed.

(** delete-group against a relay that never challenges: nothing is sent and
    the deadline ends the run. *)
Example delete_unchallenged_run :
  let cfg := Demo.demo_delete in
  let P := DeleteGroup.program cfg in
  let tr := [(0%N, SigOpen); (100%N, SigMessage (Demo.frame2 "NOTICE" "hello"));
             (15000%N, SigOpen)] in
  all_signals DeleteSpec.unchallenged tr = true
  /\ wire (run P (boot P) tr) = []
  /\ status (run P (boot P) tr) = Exited 1
  /\ console (run P (boot P) tr)
     = [(Out, [VStr "Connected to relay"]); (Err, [VStr "Timeout"])].
Proof. vm_compute. repeat split. Qed.

(** delete-group against a relay that challenges and accepts. *)
Example delete_accepted_run :
  let cfg := Demo.demo_delete in
  let P := DeleteGroup.program cfg in
  let tr := [(0%N, SigOpen); (10%N, SigMessage (Demo.auth_frame "nonce123"));
             (20%N, SigMessage (Demo.ok_frame "a01" true ""));
             (600%N, SigMessage (Demo.ok_frame "d08" true "")); (5%N, SigClose)] in
  wire (run P (boot P) tr)
  = [AuthSubmit
       (finalizeEvent
          (auth_template Demo.demo_url (VStr "nonce123") 1700000000010)
          Demo.demo_key);
     EventSubmit (DeleteGroup.signedEvent cfg)]
  /\ status (run P (boot P) tr) = Exited 0.
Proof. vm_compute. repeat split. Qed.

End Session.

(** ** Identifiers, invite codes and the invite link *)

Module LinkFacts.
Import CreateGroup GroupIdSpec GroupIdFacts Uri IdSpec.

Lemma list_of_append a b :
  list_ascii_of_string (a ++ b)
  = (list_ascii_of_string a ++ list_ascii_of_string b)%list.
Proof. induction a as [|c a IH]; cbn; [reflexivity | now rewrite IH]. Qed.

Lemma length_of_list s : List.length (list_ascii_of_string s) = String.length s.
Proof. induction s as [|c s IH]; cbn; [reflexivity | now rewrite IH]. Qed.

Lemma same_list a b : list_ascii_of_string a = list_ascii_of_string b -> a = b.
Proof.
  intros H. rewrite <- (string_of_list_ascii_of_string a),
    <- (string_of_list_ascii_of_string b). now rewrite H.
Qed.

Lemma id_char_range c :
  is_id_char c = true ->
  ((97 <= code c <= 122) \/ (48 <= code c <= 57))%N.
Proof.
  unfold is_id_char. cbv zeta. intros H.
  apply orb_true_iff in H. destruct H as [H|H];
    apply andb_true_iff in H; destruct H as [H1 H2];
    apply N.leb_le in H1, H2; lia.
Qed.

Lemma id_char_lower c : is_id_char c = true -> lower_ascii c = c.
Proof.
  intros H. apply id_char_range in H. unfold lower_ascii. cbv zeta.
  destruct (N.leb_spec 65 (code c)); destruct (N.leb_spec (code c) 90);
    cbn; try reflexivity; lia.
Qed.

Lemma id_only_ascii s : id_only s -> ascii_only s.
Proof.
  unfold id_only, ascii_only. apply Forall_impl. intros c H.
  apply id_char_range in H. lia.
Qed.

Lemma id_char_unreserved c : is_id_char c = true -> is_unreserved c = true.
Proof.
  intros H. apply id_char_range in H. unfold is_unreserved. cbv zeta.
  destruct H as [[H1 H2]|[H1 H2]].
  - apply N.leb_le in H1, H2. rewrite H1, H2. cbn.
    now rewrite orb_true_r.
  - apply N.leb_le in H1, H2. rewrite H1, H2. cbn.
    now rewrite orb_true_r.
Qed.

(** An identifier of at most 24 characters is left as it is by the three
    steps of the normalization. *)
Lemma normalization_fixes_ids s :
  id_only s -> String.length s <= 24 -> slice24 (strip (toLowerCase s)) = s.
Proof.
  intros Hid Hlen. apply same_list. unfold slice24.
  rewrite substring_firstn, strip_filter, toLowerCase_ascii by now apply id_only_ascii.
  rewrite <- length_of_list in Hlen. unfold id_only in Hid.
  induction Hid as [|c l Hc Hl IH] in Hlen |- *.
  - reflexivity.
  - cbn [map filter]. rewrite (id_char_lower c Hc), Hc.
    cbn in Hlen.
    assert (E : forall n, S (List.length l) <= S n ->
                firstn (S n) (c :: filter is_id_char (map lower_ascii l))
                = c :: firstn n (filter is_id_char (map lower_ascii l)))
      by reflexivity.
    rewrite (E 23%nat Hlen). f_equal.
    clear IH E.
    assert (G : filter is_id_char (map lower_ascii l) = l).
    { clear Hlen. induction Hl as [|d l Hd Hl IH]; [reflexivity|].
      cbn. now rewrite (id_char_lower d Hd), Hd, IH. }
    rewrite G. apply firstn_all2. lia.
Qed.

Lemma digit36_is_id d : (d < 36)%N -> is_id_char (digit36 d) = true.
Proof.
  intros H. unfold digit36, is_id_char, byte, code. cbv zeta.
  destruct (N.ltb_spec d 10).
  - rewrite N_ascii_embedding by lia.
    replace (97 <=? 48 + d)%N with false by (symmetry; apply N.leb_gt; lia).
    replace (48 <=? 48 + d)%N with true by (symmetry; apply N.leb_le; lia).
    replace (48 + d <=? 57)%N with true by (symmetry; apply N.leb_le; lia).
    reflexivity.
  - rewrite N_ascii_embedding by lia.
    replace (97 <=? 87 + d)%N with true by (symmetry; apply N.leb_le; lia).
    replace (87 + d <=? 122)%N with true by (symmetry; apply N.leb_le; lia).
    reflexivity.
Qed.

Lemma digits36_id fuel : forall n acc,
  id_only acc -> id_only (digits36 fuel n acc).
Proof.
  induction fuel as [|f IH]; intros n acc H; [exact H|].
  cbn [digits36].
  assert (H' : id_only (String (digit36 (n mod 36)) acc)).
  { constructor; [|exact H]. apply digit36_is_id.
    apply N.mod_lt. discriminate. }
  destruct (n / 36 =? 0)%N; [exact H' | now apply IH].
Qed.

Lemma digits36_length fuel : forall k n acc,
  (n < 36 ^ N.of_nat (S k))%N ->
  String.length (digits36 fuel n acc) <= S k + String.length acc.
Proof.
  induction fuel as [|f IH]; intros k n acc H; [cbn; lia|].
  cbn [digits36].
  destruct (N.eqb_spec (n / 36) 0) as [E|E]; [cbn; lia|].
  destruct k as [|k].
  - exfalso. apply E. apply N.div_small. exact H.
  - specialize (IH k (n / 36)%N (String (digit36 (n mod 36)) acc)).
    cbn [String.length] in IH. rewrite Nat.add_succ_r in IH.
    apply IH. apply N.Div0.div_lt_upper_bound.
    replace (36 * 36 ^ N.of_nat (S k))%N with (36 ^ N.of_nat (S (S k)))%N; [exact H|].
    rewrite (Nat2N.inj_succ (S k)), N.pow_succ_r'. reflexivity.
Qed.

(** The fallback identifier of a clock in the range of [Date.now()]. *)
Lemma toString36_of_date clock :
  date_range clock ->
  id_only (toString36 clock) /\ String.length (toString36 clock) <= 11.
Proof.
  intros [H1 H2]. unfold toString36. cbv zeta.
  replace (clock <? 0)%Z with false by (symmetry; apply Z.ltb_ge; exact H1).
  split.
  - apply digits36_id. constructor.
  - pose proof (digits36_length (S (N.size_nat (Z.abs_N clock))) 10
                  (Z.abs_N clock) "") as L.
    cbn [String.length] in L. rewrite Nat.add_0_r in L. apply L.
    apply N.lt_le_trans with (8640000000000001)%N; [lia|].
    vm_compute. discriminate.
Qed.

Lemma id_only_app a b : id_only a -> id_only b -> id_only (a ++ b).
Proof.
  unfold id_only. rewrite list_of_append. intros Ha Hb.
  apply Forall_app. now split.
Qed.

Lemma length_append a b : String.length (a ++ b) = String.length a + String.length b.
Proof. induction a as [|c a IH]; cbn; [reflexivity | now rewrite IH]. Qed.

Lemma cut_is_id s : id_only (slice24 (strip (toLowerCase s))).
Proof.
  unfold id_only. apply Forall_forall. intros c H.
  apply slice24_chars in H. now apply strip_id_chars in H.
Qed.

Lemma groupId_shape groupName clock :
  date_range clock ->
  id_only (generateGroupId groupName clock)
  /\ String.length (generateGroupId groupName clock) <= 24
  /\ generateGroupId groupName clock <> "".
Proof.
  intros Hd. unfold generateGroupId. cbv zeta.
  destruct (String.eqb_spec (slice24 (strip (toLowerCase groupName))) "") as [E|E].
  - destruct (toString36_of_date clock Hd) as [H1 H2].
    split; [|split].
    + apply id_only_app; [|exact H1]. repeat constructor.
    + rewrite length_append. cbn [String.length]. lia.
    + discriminate.
  - split; [apply cut_is_id | split; [apply slice24_length | exact E]].
Qed.

(** X1.  The identifier [generateGroupId] returns is its own identifier:
    given back as a name, at any later time, it comes out unchanged.  For
    the fallback identifier this needs the clock to be one [Date.now()] can
    return (from 1970 to the year 275760). *)
Theorem generateGroupId_is_idempotent (groupName : string) (clock clock' : Z) :
  date_range clock ->
  generateGroupId (generateGroupId groupName clock) clock'
  = generateGroupId groupName clock.
Proof.
  intros Hd. destruct (groupId_shape groupName clock Hd) as (H1 & H2 & H3).
  unfold generateGroupId at 1. cbv zeta.
  rewrite (normalization_fixes_ids _ H1 H2).
  destruct (String.eqb_spec (generateGroupId groupName clock) ""); [contradiction|].
  reflexivity.
Qed.

Lemma generateGroupId_idempotent_witness :
  generateGroupId (generateGroupId "Team Chat!!" 1700000000000) 1800000000000
  = "teamchat"
  /\ generateGroupId (generateGroupId "!!!" 1700000000000) 1800000000000
     = generateGroupId "!!!" 1700000000000.
Proof.
  split.
  - exact (generateGroupId_is_idempotent "Team Chat!!" 1700000000000 1800000000000
             ltac:(unfold date_range; lia)).
  - exact (generateGroupId_is_idempotent "!!!" 1700000000000 1800000000000
             ltac:(unfold date_range; lia)).
Defined.

(** *** The invite code *)

Lemma chars_at k :
  k < 36 -> exists c, String.get k chars = Some c /\ is_id_char c = true.
Proof.
  intros H.
  do 36 (destruct k as [|k]; [eexists; split; reflexivity|]).
  lia.
Qed.

Lemma map_length_list {A} (f : A -> ascii) l :
  String.length (string_of_list_ascii (map f l)) = List.length l.
Proof. induction l as [|x l IH]; cbn; [reflexivity | now rewrite IH]. Qed.

Lemma generateInviteCode_length draw : String.length (generateInviteCode draw) = 12.
Proof. unfold generateInviteCode. now rewrite map_length_list. Qed.

Lemma generateInviteCode_id draw : id_only (generateInviteCode draw).
Proof.
  unfold id_only, generateInviteCode. rewrite list_ascii_of_string_of_list_ascii.
  apply Forall_forall. intros c Hc. apply in_map_iff in Hc.
  destruct Hc as (i & Hi & _).
  destruct (chars_at (draw i mod 36)) as (d & Hd & Hid).
  { apply Nat.mod_upper_bound. discriminate. }
  rewrite Hd in Hi. now subst c.
Qed.

(** X2.  The invite code is made of exactly 12 characters of [a-z0-9],
    whatever [Math.random] returns; [inviteCode] is such a code for a
    private group and [null] for a public one, so that the test
    [isPrivate && inviteCode] of the OK branch is the test [isPrivate]. *)
Theorem generateInviteCode_shape (draw : nat -> nat) :
  String.length (generateInviteCode draw) = 12
  /\ Forall (fun c => is_id_char c = true)
            (list_ascii_of_string (generateInviteCode draw))
  /\ truthy (VStr (generateInviteCode draw)) = true
  /\ (forall cfg : config,
        match inviteCode cfg with
        | Some c => isPrivate cfg = true /\ truthy (VStr c) = true
        | None => isPrivate cfg = false
        end).
Proof.
  assert (T : forall d, truthy (VStr (generateInviteCode d)) = true).
  { intros d. pose proof (generateInviteCode_length d) as L. cbn [truthy].
    destruct (generateInviteCode d); [discriminate L | reflexivity]. }
  split; [apply generateInviteCode_length|].
  split; [apply generateInviteCode_id|]. split; [apply T|].
  intros cfg. unfold inviteCode. destruct (isPrivate cfg); auto.
Qed.

(** *** The invite link *)

Lemma encode_app a b :
  encodeURIComponent (a ++ b) = encodeURIComponent a ++ encodeURIComponent b.
Proof.
  induction a as [|c a IH]; [reflexivity|].
  cbn [String.append encodeURIComponent]. rewrite IH.
  destruct (is_unreserved c); [reflexivity|].
  unfold escape. reflexivity.
Qed.

Lemma encode_unreserved s :
  Forall (fun c => is_unreserved c = true) (list_ascii_of_string s) ->
  encodeURIComponent s = s.
Proof.
  induction s as [|c s IH]; intros H; [reflexivity|].
  cbn in H. inversion H as [|? ? Hc Hs]; subst.
  cbn [encodeURIComponent]. rewrite Hc. now rewrite IH.
Qed.

Lemma id_only_unreserved s :
  id_only s -> Forall (fun c => is_unreserved c = true) (list_ascii_of_string s).
Proof. apply Forall_impl. exact id_char_unreserved. Qed.

Lemma digits36_unreserved fuel n :
  Forall (fun c => is_unreserved c = true)
         (list_ascii_of_string (digits36 fuel n "")).
Proof. apply id_only_unreserved, digits36_id. constructor. Qed.

Lemma groupId_unreserved groupName clock :
  Forall (fun c => is_unreserved c = true)
         (list_ascii_of_string (generateGroupId groupName clock)).
Proof.
  unfold generateGroupId. cbv zeta.
  destruct (slice24 (strip (toLowerCase groupName)) =? "") eqn:E.
  - rewrite list_of_append. apply Forall_app. split; [repeat constructor|].
    unfold toString36. cbv zeta. destruct (clock <? 0)%Z.
    + rewrite list_of_append. apply Forall_app. split; [repeat constructor|].
      apply digits36_unreserved.
    + apply digits36_unreserved.
  - apply id_only_unreserved, cut_is_id.
Qed.

Lemma inviteCode_text_unreserved cfg :
  Forall (fun c => is_unreserved c = true)
         (list_ascii_of_string (inviteCode_text cfg)).
Proof.
  unfold inviteCode_text, inviteCode. destruct (isPrivate cfg).
  - apply id_only_unreserved.
    apply generateInviteCode_id.
  - repeat constructor.
Qed.

(** X3.  The link printed for an invite is the one the script builds with
    [encodeURIComponent]: the identifier and the code need no escape, so
    the [join] parameter is always the identifier, [%2F] and the code. *)
Theorem invite_link_escapes_only_the_slash (cfg : config) :
  CreateGroup.fullUrl cfg = InviteLink.fullUrl cfg
  /\ encodeURIComponent (InviteLink.inviteParam cfg)
     = groupId cfg ++ "%2F" ++ inviteCode_text cfg
  /\ (isPrivate cfg = true ->
      InviteLink.fullUrl cfg
      = sphereUrl cfg ++ "/#/agents/chat?join=" ++ groupId cfg ++ "%2F"
        ++ generateInviteCode (CreateGroup.draw cfg)).
Proof.
  assert (E : encodeURIComponent (InviteLink.inviteParam cfg)
              = groupId cfg ++ "%2F" ++ inviteCode_text cfg).
  { unfold InviteLink.inviteParam. rewrite !encode_app.
    rewrite (encode_unreserved (groupId cfg)) by apply groupId_unreserved.
    rewrite (encode_unreserved (inviteCode_text cfg))
      by apply inviteCode_text_unreserved.
    reflexivity. }
  split; [|split; [exact E|]].
  - unfold InviteLink.fullUrl, CreateGroup.fullUrl. now rewrite E.
  - intros Hp. unfold InviteLink.fullUrl. rewrite E.
    unfold inviteCode_text, inviteCode. now rewrite Hp.
Qed.

(** *** The fallback identifier and the clock *)

Lemma digit_value_digit36 d : (d < 36)%N -> Base36.digit_value (digit36 d) = d.
Proof.
  intros H. unfold Base36.digit_value, digit36, byte, code. cbv zeta.
  destruct (N.ltb_spec d 10).
  - rewrite N_ascii_embedding by lia.
    replace (48 + d <? 58)%N with true by (symmetry; apply N.ltb_lt; lia). lia.
  - rewrite N_ascii_embedding by lia.
    replace (87 + d <? 58)%N with false by (symmetry; apply N.ltb_ge; lia). lia.
Qed.

Lemma parse_from_shift s : forall a,
  Base36.parse_from a s
  = (a * 36 ^ N.of_nat (String.length s) + Base36.parse_from 0 s)%N.
Proof.
  induction s as [|c s IH]; intros a.
  - cbn. lia.
  - cbn [Base36.parse_from String.length].
    rewrite (IH (36 * a + Base36.digit_value c)%N),
      (IH (36 * 0 + Base36.digit_value c)%N).
    rewrite Nat2N.inj_succ, N.pow_succ_r'. lia.
Qed.

Lemma parse_digits36 fuel : forall n acc,
  (n < 36 ^ N.of_nat fuel)%N ->
  Base36.parse (digits36 fuel n acc)
  = (n * 36 ^ N.of_nat (String.length acc) + Base36.parse acc)%N.
Proof.
  unfold Base36.parse.
  induction fuel as [|f IH]; intros n acc H.
  - cbn in H. assert (n = 0%N) by lia. subst n. cbn [digits36]. lia.
  - cbn [digits36].
    assert (Hd : Base36.parse_from 0 (String (digit36 (n mod 36)) acc)
                 = ((n mod 36) * 36 ^ N.of_nat (String.length acc)
                    + Base36.parse_from 0 acc)%N).
    { cbn [Base36.parse_from]. rewrite parse_from_shift.
      rewrite digit_value_digit36 by (apply N.mod_lt; discriminate). lia. }
    destruct (N.eqb_spec (n / 36) 0) as [E|E].
    + rewrite Hd. f_equal. f_equal.
      pose proof (N.div_mod n 36 ltac:(discriminate)) as D. rewrite E in D. lia.
    + rewrite IH.
      * rewrite Hd. cbn [String.length]. rewrite Nat2N.inj_succ, N.pow_succ_r'.
        pose proof (N.div_mod n 36 ltac:(discriminate)) as D.
        set (q := (n / 36)%N) in *. set (r := (n mod 36)%N) in *.
        set (p := (36 ^ N.of_nat (String.length acc))%N).
        transitivity ((36 * q + r) * p + Base36.parse_from 0 acc)%N; [lia|].
        now rewrite <- D.
      * apply N.Div0.div_lt_upper_bound.
        rewrite Nat2N.inj_succ, N.pow_succ_r' in H. exact H.
Qed.

Lemma parse_toString36 clock :
  (0 <= clock)%Z -> Base36.parse (toString36 clock) = Z.to_N clock.
Proof.
  intros H. unfold toString36. cbv zeta.
  replace (clock <? 0)%Z with false by (symmetry; apply Z.ltb_ge; exact H).
  rewrite parse_digits36 by apply size_fuel_enough.
  cbn. lia.
Qed.

Lemma append_inj a : forall b c, a ++ b = a ++ c -> b = c.
Proof. induction a as [|x a IH]; intros b c H; [exact H|]. apply IH. now injection H. Qed.

(** X4.  A name without any letter or digit gets the identifier [group]
    followed by the clock in base 36, from which the clock can be read
    back: two such names get the same identifier exactly when they are
    normalized in the same millisecond. *)
Theorem fallback_ids_differ_by_the_clock (name1 name2 : string) (clock1 clock2 : Z) :
  strip (toLowerCase name1) = "" -> strip (toLowerCase name2) = "" ->
  (0 <= clock1)%Z -> (0 <= clock2)%Z ->
  Base36.parse (toString36 clock1) = Z.to_N clock1
  /\ (generateGroupId name1 clock1 = generateGroupId name2 clock2
      <-> clock1 = clock2).
Proof.
  intros E1 E2 H1 H2. split; [now apply parse_toString36|].
  unfold generateGroupId. cbv zeta. rewrite E1, E2. cbn [slice24 substring String.eqb].
  split.
  - intros H. apply (append_inj "group") in H.
    apply (f_equal Base36.parse) in H.
    rewrite !parse_toString36 in H by assumption. lia.
  - now intros ->.
Qed.

Lemma fallback_ids_witness :
  (generateGroupId "!!!" 1700000000000 = generateGroupId "???" 1700000000000)
  /\ generateGroupId "!!!" 1700000000000 <> generateGroupId "!!!" 1700000000001
  /\ generateGroupId "!!!" 1700000000000 = "grouployw3v28".
Proof.
  pose proof (fallback_ids_differ_by_the_clock "!!!" "???" 1700000000000 1700000000000
                eq_refl eq_refl ltac:(lia) ltac:(lia)) as [_ A].
  pose proof (fallback_ids_differ_by_the_clock "!!!" "!!!" 1700000000000 1700000000001
                eq_refl eq_refl ltac:(lia) ltac:(lia)) as [_ B].
  split; [now apply A | split; [|reflexivity]].
  intros H. apply B in H. discriminate.
Defined.

End LinkFacts.

Module NameFacts.
Import Json CreateGroup GroupIdSpec IdSpec NameSpec GroupIdFacts LinkFacts.

Lemma code_byte n : (n < 256)%N -> code (byte n) = n.
Proof. intros H. unfold code, byte. now apply N_ascii_embedding. Qed.

Lemma lower_byte n :
  (n < 256)%N ->
  lower_ascii (byte n)
  = if ((65 <=? n) && (n <=? 90))%N then byte (n + 32) else byte n.
Proof. intros H. unfold lower_ascii. cbv zeta. now rewrite code_byte. Qed.

Lemma id_char_byte n : (n < 256)%N -> is_id_char (byte n) = alphanumeric n.
Proof. intros H. unfold is_id_char, alphanumeric. cbv zeta. now rewrite code_byte. Qed.

(** A byte of 128 or more is its own lower case and no identifier
    character. *)
Lemma high_byte n :
  (128 <= n < 256)%N ->
  lower_ascii (byte n) = byte n /\ is_id_char (byte n) = false.
Proof.
  intros H. rewrite lower_byte, id_char_byte by lia. unfold alphanumeric.
  replace (n <=? 90)%N with false by (symmetry; apply N.leb_gt; lia).
  replace (n <=? 122)%N with false by (symmetry; apply N.leb_gt; lia).
  replace (n <=? 57)%N with false by (symmetry; apply N.leb_gt; lia).
  rewrite !andb_false_r. auto.
Qed.

Lemma toLowerCase_next a t :
  match t with
  | String b t2 =>
      is_dotted_I a b = false
      /\ match t2 with
         | String c _ => is_kelvin a b c = false
         | EmptyString => True
         end
  | EmptyString => True
  end ->
  toLowerCase (String a t) = String (lower_ascii a) (toLowerCase t).
Proof.
  destruct t as [|b [|c t3]]; cbn [toLowerCase]; [reflexivity| |].
  - now intros [-> _].
  - now intros [-> ->].
Qed.

Lemma strip_lowered n t :
  (128 <= n < 256)%N ->
  toLowerCase (String (byte n) t)
  = String (lower_ascii (byte n)) (toLowerCase t) ->
  strip (toLowerCase (String (byte n) t)) = strip (toLowerCase t).
Proof.
  intros H ->. destruct (high_byte n H) as [-> E]. cbn [strip]. now rewrite E.
Qed.

(** A byte of 128 or more that starts neither U+0130 nor U+212A is lowered
    by itself and removed. *)
Lemma strip_high n t :
  (128 <= n < 256)%N -> n <> 196%N -> n <> 226%N ->
  strip (toLowerCase (String (byte n) t)) = strip (toLowerCase t).
Proof.
  intros H H1 H2. apply strip_lowered; [exact H|]. apply toLowerCase_next.
  assert (E1 : forall b, is_dotted_I (byte n) b = false).
  { intros b. unfold is_dotted_I. rewrite code_byte by lia.
    destruct (N.eqb_spec n 196); [contradiction | reflexivity]. }
  assert (E2 : forall b c, is_kelvin (byte n) b c = false).
  { intros b c. unfold is_kelvin. rewrite code_byte by lia.
    destruct (N.eqb_spec n 226); [contradiction | reflexivity]. }
  destruct t as [|b [|c t3]]; auto.
Qed.

Lemma strip_196 m t :
  (m < 256)%N -> m <> 176%N ->
  strip (toLowerCase (String (byte 196) (String (byte m) t)))
  = strip (toLowerCase (String (byte m) t)).
Proof.
  intros H H1. apply strip_lowered; [lia|]. apply toLowerCase_next.
  assert (E1 : is_dotted_I (byte 196) (byte m) = false).
  { unfold is_dotted_I. rewrite (code_byte m) by lia.
    destruct (N.eqb_spec m 176); [contradiction | apply andb_false_r]. }
  split; [exact E1|]. destruct t; [exact I | reflexivity].
Qed.

Lemma strip_226 m k t :
  (m < 256)%N -> (k < 256)%N -> m <> 132%N \/ k <> 170%N ->
  strip (toLowerCase (String (byte 226) (String (byte m) (String (byte k) t))))
  = strip (toLowerCase (String (byte m) (String (byte k) t))).
Proof.
  intros H H' H1. apply strip_lowered; [lia|]. apply toLowerCase_next.
  split; [reflexivity|].
  unfold is_kelvin. rewrite (code_byte m), (code_byte k) by lia.
  destruct (N.eqb_spec m 132), (N.eqb_spec k 170);
    rewrite ?andb_false_r; try reflexivity.
  destruct H1; contradiction.
Qed.

(** The six-bit groups of a code point. *)
Lemma six_bit_groups cp :
  let q1 := (cp / 64)%N in
  let q2 := (cp / 4096)%N in
  let q3 := (cp / 262144)%N in
  (cp = 64 * q1 + cp mod 64 /\ cp mod 64 < 64
   /\ q1 = 64 * q2 + q1 mod 64 /\ q1 mod 64 < 64
   /\ q2 = 64 * q3 + q2 mod 64 /\ q2 mod 64 < 64)%N.
Proof.
  cbv zeta.
  replace (cp / 4096)%N with (cp / 64 / 64)%N
    by (rewrite N.Div0.div_div; reflexivity).
  replace (cp / 262144)%N with (cp / 64 / 64 / 64)%N
    by (rewrite !N.Div0.div_div; reflexivity).
  repeat split;
    solve [apply N.div_mod; discriminate | apply N.mod_lt; discriminate].
Qed.

Lemma letters_plain cp :
  (128 <= cp)%N -> cp <> 304%N -> cp <> 8490%N ->
  filter alphanumeric (lower_point cp) = [].
Proof.
  intros H H1 H2. unfold lower_point.
  replace (cp <=? 90)%N with false by (symmetry; apply N.leb_gt; lia).
  rewrite andb_false_r.
  destruct (N.eqb_spec cp 304); [contradiction|].
  destruct (N.eqb_spec cp 8490); [contradiction|].
  cbn [filter]. unfold alphanumeric.
  replace (cp <=? 122)%N with false by (symmetry; apply N.leb_gt; lia).
  replace (cp <=? 57)%N with false by (symmetry; apply N.leb_gt; lia).
  now rewrite !andb_false_r.
Qed.

(** What one character of the name leaves in the identifier. *)
Lemma strip_lower_utf8 cp rest :
  scalar cp = true ->
  strip (toLowerCase (string_of_list_ascii (utf8 cp) ++ rest))
  = string_of_list_ascii (map byte (filter alphanumeric (lower_point cp)))
    ++ strip (toLowerCase rest).
Proof.
  intros Hs.
  assert (Hcp : (cp < 1114112)%N).
  { unfold scalar in Hs. apply orb_true_iff in Hs. destruct Hs as [H|H].
    - apply N.ltb_lt in H. lia.
    - apply andb_true_iff in H. destruct H as [_ H]. now apply N.ltb_lt in H. }
  unfold utf8.
  destruct (N.ltb_spec cp 128) as [H1|H1].
  { (* ASCII *)
    cbn [string_of_list_ascii append].
    rewrite toLowerCase_plain by (rewrite code_byte; lia).
    rewrite lower_byte by lia. unfold lower_point.
    destruct ((65 <=? cp) && (cp <=? 90))%N eqn:E.
    - apply andb_true_iff in E. destruct E as [E1 E2].
      apply N.leb_le in E1. apply N.leb_le in E2.
      assert (A : alphanumeric (cp + 32) = true).
      { unfold alphanumeric.
        replace (97 <=? cp + 32)%N with true by (symmetry; apply N.leb_le; lia).
        replace (cp + 32 <=? 122)%N with true by (symmetry; apply N.leb_le; lia).
        reflexivity. }
      cbn [filter strip]. rewrite A, id_char_byte, A by lia. reflexivity.
    - destruct (N.eqb_spec cp 304); [lia|].
      destruct (N.eqb_spec cp 8490); [lia|].
      cbn [filter strip]. rewrite id_char_byte by lia.
      destruct (alphanumeric cp); reflexivity. }
  destruct (six_bit_groups cp) as (D1 & R1 & D2 & R2 & D3 & R3).
  destruct (N.ltb_spec cp 2048) as [H2|H2].
  { (* two bytes *)
    cbn [string_of_list_ascii append].
    destruct (N.eq_dec cp 304) as [->|N1].
    { change (byte (192 + 304 / 64)) with (byte 196).
      change (byte (128 + 304 mod 64)) with (byte 176).
      reflexivity. }
    rewrite letters_plain by lia. cbn [map string_of_list_ascii append].
    set (q := (cp / 64)%N) in *. set (r := (cp mod 64)%N) in *.
    destruct (N.eq_dec q 4) as [Eq|Nq].
    - rewrite Eq. change (192 + 4)%N with 196%N.
      rewrite strip_196 by lia. apply strip_high; lia.
    - rewrite strip_high by lia. apply strip_high; lia. }
  destruct (N.ltb_spec cp 65536) as [H3|H3].
  { (* three bytes *)
    cbn [string_of_list_ascii append].
    destruct (N.eq_dec cp 8490) as [->|N1].
    { change (byte (224 + 8490 / 4096)) with (byte 226).
      change (byte (128 + (8490 / 64) mod 64)) with (byte 132).
      change (byte (128 + 8490 mod 64)) with (byte 170).
      reflexivity. }
    rewrite letters_plain by lia. cbn [map string_of_list_ascii append].
    set (q := (cp / 64)%N) in *. set (r := (cp mod 64)%N) in *.
    set (p := (cp / 4096)%N) in *. set (m := (q mod 64)%N) in *.
    destruct (N.eq_dec p 2) as [Ep|Np].
    - rewrite Ep. change (224 + 2)%N with 226%N.
      rewrite strip_226 by lia.
      rewrite strip_high by lia. apply strip_high; lia.
    - rewrite strip_high by lia.
      rewrite strip_high by lia. apply strip_high; lia. }
  (* four bytes *)
  cbn [string_of_list_ascii append].
  rewrite letters_plain by lia. cbn [map string_of_list_ascii append].
  set (q := (cp / 64)%N) in *. set (r := (cp mod 64)%N) in *.
  set (p := (cp / 4096)%N) in *. set (m := (q mod 64)%N) in *.
  set (t := (cp / 262144)%N) in *. set (k := (p mod 64)%N) in *.
  rewrite strip_high by lia. rewrite strip_high by lia.
  rewrite strip_high by lia. apply strip_high; lia.
Qed.

Lemma string_of_app l : forall l',
  string_of_list_ascii (l ++ l')%list
  = string_of_list_ascii l ++ string_of_list_ascii l'.
Proof. induction l as [|a l IH]; intros l'; cbn; [reflexivity | now rewrite IH]. Qed.

Lemma strip_lower_name name :
  forallb scalar name = true ->
  strip (toLowerCase (utf8_string name))
  = string_of_list_ascii
      (map byte (filter alphanumeric (flat_map lower_point name))).
Proof.
  unfold utf8_string. induction name as [|cp name IH]; intros H; [reflexivity|].
  cbn [forallb] in H. apply andb_true_iff in H. destruct H as [H1 H2].
  cbn [flat_map]. rewrite string_of_app, strip_lower_utf8 by exact H1.
  rewrite IH by exact H2.
  now rewrite filter_app, map_app, string_of_app.
Qed.

Lemma cut_of_name name :
  forallb scalar name = true ->
  slice24 (strip (toLowerCase (utf8_string name)))
  = string_of_list_ascii (map byte (normalized name)).
Proof.
  intros H. apply same_list. unfold slice24, normalized.
  rewrite substring_firstn, strip_lower_name by exact H.
  now rewrite !list_ascii_of_string_of_list_ascii, firstn_map.
Qed.

Lemma digit36_zero d : (d < 36)%N -> digit36 d = "0"%char -> d = 0%N.
Proof.
  intros H E. apply (f_equal Base36.digit_value) in E.
  now rewrite digit_value_digit36 in E by exact H.
Qed.

(** With fuel enough the numeral of a positive number does not start with
    a zero. *)
Lemma digits36_head fuel : forall n acc,
  (n < 36 ^ N.of_nat fuel)%N -> (0 < n)%N ->
  exists c t, digits36 fuel n acc = String c t /\ c <> "0"%char.
Proof.
  induction fuel as [|f IH]; intros n acc H Hn.
  - cbn in H. lia.
  - cbn [digits36].
    pose proof (N.div_mod n 36 ltac:(discriminate)) as D.
    pose proof (N.mod_lt n 36 ltac:(discriminate)) as R.
    destruct (N.eqb_spec (n / 36) 0) as [E|E].
    + eexists. eexists. split; [reflexivity|].
      intros Z. apply digit36_zero in Z; [|exact R]. rewrite E in D. lia.
    + apply IH; [|lia].
      apply N.Div0.div_lt_upper_bound.
      rewrite Nat2N.inj_succ, N.pow_succ_r' in H. exact H.
Qed.

Lemma digits36_numeral n :
  numeral36 (digits36 (S (N.size_nat n)) n "") n.
Proof.
  split; [apply digits36_id; constructor|]. split.
  - rewrite parse_digits36 by apply size_fuel_enough. cbn. lia.
  - destruct (N.eq_dec n 0) as [->|Hn]; [left; reflexivity|].
    right. apply digits36_head; [apply size_fuel_enough | lia].
Qed.

(** The clock in base 36: a minus sign when it is negative, then the
    numeral of its absolute value. *)
Lemma toString36_numeral clock :
  exists digits,
    toString36 clock = (if (clock <? 0)%Z then "-" else "") ++ digits
    /\ numeral36 digits (Z.abs_N clock).
Proof.
  eexists. split; [|apply digits36_numeral].
  unfold toString36. cbv zeta. now destruct (clock <? 0)%Z.
Qed.

(** C5.  For every name, given as the list of its characters, the
    identifier [generateGroupId] returns is the name in lower case, without
    the characters other than [a-z0-9], cut to 24 characters.  When
    nothing is left it is [group] followed by the clock in base 36: the
    numeral, without a leading zero, from which the clock reads back.  The
    identifier is never empty, whatever the bytes of the name;
    [Team Chat!!] gives [teamchat] and [!!!] gives the fallback. *)
Theorem generateGroupId_normalizes (name : list N) (clock : Z) :
  forallb scalar name = true ->
  let result := generateGroupId (utf8_string name) clock in
  let letters := normalized name in
  (letters <> [] -> result = string_of_list_ascii (map byte letters))
  /\ (letters = [] ->
      exists digits,
        result = "group" ++ (if (clock <? 0)%Z then "-" else "") ++ digits
        /\ numeral36 digits (Z.abs_N clock))
  /\ (forall bytes : string, generateGroupId bytes clock <> "")
  /\ generateGroupId "Team Chat!!" clock = "teamchat"
  /\ generateGroupId "!!!" clock = "group" ++ toString36 clock.
Proof.
  intros H result letters.
  assert (E : result = if string_of_list_ascii (map byte letters) =? ""
                       then "group" ++ toString36 clock
                       else string_of_list_ascii (map byte letters)).
  { subst result letters. unfold generateGroupId. cbv zeta.
    now rewrite cut_of_name by exact H. }
  split; [|split; [|split; [|split; reflexivity]]].
  - intros Hl. rewrite E. destruct letters; [contradiction | reflexivity].
  - intros Hl. rewrite E, Hl. cbn [map string_of_list_ascii String.eqb].
    destruct (toString36_numeral clock) as (digits & -> & Hd).
    now exists digits.
  - intros bytes. apply (generateGroupId_cut bytes clock).
Qed.

Lemma generateGroupId_witness :
  generateGroupId (utf8_string [84; 304; 8490; 233; 128512; 33; 55]%N) 0 = "tik7"
  /\ exists digits,
       generateGroupId (utf8_string [233; 8364; 128512]%N) 1737288000000
       = "group" ++ digits
       /\ Base36.parse digits = 1737288000000%N.
Proof.
  split.
  - destruct (generateGroupId_normalizes [84; 304; 8490; 233; 128512; 33; 55]%N 0
                ltac:(vm_compute; reflexivity)) as (A & _).
    rewrite A; [vm_compute; reflexivity | vm_compute; discriminate].
  - destruct (generateGroupId_normalizes [233; 8364; 128512]%N 1737288000000
                ltac:(vm_compute; reflexivity)) as (_ & B & _).
    destruct (B ltac:(vm_compute; reflexivity)) as (digits & E & _ & Hp & _).
    exists digits. split; [exact E | exact Hp].
Defined.

End NameFacts.

(** ** The clock of a run *)

Module Clock.
Import LoopFacts.

Section Any.
Variable P : script.
Abbreviation world := (world P).

Lemma alive_status (w : world) : running w = true -> status w = Running.
Proof. unfold running. now destruct (status w). Qed.

Lemma act_all_now acts : forall w : world, now (act_all P acts w) = now w.
Proof.
  induction acts as [|a acts IH]; intros w; cbn [act_all]; [reflexivity|].
  destruct (running w); [|reflexivity]. rewrite IH.
  destruct a as [e|cb delay]; [apply perform_now | reflexivity].
Qed.

Lemma deliver_now sig (w : world) : now (deliver P sig w) = now w.
Proof.
  destruct sig as [|data|msg|]; cbn [deliver].
  - destruct (ws w); try reflexivity. unfold handle. now rewrite act_all_now.
  - destruct (ws w); try reflexivity; unfold handle; now rewrite act_all_now.
  - apply perform_all_now.
  - apply perform_all_now.
Qed.

Lemma fire_now t pending : forall w : world,
  (now w <= t)%N -> (now (fire P t pending w) <= t)%N.
Proof.
  induction pending as [|[due cb] rest IH]; intros w H; cbn [fire]; [exact H|].
  destruct (N.leb_spec due t) as [Hd|Hd]; [|exact H].
  assert (H1 : (now (fire_one P due cb rest w) <= t)%N).
  { unfold fire_one. rewrite perform_all_now. cbn [now set_now]. lia. }
  destruct (running (fire_one P due cb rest w)); [now apply IH | exact H1].
Qed.

Lemma advance_now t (w : world) :
  running (advance P t w) = true -> (now w <= t)%N -> now (advance P t w) = t.
Proof.
  unfold advance. intros R H. pose proof (fire_now t (timers w) w H) as L.
  destruct (running (fire P t (timers w) w)) eqn:E; [|congruence].
  cbn [now set_now]. lia.
Qed.

Lemma step_now (w : world) dt sig :
  running (step P w (dt, sig)) = true -> now (step P w (dt, sig)) = (now w + dt)%N.
Proof.
  unfold step. cbn [fst snd]. intros R.
  destruct (running w) eqn:Rw; [|congruence].
  destruct (running (advance P (now w + dt) w)) eqn:Ra; [|congruence].
  rewrite deliver_now. apply advance_now; [exact Ra | lia].
Qed.

Lemma step_was_running (w : world) ev :
  running (step P w ev) = true -> running w = true.
Proof.
  unfold step. destruct (running w) eqn:Rw; [reflexivity | congruence].
Qed.

Lemma run_was_running tr : forall w : world,
  running (run P w tr) = true -> running w = true.
Proof.
  induction tr as [|ev tr IH]; intros w R; [exact R|].
  cbn [run fold_left] in R. apply IH in R. now apply step_was_running in R.
Qed.

(** A process that is alive at the end of a run has the clock of the
    run. *)
Lemma run_now tr : forall w : world,
  running (run P w tr) = true -> now (run P w tr) = (now w + duration tr)%N.
Proof.
  induction tr as [|[dt sig] tr IH]; intros w R.
  - cbn. lia.
  - cbn [run fold_left] in *. fold (run P (step P w (dt, sig)) tr) in *.
    rewrite (IH _ R). rewrite step_now by now apply run_was_running in R.
    cbn [duration fold_right fst]. fold (duration tr). lia.
Qed.

(** What was printed stays printed. *)
Lemma console_stays x (w : world) tr :
  In x (console w) -> In x (console (run P w tr)).
Proof.
  apply (run_stable P (fun w' => In x (console w'))); auto.
  intros e w' H. destruct e; cbn; auto.
  - destruct (ws w'); cbn; auto.
  - apply in_or_app. now left.
Qed.

Lemma console_stays_advance x (w : world) t :
  In x (console w) -> In x (console (advance P t w)).
Proof.
  apply (advance_stable P (fun w' => In x (console w'))); auto.
  intros e w' H. destruct e; cbn; auto.
  - destruct (ws w'); cbn; auto.
  - apply in_or_app. now left.
Qed.

(** *** One step, when no timer or one timer is due *)

Lemma advance_idle t (w : world) :
  running w = true -> Conduct.head_after t (timers w) ->
  advance P t w = set_now P (N.max (now w) t) w.
Proof.
  intros R H. unfold advance.
  assert (E : fire P t (timers w) w = w).
  { destruct (timers w) as [|[due cb] rest]; [reflexivity|].
    cbn [fire]. cbn [Conduct.head_after fst] in H.
    now replace (due <=? t)%N with false by (symmetry; apply N.leb_gt; exact H). }
  now rewrite E, R.
Qed.

Lemma advance_one t due cb rest (w : world) :
  timers w = (due, cb) :: rest -> (due <= t)%N -> Conduct.head_after t rest ->
  let w1 := fire_one P due cb rest w in
  running w1 = true ->
  advance P t w = set_now P (N.max (now w1) t) w1.
Proof.
  intros Ht Hd Hr w1 R1. unfold advance. rewrite Ht. cbn [fire].
  replace (due <=? t)%N with true by (symmetry; apply N.leb_le; exact Hd).
  fold w1. rewrite R1.
  assert (E : fire P t rest w1 = w1).
  { destruct rest as [|[due' cb'] rest']; [reflexivity|].
    cbn [fire]. cbn [Conduct.head_after fst] in Hr.
    now replace (due' <=? t)%N with false by (symmetry; apply N.leb_gt; exact Hr). }
  now rewrite E, R1.
Qed.

Lemma step_idle (w : world) dt sig :
  running w = true -> Conduct.head_after (now w + dt) (timers w) ->
  step P w (dt, sig) = deliver P sig (set_now P (now w + dt) w).
Proof.
  intros R H. unfold step. cbn [fst snd]. rewrite R, advance_idle by assumption.
  rewrite N.max_r by lia.
  replace (running (set_now P (now w + dt) w)) with (running w) by reflexivity.
  now rewrite R.
Qed.

Lemma step_one (w : world) dt sig due cb rest :
  running w = true ->
  timers w = (due, cb) :: rest -> (due <= now w + dt)%N ->
  Conduct.head_after (now w + dt) rest ->
  let w1 := fire_one P due cb rest w in
  running w1 = true ->
  step P w (dt, sig) = deliver P sig (set_now P (N.max (now w1) (now w + dt)) w1).
Proof.
  intros R Ht Hd Hr w1 R1. unfold step. cbn [fst snd].
  rewrite R, (advance_one _ due cb rest) by assumption. fold w1.
  replace (running (set_now P (N.max (now w1) (now w + dt)) w1)) with (running w1)
    by reflexivity.
  now rewrite R1.
Qed.

End Any.

End Clock.

(** ** The existence check comes first *)

Module CheckFirst.
Import JS Wire Loop Inbound Conduct CreateGroup CreateSpec LoopFacts CreateFacts.

Section Any.
Variable P : script.

Lemma lasting_refl (w : world P) : lasting P w w.
Proof. repeat split; auto. Qed.

Lemma lasting_trans (a b c : world P) : lasting P a b -> lasting P b c -> lasting P a c.
Proof.
  intros (A1 & A2 & A3 & A4 & A5) (B1 & B2 & B3 & B4 & B5).
  repeat split; auto; congruence.
Qed.

Lemma perform_lasting e (w : world P) : lasting P w (perform P e w).
Proof.
  destruct e; cbn [perform]; try (repeat split; auto; cbn; congruence).
  destruct (ws w) eqn:E; repeat split; cbn; auto; try congruence.
  intros f0 H. apply in_or_app. now left.
Qed.

Lemma act_lasting a (w : world P) : lasting P w (act P a w).
Proof.
  destruct a as [e|cb delay]; cbn [act]; [apply perform_lasting|].
  repeat split; cbn; auto. intros x H. apply schedule_in. now right.
Qed.

Lemma perform_all_lasting es : forall w : world P, lasting P w (perform_all P es w).
Proof.
  induction es as [|e es IH]; intros w; cbn [perform_all]; [apply lasting_refl|].
  destruct (running w); [|apply lasting_refl].
  eapply lasting_trans; [apply perform_lasting | apply IH].
Qed.

Lemma act_all_lasting acts : forall w : world P, lasting P w (act_all P acts w).
Proof.
  induction acts as [|a acts IH]; intros w; cbn [act_all]; [apply lasting_refl|].
  destruct (running w); [|apply lasting_refl].
  eapply lasting_trans; [apply act_lasting | apply IH].
Qed.

(** A signal undoes none of it either, and the open signal takes the
    socket out of the connecting state. *)
Lemma deliver_lasting sig (w : world P) :
  lasting P w (deliver P sig w)
  /\ (sig = SigOpen -> ws (deliver P sig w) <> Connecting).
Proof.
  destruct sig as [|data|msg|]; cbn [deliver].
  - destruct (ws w) eqn:E.
    + unfold handle.
      destruct (act_all_lasting (snd (Loop.on_open P (prog w)))
                  (set_prog P (fst (Loop.on_open P (prog w))) (set_ws P Open w)))
        as (A1 & A2 & A3 & A4 & A5).
      split; [|intros _; apply A4; cbn; discriminate].
      repeat split; auto; congruence.
    + split; [apply lasting_refl | intros _; congruence].
    + split; [apply lasting_refl | intros _; congruence].
  - split; [|discriminate].
    destruct (ws w) eqn:E; [apply lasting_refl | |];
      unfold handle;
      match goal with
      | |- lasting P _ (act_all _ ?acts ?w0) =>
          destruct (act_all_lasting acts w0) as (A1 & A2 & A3 & A4 & A5)
      end;
      repeat split; auto.
  - split; [apply perform_all_lasting | discriminate].
  - split; [apply perform_all_lasting | discriminate].
Qed.

End Any.

Section Create.
Variable cfg : config.
Abbreviation P := (program cfg).

Lemma fired_one (w : world P) due cb rest (w' : world P) :
  fired cfg w w' -> running w' = true -> timers w' = (due, cb) :: rest ->
  fired cfg w (fire_one P due cb rest w').
Proof.
  intros H R Ht Hc. destruct (H Hc) as (H1 & H2 & H3 & H4).
  destruct (create_timer_effect cfg due cb rest w' R) as (Et & _ & He).
  assert (Hw : forall f, In f (wire w') -> In f (wire (fire_one P due cb rest w'))).
  { destruct cb.
    - destruct He as [He _].
      destruct (ws w'); destruct He as [-> _]; auto.
      intros f Hf. apply in_or_app. now left.
    - destruct He as (-> & _). auto. }
  assert (Hs : ws (fire_one P due cb rest w') = ws w'
               \/ ws (fire_one P due cb rest w') = Closing).
  { destruct cb; [left; apply He | right; apply He]. }
  split; [destruct Hs as [-> | ->]; [exact H1 | discriminate]|].
  split; [auto|].
  split; [intros C; destruct Hs as [-> | ->]; auto|].
  intros due0 Hin. destruct (H4 due0 Hin) as [K|[K|K]].
  - rewrite Ht in K. destruct K as [K|K].
    + injection K as -> ->. destruct He as [He Hws].
      destruct (ws w') eqn:E; [congruence | |].
      * right. right. destruct He as [-> _]. apply in_or_app. right. now left.
      * right. left. congruence.
    + left. now rewrite Et.
  - right. left. destruct Hs as [-> | ->]; auto.
  - right. right. auto.
Qed.

Lemma advance_fired t (w : world P) :
  in_order (timers w) -> running w = true -> (now w <= t)%N ->
  let w1 := advance P t w in
  in_order (timers w1)
  /\ fired cfg w w1
  /\ (running w1 = true ->
      now w1 = t /\ Forall (fun x => (t < fst x)%N) (timers w1)).
Proof.
  intros Ho R Hn w1.
  assert (F0 : fired cfg w w) by (intros Hc; repeat split; auto).
  destruct (fire_invariant P (fired cfg w) (fired_one w)
              t (timers w) w eq_refl Ho F0 R)
    as (F & O & A).
  subst w1. unfold advance.
  destruct (running (fire P t (timers w) w)) eqn:R1.
  - split; [exact O|]. split; [exact F|]. intros _.
    split; [|exact (A eq_refl)].
    pose proof (Clock.fire_now P t (timers w) w Hn). cbn [now set_now]. lia.
  - split; [exact O|]. split; [exact F|]. cbn. congruence.
Qed.

(** Time passes: the REQ of the check stays under way. *)
Lemma advance_under_way st dt (w : world P) :
  in_order (timers w) -> running w = true -> under_way cfg st w ->
  under_way cfg (elapse dt st) (advance P (now w + dt) w).
Proof.
  intros Ho R L R1. destruct (L R) as [L1 L2].
  destruct (advance_fired (now w + dt) w Ho R ltac:(lia)) as (_ & F & A).
  destruct (A R1) as [En Hf]. cbn [elapse fst snd]. split.
  - intros Hs. now apply F, L1.
  - intros t Ht. destruct (snd st) as [t0|] eqn:E; [|discriminate].
    cbn [option_map] in Ht. injection Ht as <-.
    destruct (L2 t0 eq_refl) as [Hc Hd].
    destruct (F Hc) as (F1 & F2 & F3 & F4).
    split; [exact F1|].
    destruct Hd as [Hd|[Hd|(due & Hin & Hle & Hlt)]]; [auto | auto |].
    destruct (F4 due Hin) as [K|[K|K]]; [|auto | auto].
    right. right. exists due. split; [exact K|].
    rewrite Forall_forall in Hf. specialize (Hf _ K). cbn [fst] in Hf. lia.
Qed.

(** A challenge received on the open socket arms the timer of the
    check. *)
Lemma challenge_arms data (w : world P) :
  running w = true -> ws w <> Connecting -> tagged data "AUTH" = true ->
  let w' := deliver P (SigMessage data) w in
  In ((now w + 300)%N, SendCheck) (timers w').
Proof.
  intros R Hc Ht w'. subst w'. rewrite deliver_message by exact Hc.
  set (r := Loop.on_message P (epoch P + Z.of_N (now w)) data (prog w)).
  assert (E : calm (snd r) = true /\ arms (snd r) = [(SendCheck, 300%N)]).
  { subst r. cbn [Loop.on_message program]. rewrite create_reaction.
    unfold tagged in Ht. destruct (fields_of data) as [at_|]; [|discriminate].
    rewrite Ht. split; reflexivity. }
  destruct E as [E1 E2].
  destruct (handle_calm P r w E1 R Hc) as (_ & _ & _ & _ & _ & _ & Htm).
  rewrite Htm, E2. cbn [fold_left fst snd].
  apply (proj2 (schedule_in P (now w + 300) SendCheck (timers w) _)). now left.
Qed.

(** A signal arrives: the REQ of the check stays under way. *)
Lemma deliver_under_way st sig (w : world P) :
  running w = true -> under_way cfg st w ->
  under_way cfg (notice sig st) (deliver P sig w).
Proof.
  intros R L R'. destruct (L R) as [L1 L2].
  destruct (deliver_lasting P sig w) as ((M1 & M2 & M3 & M4 & M5) & Mo).
  assert (K : forall t, snd st = Some t ->
                ws (deliver P sig w) <> Connecting
                /\ (ws (deliver P sig w) = Closing
                    \/ In (check_frame cfg) (wire (deliver P sig w))
                    \/ exists due,
                         In (due, SendCheck) (timers (deliver P sig w))
                         /\ (due + t <= now (deliver P sig w) + 300)%N
                         /\ (now (deliver P sig w) < due)%N)).
  { intros t Ht. destruct (L2 t Ht) as [Hc Hd]. split; [auto|].
    destruct Hd as [Hd|[Hd|(due & Hin & Hle & Hlt)]]; [auto | auto |].
    right. right. exists due. rewrite M1. auto. }
  destruct sig as [|data|msg|]; cbn [notice].
  - split; [intros _; now apply Mo | exact K].
  - destruct (fst st && tagged data "AUTH") eqn:E; [|split; [auto | exact K]].
    apply andb_true_iff in E. destruct E as [E1 E2].
    cbn [fst snd]. split; [auto|].
    intros t Ht. destruct (snd st) as [t0|] eqn:Es.
    + injection Ht as <-. now apply K.
    + injection Ht as <-. split; [auto|]. right. right.
      exists (now w + 300)%N. rewrite M1.
      split; [apply challenge_arms; auto | lia].
  - split; [auto | exact K].
  - split; [auto | exact K].
Qed.

Lemma step_under_way st ev (w : world P) :
  in_order (timers w) -> under_way cfg st w ->
  in_order (timers (step P w ev)) /\ under_way cfg (hears st ev) (step P w ev).
Proof.
  intros Ho L. destruct ev as [dt sig]. unfold step, hears. cbn [fst snd].
  destruct (running w) eqn:R; [|split; [exact Ho | intros C; congruence]].
  pose proof (advance_under_way st dt w Ho R L) as L1.
  destruct (advance_fired (now w + dt) w Ho R ltac:(lia)) as (O1 & _).
  set (w1 := advance P (now w + dt) w) in *.
  destruct (running w1) eqn:R1; [|split; [exact O1 | intros C; congruence]].
  split; [now apply deliver_in_order | now apply deliver_under_way].
Qed.

Lemma run_under_way tr : forall st (w : world P),
  in_order (timers w) -> under_way cfg st w ->
  under_way cfg (fold_left hears tr st) (run P w tr).
Proof.
  induction tr as [|ev tr IH]; intros st w Ho L; [exact L|].
  cbn [fold_left run].
  destruct (step_under_way st ev w Ho L) as [Ho' L'].
  now apply IH.
Qed.

Lemma boot_under_way : under_way cfg (false, None) (boot P).
Proof. intros _. split; [discriminate|]. intros t. discriminate. Qed.

Lemma boot_in_order : in_order (timers (boot P)).
Proof. cbn. repeat constructor. Qed.

(** A timer fires: the create-group event is not what it sends. *)
Lemma advance_check_first t (w : world P) :
  running w = true -> check_first cfg (wire w) ->
  check_first cfg (wire (advance P t w)).
Proof.
  intros R H.
  apply (advance_keeps P (fun w' => check_first cfg (wire w'))); auto.
  intros due cb rest w' H' R'.
  destruct (create_timer_effect cfg due cb rest w' R') as (_ & _ & He).
  destruct cb.
  - destruct He as [He _]. destruct (ws w'); destruct He as [E _]; rewrite E; auto.
    apply check_first_app; [exact H'|]. left.
    intros [C|[]]. discriminate.
  - destruct He as (E & _). now rewrite E.
Qed.

(** When the relay ends the check only in answer, the REQ of the check
    precedes the create-group event. *)
Lemma check_first_run tr : forall st (w : world P),
  in_order (timers w) -> under_way cfg st w ->
  in_answer st tr = true ->
  check_first cfg (wire w) -> check_first cfg (wire (run P w tr)).
Proof.
  induction tr as [|[dt sig] tr IH]; intros st w Ho L Ha Hw; [exact Hw|].
  cbn [in_answer fst snd] in Ha. apply andb_true_iff in Ha.
  destruct Ha as [Ha1 Ha2].
  destruct (step_under_way st (dt, sig) w Ho L) as [Ho' L'].
  cbn [run fold_left].
  apply (IH (hears st (dt, sig))); [exact Ho' | exact L' | exact Ha2 |].
  unfold step. destruct (running w) eqn:R; [|exact Hw]. cbn [fst snd].
  pose proof (advance_check_first (now w + dt) w R Hw) as H1.
  pose proof (advance_under_way st dt w Ho R L) as L1.
  set (w1 := advance P (now w + dt) w) in *.
  destruct (running w1) eqn:R1; [|exact H1].
  destruct (create_deliver_wire cfg sig w1 R1) as (_ & extra & E & Hx).
  rewrite E.
  destruct sig as [|data| |];
    try (subst extra; rewrite app_nil_r; exact H1).
  destruct (labelled data "EOSE" "check").
  - destruct (snd (elapse dt st)) as [t|] eqn:Et; [|discriminate].
    apply N.leb_le in Ha1.
    destruct (L1 R1) as [_ L2]. destruct (L2 t Et) as [Hc Hd].
    destruct Hd as [Hd|[Hd|(due & Hin & Hle & Hlt)]]; [| |lia].
    + (* the socket is closing: nothing is sent *)
      assert (extra = []) as ->.
      { destruct (groupExists (prog w1)).
        - destruct (Hx Hc) as (-> & _). now rewrite Hd.
        - subst extra. now rewrite Hd. }
      now rewrite app_nil_r.
    + apply check_first_app; [exact H1 | now right].
  - apply check_first_app; [exact H1|]. left. now destruct Hx.
Qed.

End Create.

(** C2.  create-group sends the create-group event on the EOSE frame of
    its existence check and on no other occasion, without asking whether
    the REQ of the check has been sent.  The REQ (kind 39000, the
    normalized identifier) is sent 300 ms after the first challenge: in a
    run that has known a challenge for 300 ms or more and whose socket is
    open, it is on the wire.  Hence, when the relay ends the check only in
    answer to it -- no EOSE frame of the check sooner than 300 ms after the
    first challenge -- the REQ is on the wire before the create-group
    event.  A group-metadata event of the check that arrives on the open
    connection before any EOSE frame of the check keeps the create-group
    event off the wire for the rest of the run; the EOSE frame then gets
    the CLOSE of the check, the error line and [ws.close()], and nothing
    is transmitted afterwards. *)
Theorem create_checks_first (cfg : CreateGroup.config) :
  let P := CreateGroup.program cfg in
  check_frame cfg
  = Req "check" {| kinds := [39000%Z];
                   d_tag := Some [generateGroupId (name cfg) (started cfg)] |}
  /\ (forall tr,
        in_answer (false, None) tr = true ->
        check_first cfg (wire (run P (boot P) tr)))
  /\ (forall tr t,
        snd (heard tr) = Some t -> (300 <= t)%N ->
        running (run P (boot P) tr) = true -> ws (run P (boot P) tr) = Open ->
        In (check_frame cfg) (wire (run P (boot P) tr)))
  /\ (forall pre dt data post,
        all_signals no_check_end pre = true ->
        labelled data "EVENT" "check" = true ->
        ws (run P (boot P) pre) <> Connecting ->
        ~ In (create_frame cfg)
             (wire (run P (boot P) (pre ++ (dt, SigMessage data) :: post))))
  /\ (forall (w : world P) data,
        ws w <> Connecting -> labelled data "EVENT" "check" = true ->
        let w' := deliver P (SigMessage data) w in
        groupExists (prog w') = true /\ wire w' = wire w)
  /\ (forall (w : world P) tr,
        groupExists (prog w) = true ->
        groupExists (prog (run P w tr)) = true)
  /\ (forall (w : world P) data,
        running w = true -> ws w <> Connecting ->
        groupExists (prog w) = true ->
        labelled data "EOSE" "check" = true ->
        let w' := deliver P (SigMessage data) w in
        wire w' = (wire w ++ match ws w with Open => [Close "check"] | _ => [] end)%list
        /\ console w'
           = (console w ++ [(Err, [VStr (exists_message cfg)])])%list
        /\ ws w' = Closing
        /\ (forall tr, wire (run P w' tr) = wire w')).
Proof.
  intros P. subst P.
  destruct (Session.check_steps cfg) as (S1 & S2 & S3 & S4 & S5).
  split; [exact S1|]. split; [|split; [|split; [|split; [|split]]]].
  - intros tr Ha.
    apply (check_first_run cfg tr (false, None));
      [apply boot_in_order | apply boot_under_way | exact Ha |].
    intros l1 l2 E. destruct l1; discriminate.
  - intros tr t Ht Hle R Ho.
    destruct (run_under_way cfg tr (false, None) _
                (boot_in_order cfg) (boot_under_way cfg) R) as [_ L].
    destruct (L t Ht) as [_ [C|[C|(due & _ & H1 & H2)]]];
      [congruence | exact C | lia].
  - exact S2.
  - exact S3.
  - exact S4.
  - exact S5.
Qed.

(** C2, as the specification has it, fails: create-group does not ask
    whether the check was made.  On an EOSE frame of the check that no REQ
    has asked for, the create-group event is sent at once -- with no
    challenge at all, or before the 300 ms of the timer have passed, in
    which case the REQ of the check follows the event. *)
Lemma unasked_end_skips_the_check :
  let cfg := Demo.demo_create false in
  let P := CreateGroup.program cfg in
  let bare := [(0%N, SigOpen); (10%N, SigMessage (Demo.eose_frame "check"))] in
  let early := [(0%N, SigOpen); (10%N, SigMessage (Demo.auth_frame "nonce123"));
                (100%N, SigMessage (Demo.eose_frame "check"));
                (500%N, SigMessage (Demo.frame2 "NOTICE" "hello"))] in
  wire (run P (boot P) bare) = [Close "check"; create_frame cfg]
  /\ ~ check_first cfg (wire (run P (boot P) bare))
  /\ in_answer (false, None) bare = false
  /\ wire (run P (boot P) early)
     = [AuthSubmit
          (finalizeEvent
             (auth_template Demo.demo_url (VStr "nonce123") 1700000000010)
             Demo.demo_key);
        Close "check"; create_frame cfg; check_frame cfg]
  /\ ~ check_first cfg (wire (run P (boot P) early))
  /\ in_answer (false, None) early = false.
Proof.
  cbv zeta.
  assert (N1 : check_frame (Demo.demo_create false)
               <> Close "check") by discriminate.
  split; [vm_compute; reflexivity|]. split.
  { intros H.
    specialize (H [Close "check"] [] ltac:(vm_compute; reflexivity)).
    destruct H as [H|[]]. discriminate H. }
  split; [vm_compute; reflexivity|].
  split; [vm_compute; reflexivity|]. split.
  { intros H.
    specialize (H [AuthSubmit
                     (finalizeEvent
                        (auth_template Demo.demo_url (VStr "nonce123") 1700000000010)
                        Demo.demo_key);
                   Close "check"]
                  [check_frame (Demo.demo_create false)]
                  ltac:(vm_compute; reflexivity)).
    destruct H as [H|[H|[]]]; discriminate H. }
  vm_compute. reflexivity.
Qed.

End CheckFirst.

(** ** What keeps a script alive *)

Module Liveness.
Import Conduct LoopFacts.

Section Sound.
Variable P : script.
Variable late : timer P -> bool.
Variable T : N.
Abbreviation world := (world P).
Abbreviation armed := (armed_safely P late T).

Hypothesis start_late :
  Forall (fun x => late (snd x) = true /\ fst x = T) (start_timers P).
Hypothesis start_in_order : in_order (start_timers P).
Hypothesis late_raises_nothing :
  forall cb v, late cb = true -> forallb raises_nothing (on_timer P cb v) = true.
Hypothesis early_mild :
  forall cb v, late cb = false -> forallb is_mild (on_timer P cb v) = true.
Hypothesis open_calm :
  forall v, calm (snd (on_open P v)) = true /\ arms (snd (on_open P v)) = [].
Hypothesis message_arms :
  forall clock data v,
    Forall (fun x => late (fst x) = false) (arms (snd (on_message P clock data v))).
Hypothesis error_raises_nothing :
  forall m, forallb raises_nothing (on_error P m) = true.
Hypothesis close_raises_nothing : forallb raises_nothing (on_close P) = true.

Lemma alive_not_crashed (w : world) : running w = true -> status w <> Crashed.
Proof. unfold running. now destruct (status w). Qed.

Lemma perform_all_raises_nothing es : forall w : world,
  forallb raises_nothing es = true -> status w <> Crashed ->
  status (perform_all P es w) <> Crashed
  /\ (ws w <> Connecting -> ws (perform_all P es w) <> Connecting).
Proof.
  induction es as [|e es IH]; intros w He Hs; cbn [perform_all]; [auto|].
  cbn [forallb] in He. apply andb_true_iff in He. destruct He as [He1 He2].
  destruct (running w) eqn:R; [|auto].
  destruct (IH (perform P e w) He2) as [A B].
  - destruct e; cbn in He1; try discriminate He1; cbn; try exact Hs; discriminate.
  - split; [exact A|]. intros Hc. apply B.
    destruct e; cbn in He1; try discriminate He1; cbn; try exact Hc; discriminate.
Qed.

Lemma perform_all_mild es : forall w : world,
  forallb is_mild es = true -> running w = true -> ws w <> Connecting ->
  running (perform_all P es w) = true /\ ws (perform_all P es w) <> Connecting.
Proof.
  induction es as [|e es IH]; intros w He R Hc; cbn [perform_all]; [auto|].
  cbn [forallb] in He. apply andb_true_iff in He. destruct He as [He1 He2].
  rewrite R. apply IH; [exact He2 | |].
  - destruct e; cbn in He1; try discriminate He1; cbn.
    + destruct (ws w) eqn:E; [contradiction | exact R | exact R].
    + exact R.
    + exact R.
  - destruct e; cbn in He1; try discriminate He1; cbn.
    + destruct (ws w) eqn:E; [contradiction | |]; cbn; rewrite E; discriminate.
    + discriminate.
    + exact Hc.
Qed.

Lemma perform_all_quiet es : forall w : world,
  forallb is_quiet es = true -> running w = true ->
  running (perform_all P es w) = true.
Proof.
  induction es as [|e es IH]; intros w He R; cbn [perform_all]; [auto|].
  cbn [forallb] in He. apply andb_true_iff in He. destruct He as [He1 He2].
  rewrite R. apply IH; [exact He2|].
  destruct e; cbn in He1; try discriminate He1; exact R.
Qed.

Lemma armed_change (w w' : world) :
  timers w' = timers w -> (ws w <> Connecting -> ws w' <> Connecting) ->
  armed w -> armed w'.
Proof.
  unfold armed_safely. intros -> Hc. apply Forall_impl.
  intros x. destruct (late (snd x)); auto.
Qed.

Lemma perform_connected e (w : world) :
  ws w <> Connecting -> ws (perform P e w) <> Connecting.
Proof.
  intros Hc. destruct e; cbn; try exact Hc; [|discriminate].
  destruct (ws w) eqn:E; [contradiction | |]; cbn; rewrite E; discriminate.
Qed.

(** Whatever a handler does once the socket has opened, and wherever it
    stops, the timers it leaves are armed safely. *)
Lemma act_all_armed acts : forall w : world,
  ws w <> Connecting -> armed w ->
  Forall (fun x => late (fst x) = false) (arms acts) ->
  armed (act_all P acts w).
Proof.
  induction acts as [|a acts IH]; intros w Hc A Ha; cbn [act_all]; [exact A|].
  destruct (running w); [|exact A].
  destruct a as [e|cb delay].
  - apply IH.
    + now apply perform_connected.
    + apply (armed_change w); [apply perform_timers | | exact A].
      intros _. now apply perform_connected.
    + destruct e; exact Ha.
  - cbn [arms] in Ha. inversion Ha as [|? ? Hx Hrest]; subst. cbn [fst] in Hx.
    apply IH; [exact Hc | | exact Hrest].
    unfold armed_safely in *. cbn [act timers set_timers ws].
    apply Forall_forall. intros x Hin. apply schedule_in in Hin.
    destruct Hin as [->|Hin].
    + cbn [snd]. now rewrite Hx.
    + rewrite Forall_forall in A. now apply A.
Qed.

Lemma fire_one_ws due cb rest (w : world) :
  armed w -> running w = true -> timers w = (due, cb) :: rest ->
  let w' := fire_one P due cb rest w in
  status w' <> Crashed /\ (ws w <> Connecting -> ws w' <> Connecting).
Proof.
  intros A R Ht. cbv zeta. unfold fire_one.
  set (w0 := set_now P (N.max (now w) due) (set_timers P rest w)).
  destruct (late cb) eqn:L.
  - destruct (perform_all_raises_nothing (on_timer P cb (prog w0)) w0) as [A1 A2];
      [now apply late_raises_nothing | exact (alive_not_crashed w R) |].
    split; [exact A1 | exact A2].
  - assert (Hc : ws w <> Connecting).
    { unfold armed_safely in A. rewrite Ht in A. inversion A as [|? ? Hx _]; subst.
      cbn [snd] in Hx. now rewrite L in Hx. }
    destruct (perform_all_mild (on_timer P cb (prog w0)) w0) as [A1 A2];
      [now apply early_mild | exact R | exact Hc |].
    split; [now apply alive_not_crashed | auto].
Qed.

Lemma fire_one_armed due cb rest (w : world) :
  armed w -> running w = true -> timers w = (due, cb) :: rest ->
  armed (fire_one P due cb rest w).
Proof.
  intros A R Ht.
  destruct (fire_one_ws due cb rest w A R Ht) as [_ Hc].
  unfold armed_safely in *. rewrite fire_one_timers. rewrite Ht in A.
  inversion A as [|? ? _ Hrest]; subst.
  revert Hrest. apply Forall_impl. intros x. destruct (late (snd x)); auto.
Qed.

Lemma deliver_open_armed (w : world) :
  armed w -> running w = true ->
  armed (deliver P SigOpen w) /\ running (deliver P SigOpen w) = true.
Proof.
  intros A R. cbn [deliver]. destruct (ws w) eqn:E; [|auto..].
  destruct (open_calm (prog w)) as [Hc Ha].
  destruct (handle_calm P (on_open P (prog w)) (set_ws P Open w) Hc R
              ltac:(cbn; discriminate))
    as (R' & _ & _ & _ & _ & Hws & Htm).
  rewrite Ha in Htm. cbn [fold_left] in Htm.
  split; [|exact R'].
  unfold armed_safely in *. rewrite Htm. cbn [timers set_ws].
  revert A. apply Forall_impl. intros x. destruct (late (snd x)); [auto|].
  intros _. rewrite Hws. cbn [ws set_ws]. now destruct (closes _).
Qed.

Lemma deliver_armed sig (w : world) :
  armed w -> running w = true -> armed (deliver P sig w).
Proof.
  intros A R. destruct sig as [|data|msg|].
  - now apply deliver_open_armed.
  - destruct (ws w) eqn:E.
    { cbn [deliver]. now rewrite E. }
    all: rewrite deliver_message by congruence.
    all: unfold handle; apply act_all_armed;
      [cbn; congruence | exact A | apply message_arms].
  - cbn [deliver].
    destruct (perform_all_raises_nothing (on_error P msg) w
                (error_raises_nothing msg) (alive_not_crashed w R)) as [A1 A2].
    apply (armed_change w); auto. apply perform_all_timers.
  - cbn [deliver].
    destruct (perform_all_raises_nothing (on_close P) w
                close_raises_nothing (alive_not_crashed w R)) as [A1 A2].
    apply (armed_change w); auto. apply perform_all_timers.
Qed.

Lemma boot_armed : armed (boot P).
Proof.
  unfold armed_safely. cbn [timers boot]. revert start_late.
  apply Forall_impl. intros x [H1 H2]. now rewrite H1.
Qed.

(** Every timer of a run was armed safely. *)
Lemma armed_run tr : armed (run P (boot P) tr).
Proof.
  apply (run_invariant P armed).
  - apply fire_one_armed.
  - intros t w A _ _. exact A.
  - intros sig w A R. now apply deliver_armed.
  - exact start_in_order.
  - exact boot_armed.
Qed.

(** Neither a timer nor a handler changes the variables of the script
    behind the back of the message and open handlers. *)
Lemma perform_all_prog es : forall w : world, prog (perform_all P es w) = prog w.
Proof.
  induction es as [|e es IH]; intros w; cbn [perform_all]; [reflexivity|].
  destruct (running w); [|reflexivity]. rewrite IH.
  destruct e; cbn; try reflexivity. now destruct (ws w).
Qed.

Lemma act_all_prog acts : forall w : world, prog (act_all P acts w) = prog w.
Proof.
  induction acts as [|a acts IH]; intros w; cbn [act_all]; [reflexivity|].
  destruct (running w); [|reflexivity]. rewrite IH.
  destruct a as [e|cb d]; [|reflexivity].
  destruct e; cbn; try reflexivity. now destruct (ws w).
Qed.

Lemma fire_one_prog due cb rest (w : world) :
  prog (fire_one P due cb rest w) = prog w.
Proof. unfold fire_one. now rewrite perform_all_prog. Qed.

(** Frames on which the message handler is calm never make the script
    raise. *)
Section Safe.
Variable J : vars P -> Prop.
Variable safe : signal -> bool.
Hypothesis good : calm_on P J safe.

Lemma deliver_safe sig (w : world) :
  safe sig = true -> J (prog w) -> running w = true ->
  status (deliver P sig w) <> Crashed /\ J (prog (deliver P sig w)).
Proof.
  destruct good as (_ & J_open & J_message).
  intros Hs Hj R. destruct sig as [|data|msg|].
  - cbn [deliver]. destruct (ws w) eqn:E;
      [|split; [now apply alive_not_crashed | exact Hj]..].
    destruct (open_calm (prog w)) as [Hc _].
    destruct (handle_calm P (on_open P (prog w)) (set_ws P Open w) Hc R
                ltac:(cbn; discriminate)) as (R' & Hp & _).
    split; [now apply alive_not_crashed|]. rewrite Hp. now apply J_open.
  - destruct (ws w) eqn:E.
    { cbn [deliver]. rewrite E. split; [now apply alive_not_crashed | exact Hj]. }
    all: rewrite deliver_message by congruence.
    all: destruct (J_message (epoch P + Z.of_N (now w))%Z data (prog w) Hj Hs)
           as [Hc Hj'].
    all: destruct (handle_calm P _ w Hc R ltac:(congruence)) as (R' & Hp & _).
    all: split; [now apply alive_not_crashed | now rewrite Hp].
  - cbn [deliver]. rewrite perform_all_prog. split; [|exact Hj].
    now apply perform_all_raises_nothing; [|apply alive_not_crashed].
  - cbn [deliver]. rewrite perform_all_prog. split; [|exact Hj].
    now apply perform_all_raises_nothing; [|apply alive_not_crashed].
Qed.

Lemma never_crashes tr :
  all_signals safe tr = true -> status (run P (boot P) tr) <> Crashed.
Proof.
  enough (forall w : world,
             in_order (timers w) ->
             armed w /\ status w <> Crashed /\ J (prog w) ->
             all_signals safe tr = true ->
             armed (run P w tr) /\ status (run P w tr) <> Crashed
             /\ J (prog (run P w tr))) as H.
  { intros Ha. apply H; [exact start_in_order | | exact Ha].
    split; [exact boot_armed|]. split; [discriminate | apply good]. }
  induction tr as [|[dt sig] tr IH]; intros w Hs Hi Ha; [exact Hi|].
  cbn [all_signals forallb snd] in Ha. apply andb_true_iff in Ha.
  destruct Ha as [Ha1 Ha2].
  destruct (step_invariant_for P (fun w => armed w /\ status w <> Crashed
                                           /\ J (prog w)))
    with (w := w) (dt := dt) (sig := sig) as [H1 H2];
    [| | | exact Hs | exact Hi |].
  - intros due cb rest w' (A & _ & Hj) R Ht. split; [now apply fire_one_armed|].
    split; [now destruct (fire_one_ws due cb rest w' A R Ht)|].
    now rewrite fire_one_prog.
  - intros t w' A _ _. exact A.
  - intros w' (A & _ & Hj) R. split; [now apply deliver_armed|].
    now apply deliver_safe.
  - apply IH; assumption.
Qed.

End Safe.

(** Until the deadline, or for ever when the deadline's callback neither
    sends nor leaves, time alone does not end the process. *)
Lemma fire_alive t pending : forall w : world,
  (t < T)%N \/ (forall cb v, late cb = true ->
                  forallb is_quiet (on_timer P cb v) = true) ->
  Forall (fun x => if late (snd x) then fst x = T else ws w <> Connecting) pending ->
  running w = true -> running (fire P t pending w) = true.
Proof.
  induction pending as [|[due cb] rest IH]; intros w Hb A R; cbn [fire]; [exact R|].
  destruct (N.leb_spec due t) as [Hd|Hd]; [|exact R].
  inversion A as [|? ? Hx Hrest]; subst. cbn [fst snd] in Hx.
  assert (R1 : running (fire_one P due cb rest w) = true
               /\ (ws w <> Connecting -> ws (fire_one P due cb rest w) <> Connecting)).
  { unfold fire_one.
    set (w0 := set_now P (N.max (now w) due) (set_timers P rest w)).
    destruct (late cb) eqn:L.
    - destruct Hb as [Hb|Hb]; [lia|].
      split; [apply perform_all_quiet; [now apply Hb | exact R]|].
      destruct (perform_all_raises_nothing (on_timer P cb (prog w0)) w0) as [A1 A2];
        [now apply late_raises_nothing | exact (alive_not_crashed w R) |].
      exact A2.
    - destruct (perform_all_mild (on_timer P cb (prog w0)) w0) as [A1 A2];
        [now apply early_mild | exact R | exact Hx |]. auto. }
  destruct R1 as [R1 Hc]. rewrite R1. apply IH; [exact Hb | | exact R1].
  revert Hrest. apply Forall_impl. intros x. destruct (late (snd x)); auto.
Qed.

Lemma advance_alive t (w : world) :
  (t < T)%N \/ (forall cb v, late cb = true ->
                  forallb is_quiet (on_timer P cb v) = true) ->
  armed w -> running w = true -> running (advance P t w) = true.
Proof.
  intros Hb A R. unfold advance.
  rewrite (fire_alive t (timers w) w Hb A R).
  exact (fire_alive t (timers w) w Hb A R).
Qed.

End Sound.

Section Behaved.
Variable P : script.
Variable late : timer P -> bool.
Variable T : N.
Hypothesis good : well_armed P late T.

Lemma behaved_armed tr : armed_safely P late T (run P (boot P) tr).
Proof.
  destruct good as (H1 & H2 & H3 & H4 & H5 & H6 & H7 & H8).
  now apply armed_run.
Qed.

Lemma behaved_never_crashes J safe tr :
  calm_on P J safe ->
  all_signals safe tr = true -> status (run P (boot P) tr) <> Crashed.
Proof.
  destruct good as (H1 & H2 & H3 & H4 & H5 & H6 & H7 & H8).
  intros C. now apply (never_crashes P late T H1 H2 H3 H4 H5 H6 H7 H8 J safe C).
Qed.

Lemma behaved_advance tr t :
  (t < T)%N \/ soft_deadline P late ->
  running (run P (boot P) tr) = true ->
  running (advance P t (run P (boot P) tr)) = true.
Proof.
  intros Hb R. pose proof (behaved_armed tr) as A.
  destruct good as (H1 & H2 & H3 & H4 & H5 & H6 & H7 & H8).
  now apply (advance_alive P late T).
Qed.

(** The signal that follows a run reaches the process when time has not
    ended it. *)
Lemma behaved_step tr dt sig :
  (duration tr + dt < T)%N \/ soft_deadline P late ->
  running (run P (boot P) tr) = true ->
  run P (boot P) (tr ++ [(dt, sig)])
  = deliver P sig (advance P (now (run P (boot P) tr) + dt) (run P (boot P) tr)).
Proof.
  intros Hb R. rewrite run_snoc. unfold step. rewrite R. cbn [fst snd].
  rewrite behaved_advance; [reflexivity | | exact R].
  destruct Hb as [Hb|Hb]; [left | now right].
  rewrite Clock.run_now by exact R. cbn [now boot]. lia.
Qed.

End Behaved.

End Liveness.

(** ** list-groups.js: reactions *)

Module ListReactions.
Import ListGroups ListSpec Conduct LoopFacts.

(** *** The lines of the listing *)

Lemma show_group_printable i g :
  printable g = true -> show_group i g = map say (entry i g).
Proof.
  unfold printable, show_group, entry. intros H.
  apply andb_true_iff in H. destruct H as [H H3].
  apply andb_true_iff in H. destruct H as [H1 H2].
  apply negb_true_iff in H1, H2, H3. rewrite H1, H2.
  destruct (truthy (description g)); [|reflexivity].
  cbn [andb] in H3. now rewrite H3.
Qed.

Lemma show_group_cut i g :
  printable g = false -> show_group i g = (map say (cut_entry i g) ++ [Throw])%list.
Proof.
  unfold printable, show_group, cut_entry. intros H.
  destruct (toString_raises (name g)); [reflexivity|].
  destruct (toString_raises (id g)); [reflexivity|].
  cbn [negb andb] in H. apply negb_false_iff, andb_true_iff in H.
  destruct H as [H1 H2]. now rewrite H1, H2.
Qed.

Lemma entries_cons i g gs :
  entries i (g :: gs) = (entry i g ++ entries (S i) gs)%list.
Proof. reflexivity. Qed.

Lemma entries_app gs1 : forall i gs2,
  entries i (gs1 ++ gs2)
  = (entries i gs1 ++ entries (i + List.length gs1) gs2)%list.
Proof.
  induction gs1 as [|g gs1 IH]; intros i gs2.
  - cbn [app List.length]. now rewrite Nat.add_0_r.
  - cbn [app List.length]. rewrite !entries_cons, IH, <- app_assoc.
    now rewrite Nat.add_succ_r.
Qed.

Lemma show_groups_printable gs : forall i,
  forallb printable gs = true -> show_groups i gs = map say (entries i gs).
Proof.
  induction gs as [|g gs IH]; intros i H; [reflexivity|].
  cbn [forallb] in H. apply andb_true_iff in H. destruct H as [H1 H2].
  cbn [show_groups]. rewrite entries_cons, map_app.
  now rewrite (show_group_printable i g H1), (IH (S i) H2).
Qed.

(** When a record cannot be printed the listing stops inside the first
    such record. *)
Lemma show_groups_cut gs : forall i,
  forallb printable gs = false ->
  exists before bad after,
    gs = (before ++ bad :: after)%list
    /\ forallb printable before = true /\ printable bad = false
    /\ exists rest,
         show_groups i gs
         = (map say (entries i before ++ cut_entry (i + List.length before) bad)
            ++ Throw :: rest)%list.
Proof.
  induction gs as [|g gs IH]; intros i H; [discriminate|].
  cbn [forallb] in H. destruct (printable g) eqn:Hg.
  - cbn [andb] in H. destruct (IH (S i) H) as (before & bad & after & E & Hb & Hbad & rest & Hr).
    exists (g :: before), bad, after. subst gs.
    split; [reflexivity|]. split; [cbn; now rewrite Hg|]. split; [exact Hbad|].
    exists rest. cbn [show_groups]. rewrite Hr, (show_group_printable i g Hg).
    cbn [List.length]. rewrite entries_cons, Nat.add_succ_r.
    now rewrite <- !app_assoc, !map_app, <- !app_assoc.
  - exists [], g, gs. split; [reflexivity|]. split; [reflexivity|].
    split; [exact Hg|]. exists (show_groups (S i) gs).
    cbn [show_groups List.length entries seq combine map List.concat app].
    rewrite Nat.add_0_r, (show_group_cut i g Hg), <- app_assoc. reflexivity.
Qed.

Section Listing.
Variable cfg : config.
Abbreviation P := (program cfg).

(** *** What a list of effects does *)

Lemma act_all_do (es : list effect) : forall w : world P,
  act_all P (map Do es) w = perform_all P es w.
Proof.
  induction es as [|e es IH]; intros w; cbn [map act_all perform_all]; [reflexivity|].
  destruct (running w); [|reflexivity]. apply IH.
Qed.

Lemma perform_says lines : forall (rest : list effect) (w : world P),
  running w = true ->
  perform_all P (map say lines ++ rest) w
  = perform_all P rest
      (Build_world P (prog w) (ws w) (status w) (now w) (timers w) (wire w)
         (console w ++ lines)).
Proof.
  induction lines as [|[s args] lines IH]; intros rest w R.
  - cbn [map app]. rewrite app_nil_r. now destruct w.
  - cbn [map app perform_all]. rewrite R. rewrite IH by exact R.
    unfold say. cbn [fst snd perform print prog ws status now timers wire console].
    now rewrite <- app_assoc.
Qed.

Lemma console_then_close (lines : list (stream * list value)) :
  let acts : list (action (Loop.timer P)) := map Do (map say lines ++ [WsClose]) in
  calm acts = true /\ sends acts = [] /\ arms acts = [] /\ closes acts = true
  /\ prints acts = lines.
Proof.
  cbv zeta. induction lines as [|[s args] lines IH].
  - cbn. auto.
  - destruct IH as (A & B & C & D & E).
    cbn [app map calm sends arms closes existsb prints say fst snd orb].
    rewrite E. auto.
Qed.

Lemma silent_effects (es : list effect) :
  forallb sends_nothing es = true ->
  let acts : list (action (Loop.timer P)) := map Do es in
  sends acts = [] /\ arms acts = [].
Proof.
  cbv zeta. induction es as [|e es IH]; intros H; [auto|].
  cbn [forallb] in H. apply andb_true_iff in H. destruct H as [H1 H2].
  destruct (IH H2) as [A B]. destruct e; try discriminate H1; cbn; auto.
Qed.

Lemma show_groups_silent gs : forall i,
  forallb sends_nothing (show_groups i gs) = true.
Proof.
  induction gs as [|g gs IH]; intros i; cbn [show_groups]; [reflexivity|].
  rewrite forallb_app, IH, andb_true_r. unfold show_group.
  destruct (toString_raises (name g)); [reflexivity|].
  destruct (toString_raises (id g)); [reflexivity|].
  destruct (truthy (description g)); [|reflexivity].
  now destruct (toString_raises (description g)).
Qed.

Lemma listing_silent gs :
  forallb sends_nothing (listing gs ++ [WsClose]) = true.
Proof.
  rewrite forallb_app. cbn [forallb sends_nothing andb]. rewrite andb_true_r.
  destruct gs as [|g gs]; [reflexivity|].
  cbn [listing forallb sends_nothing andb]. apply show_groups_silent.
Qed.

(** A reaction that neither sends nor arms a timer leaves the wire and
    the timers as they are, wherever it stops. *)
Lemma handle_silent (r : Loop.vars P * list (action (Loop.timer P))) (w : world P) :
  sends (snd r) = [] -> arms (snd r) = [] ->
  let w' := handle P r w in
  wire w' = wire w /\ timers w' = timers w /\ prog w' = fst r
  /\ (ws w' = ws w \/ ws w' = Closing).
Proof.
  destruct r as [v acts]. cbn [fst snd]. intros Hs Ha. cbv zeta. unfold handle.
  cbn [fst snd].
  enough (forall w0 : world P,
             wire (act_all P acts w0) = wire w0
             /\ timers (act_all P acts w0) = timers w0
             /\ prog (act_all P acts w0) = prog w0
             /\ (ws (act_all P acts w0) = ws w0 \/ ws (act_all P acts w0) = Closing))
    as H by apply (H (set_prog P v w)).
  induction acts as [|a acts IH]; intros w0; cbn [act_all]; [auto|].
  destruct (running w0); [|auto].
  destruct a as [e|cb d]; [|discriminate Ha].
  assert (Hs' : sends acts = []) by (destruct e; [discriminate Hs | exact Hs..]).
  destruct (IH Hs' Ha (act P (Do e) w0)) as (A & B & C & D).
  rewrite A, B, C.
  destruct e; [discriminate Hs | ..]; cbn in *; auto.
  destruct D as [D|D]; auto.
Qed.

Lemma listing_lines gs :
  forallb printable gs = true ->
  listing gs
  = map say (match gs with
             | [] => [(Out, [VStr "No groups found on this relay."])]
             | _ => header gs :: entries 0 gs
             end).
Proof.
  intros H. destruct gs as [|g gs]; [reflexivity|].
  unfold listing. now rewrite (show_groups_printable (g :: gs) 0 H).
Qed.

(** The reaction of the message handler, branch by branch. *)
Lemma list_reaction clock data (v : vars) :
  on_message cfg clock data v
  = match fields_of data with
    | None => (v, [Do Throw])
    | Some at_ =>
        match (if is_str (at_ 0%nat) "AUTH" && negb (authenticated v)
               then key cfg else None) with
        | Some k =>
            ({| groups := groups v; authenticated := true |},
             [Do (Console Out [VStr "Authenticating..."]);
              Do (Send (AuthSubmit
                    (finalizeEvent
                       (auth_template (relayUrl cfg) (at_ 1%nat) clock) k)));
              SetTimeout SendGroups 300])
        | None =>
            if is_str (at_ 0%nat) "EVENT" && is_str (at_ 1%nat) "groups" then
              ({| groups := (groups v
                             ++ match reconstruct cfg (at_ 2%nat) with
                                | Some g => [g]
                                | None => []
                                end)%list;
                  authenticated := authenticated v |}, [])
            else if is_str (at_ 0%nat) "EOSE" then
              (v, map Do (listing (groups v) ++ [WsClose])%list)
            else if is_str (at_ 0%nat) "OK" && truthy (at_ 1%nat)
                    && negb (truthy (at_ 2%nat)) then
              (v, [Do (Console Err [VStr "Authentication failed:"; at_ 3%nat])])
            else (v, [])
        end
    end.
Proof.
  unfold on_message, fields_of.
  destruct (JSON_parse data) as [response|]; [|reflexivity].
  destruct (indexer response) as [at_|]; [|reflexivity].
  destruct (if is_str (at_ 0%nat) "AUTH" && negb (authenticated v)
            then key cfg else None); [reflexivity|].
  destruct (is_str (at_ 0%nat) "EVENT" && is_str (at_ 1%nat) "groups").
  - destruct (reconstruct cfg (at_ 2%nat)); [reflexivity|].
    rewrite app_nil_r. now destruct v.
  - destruct (is_str (at_ 0%nat) "EOSE"); [|reflexivity].
    unfold listing. now destruct (groups v).
Qed.

(** A reaction is the answer to the first challenge, or it neither sends
    nor arms a timer. *)
Lemma list_reaction_shape clock data (v : vars) :
  let r := Loop.on_message P clock data v in
  let acts : list (action (Loop.timer P)) := snd r in
  (exists k at_,
      key cfg = Some k /\ authenticated v = false
      /\ fields_of data = Some at_ /\ is_str (at_ 0%nat) "AUTH" = true
      /\ fst r = {| groups := groups v; authenticated := true |}
      /\ calm acts = true
      /\ sends acts
         = [AuthSubmit
              (finalizeEvent
                 (auth_template (relayUrl cfg) (at_ 1%nat) clock) k)]
      /\ arms acts = [(SendGroups, 300%N)] /\ closes acts = false)
  \/ (sends acts = [] /\ arms acts = []
      /\ authenticated (fst r) = authenticated v
      /\ (key cfg = None \/ authenticated v = true
          \/ tagged data "AUTH" = false)).
Proof.
  cbn [Loop.on_message program]. rewrite list_reaction. unfold tagged.
  destruct (fields_of data) as [at_|] eqn:Ef; [|right; cbn; auto 10].
  assert (Hrest :
    key cfg = None \/ authenticated v = true \/ is_str (at_ 0%nat) "AUTH" = false ->
    let r := (if is_str (at_ 0%nat) "EVENT" && is_str (at_ 1%nat) "groups" then
              ({| groups := (groups v
                             ++ match reconstruct cfg (at_ 2%nat) with
                                | Some g => [g]
                                | None => []
                                end)%list;
                  authenticated := authenticated v |}, [])
            else if is_str (at_ 0%nat) "EOSE" then
              (v, map Do (listing (groups v) ++ [WsClose])%list)
            else if is_str (at_ 0%nat) "OK" && truthy (at_ 1%nat)
                    && negb (truthy (at_ 2%nat)) then
              (v, [Do (Console Err [VStr "Authentication failed:"; at_ 3%nat])])
            else (v, [])) : Loop.vars P * list (action (Loop.timer P)) in
    sends (snd r) = [] /\ arms (snd r) = []
    /\ authenticated (fst r) = authenticated v
    /\ (key cfg = None \/ authenticated v = true
        \/ is_str (at_ 0%nat) "AUTH" = false)).
  { intros Hk. cbv zeta.
    destruct (is_str (at_ 0%nat) "EVENT" && is_str (at_ 1%nat) "groups");
      [cbn; auto|].
    destruct (is_str (at_ 0%nat) "EOSE").
    { destruct (silent_effects (listing (groups v) ++ [WsClose])%list
                  (listing_silent _)) as [A B].
      cbn [fst snd]. auto. }
    destruct (is_str (at_ 0%nat) "OK" && truthy (at_ 1%nat)
              && negb (truthy (at_ 2%nat))); cbn; auto. }
  cbv zeta in Hrest.
  destruct (is_str (at_ 0%nat) "AUTH") eqn:Ea; cbn [andb].
  - destruct (authenticated v) eqn:Eau; cbn [negb].
    + right. apply Hrest. auto.
    + destruct (key cfg) as [k|] eqn:Ek.
      * left. exists k, at_. cbn. repeat split; auto.
      * right. apply Hrest. auto.
  - right. apply Hrest. auto.
Qed.

(** With records that can all be printed, a frame that can be answered
    and adds no other record gets a calm reaction. *)
Lemma list_calm_on :
  calm_on P (fun v => forallb printable (groups v) = true)
          (fun sig => answerable sig && presentable cfg sig).
Proof.
  split; [reflexivity|]. split.
  { intros v H. cbn [Loop.on_open program]. exact H. }
  intros clock data v Hj Hs. apply andb_true_iff in Hs. destruct Hs as [Hs1 Hs2].
  cbn [Loop.on_message program]. rewrite list_reaction.
  cbn [answerable presentable] in Hs1, Hs2. unfold labelled in Hs2.
  destruct (fields_of data) as [at_|]; [|discriminate].
  destruct (if is_str (at_ 0%nat) "AUTH" && negb (authenticated v)
            then key cfg else None); [split; [reflexivity | exact Hj]|].
  destruct (is_str (at_ 0%nat) "EVENT" && is_str (at_ 1%nat) "groups").
  { split; [reflexivity|]. cbn [fst groups]. rewrite forallb_app, Hj.
    destruct (reconstruct cfg (at_ 2%nat)); [cbn; now rewrite Hs2 | reflexivity]. }
  destruct (is_str (at_ 0%nat) "EOSE").
  { split; [|exact Hj]. cbn [snd]. rewrite (listing_lines _ Hj).
    apply console_then_close. }
  destruct (is_str (at_ 0%nat) "OK" && truthy (at_ 1%nat)
            && negb (truthy (at_ 2%nat))); split; auto.
Qed.

End Listing.

End ListReactions.

(** ** How the three scripts end *)

Module Endings.
Import Conduct LoopFacts Liveness Clock.

Lemma answerable_readable tr :
  all_signals answerable tr = true -> all_signals readable tr = true.
Proof.
  unfold all_signals. rewrite !forallb_forall. intros H ev Hin.
  specialize (H ev Hin). destruct (snd ev) as [|data|msg|]; try reflexivity.
  cbn [answerable readable] in *. now destruct (fields_of data).
Qed.

Lemma delete_well_armed (cfg : DeleteGroup.config) :
  well_armed (DeleteGroup.program cfg) delete_late 15000.
Proof.
  split; [repeat constructor|]. split; [repeat constructor|].
  split; [intros [] v H; [discriminate | reflexivity]|].
  split; [intros [] v H; [reflexivity | discriminate]|].
  split; [intros v; split; reflexivity|].
  split; [|split; [reflexivity | reflexivity]].
  intros clock data v.
  pose proof (DeleteFacts.delete_reaction_shape cfg clock data v) as H.
  cbv zeta in *.
  destruct H as [[_ Ha]|[_ [(_ & _ & Ha & _)|(_ & _ & Ha)]]];
    rewrite Ha; repeat constructor.
Qed.

Lemma delete_calm_on (cfg : DeleteGroup.config) :
  calm_on (DeleteGroup.program cfg) (fun _ => True) readable.
Proof.
  split; [exact I|]. split; [auto|].
  intros clock data v _ Hs. split; [|exact I].
  pose proof (DeleteFacts.delete_reaction_shape cfg clock data v) as H.
  cbv zeta in H. cbn [readable] in Hs.
  destruct H as [[Hf _]|[Hc _]]; [now rewrite Hf in Hs | exact Hc].
Qed.

Lemma create_arms (cfg : CreateGroup.config) clock data v :
  Forall (fun x => create_late (fst x) = false)
         (arms (snd (on_message (CreateGroup.program cfg) clock data v))).
Proof.
  cbn [on_message CreateGroup.program]. rewrite CreateFacts.create_reaction.
  destruct (fields_of data) as [at_|]; [|constructor].
  destruct (is_str (at_ 0%nat) "AUTH"); [repeat constructor|].
  destruct (is_str (at_ 0%nat) "EVENT" && is_str (at_ 1%nat) "check");
    [constructor|].
  destruct (is_str (at_ 0%nat) "EOSE" && is_str (at_ 1%nat) "check").
  { destruct (CreateGroup.groupExists v); constructor. }
  destruct (is_str (at_ 0%nat) "OK"); [|constructor].
  destruct (is_str (at_ 1%nat) (id (CreateGroup.signedEvent cfg))).
  - destruct (truthy (at_ 2%nat)); [|constructor].
    destruct (CreateGroup.inviteCode cfg) as [c|]; [|constructor].
    destruct (CreateGroup.isPrivate cfg && negb (c =? "")); constructor.
  - destruct (CreateGroup.isPrivate cfg); [|constructor].
    destruct (truthy (at_ 2%nat)); constructor.
Qed.

Lemma create_well_armed (cfg : CreateGroup.config) :
  well_armed (CreateGroup.program cfg) create_late 15000.
Proof.
  split; [repeat constructor|]. split; [repeat constructor|].
  split; [intros [] v H; [discriminate | reflexivity]|].
  split; [intros [] v H; [reflexivity | discriminate]|].
  split; [intros v; split; reflexivity|].
  split; [|split; [reflexivity | reflexivity]].
  intros clock data v. apply create_arms.
Qed.

Lemma create_calm_on (cfg : CreateGroup.config) :
  calm_on (CreateGroup.program cfg) (fun _ => True) readable.
Proof.
  split; [exact I|]. split; [auto|].
  intros clock data v _ Hs. split; [|exact I].
  pose proof (CreateFacts.create_reaction_shape cfg clock data v) as H.
  cbv zeta in H. cbn [readable] in Hs.
  destruct H as [[Hf _]|[Hc _]]; [now rewrite Hf in Hs | exact Hc].
Qed.

Lemma list_well_armed (cfg : ListGroups.config) :
  well_armed (ListGroups.program cfg) list_late 5000.
Proof.
  split; [repeat constructor|]. split; [repeat constructor|].
  split.
  { intros [] v H; [discriminate|].
    cbn. now destruct (ListGroups.groups v). }
  split; [intros [] v H; [reflexivity | discriminate]|].
  split.
  { intros v. cbn. now destruct (ListGroups.key cfg). }
  split; [|split; [reflexivity | reflexivity]].
  intros clock data v.
  pose proof (ListReactions.list_reaction_shape cfg clock data v) as H.
  cbv zeta in H.
  destruct H as [(k & at_ & _ & _ & _ & _ & _ & _ & _ & Ha & _)|(_ & Ha & _)];
    rewrite Ha; repeat constructor.
Qed.

Lemma list_soft_deadline (cfg : ListGroups.config) :
  soft_deadline (ListGroups.program cfg) list_late.
Proof.
  intros [] v H; [discriminate|]. cbn. now destruct (ListGroups.groups v).
Qed.

Lemma all_signals_both f g tr :
  all_signals f tr = true -> all_signals g tr = true ->
  all_signals (fun sig => f sig && g sig) tr = true.
Proof.
  unfold all_signals. rewrite !forallb_forall. intros Hf Hg ev Hin.
  now rewrite (Hf ev Hin), (Hg ev Hin).
Qed.

(** X5.  A frame that can be read never makes delete-group or
    create-group raise: with frames that parse to something other than
    [null], and challenges that carry a string, neither script ends by an
    uncaught exception; in particular [ws.send] is never called before the
    socket is open.  The same holds of list-groups when, in addition, no
    EVENT frame brings a record whose name, identifier or description
    cannot be turned into a string: the listing would raise on it. *)
Theorem readable_frames_never_crash
    (dcfg : DeleteGroup.config) (ccfg : CreateGroup.config)
    (lcfg : ListGroups.config) (tr : list (N * signal)) :
  all_signals answerable tr = true ->
  let D := DeleteGroup.program dcfg in
  let C := CreateGroup.program ccfg in
  let L := ListGroups.program lcfg in
  status (run D (boot D) tr) <> Crashed
  /\ status (run C (boot C) tr) <> Crashed
  /\ (all_signals (ListSpec.presentable lcfg) tr = true ->
      status (run L (boot L) tr) <> Crashed).
Proof.
  intros H. pose proof (answerable_readable tr H) as Hr. cbv zeta.
  split; [|split].
  - exact (behaved_never_crashes _ _ _ (delete_well_armed dcfg) _ _ tr
             (delete_calm_on dcfg) Hr).
  - exact (behaved_never_crashes _ _ _ (create_well_armed ccfg) _ _ tr
             (create_calm_on ccfg) Hr).
  - intros Hp.
    exact (behaved_never_crashes _ _ _ (list_well_armed lcfg) _ _ tr
             (ListReactions.list_calm_on lcfg) (all_signals_both _ _ tr H Hp)).
Qed.

Lemma readable_frames_witness :
  let D := DeleteGroup.program Demo.demo_delete in
  let C := CreateGroup.program (Demo.demo_create true) in
  let L := ListGroups.program (Demo.demo_list (Some Demo.demo_key)) in
  status (run D (boot D) Samples.odd_traffic) <> Crashed
  /\ status (run C (boot C) Samples.odd_traffic) <> Crashed
  /\ status (run L (boot L) Samples.odd_traffic) <> Crashed.
Proof.
  destruct (readable_frames_never_crash Demo.demo_delete (Demo.demo_create true)
              (Demo.demo_list (Some Demo.demo_key)) Samples.odd_traffic
              ltac:(vm_compute; reflexivity)) as (A & B & C).
  split; [exact A|]. split; [exact B|].
  apply C. vm_compute. reflexivity.
Defined.

Lemma exit_zero {P : script} (w : world P) :
  on_close P = [Exit 0] -> running w = true ->
  status (deliver P SigClose w) = Exited 0.
Proof.
  intros H R. cbn [deliver]. rewrite H. cbn [perform_all]. now rewrite R.
Qed.

Lemma duration_app tr1 tr2 : duration (tr1 ++ tr2) = (duration tr1 + duration tr2)%N.
Proof.
  unfold duration. induction tr1 as [|ev tr1 IH]; cbn [app fold_right]; [reflexivity|].
  rewrite IH. lia.
Qed.

Lemma timely_close (P : script) late tr dt :
  well_armed P late 15000 -> on_close P = [Exit 0] ->
  running (run P (boot P) tr) = true -> (duration tr + dt < 15000)%N ->
  let w := run P (boot P) (tr ++ [(dt, SigClose)]) in
  status w = Exited 0
  /\ forall x, In x (console (run P (boot P) tr)) -> In x (console w).
Proof.
  intros G Hc R H. cbv zeta.
  rewrite (behaved_step _ _ _ G) by auto.
  assert (Ra : running (advance P (now (run P (boot P) tr) + dt)
                          (run P (boot P) tr)) = true).
  { apply (behaved_advance _ _ _ G); [left | exact R].
    rewrite run_now by exact R. cbn [now boot]. lia. }
  split; [now apply exit_zero|].
  intros x Hx. cbn [deliver]. rewrite Hc. cbn [perform_all]. rewrite Ra.
  cbn. now apply console_stays_advance.
Qed.

(** X6.  The exit status says how the transport ended, not what the relay
    answered: in every run of delete-group and create-group in which the
    close signal comes while the process is alive and before the 15 s
    deadline, and in every run of list-groups in which it comes while the
    process is alive, the process leaves with status 0, whatever was
    received before. *)
Theorem close_signal_exits_with_zero
    (dcfg : DeleteGroup.config) (ccfg : CreateGroup.config)
    (lcfg : ListGroups.config) :
  let D := DeleteGroup.program dcfg in
  let C := CreateGroup.program ccfg in
  let L := ListGroups.program lcfg in
  (forall tr dt,
      running (run D (boot D) tr) = true -> (duration tr + dt < 15000)%N ->
      status (run D (boot D) (tr ++ [(dt, SigClose)])) = Exited 0)
  /\ (forall tr dt,
        running (run C (boot C) tr) = true -> (duration tr + dt < 15000)%N ->
        status (run C (boot C) (tr ++ [(dt, SigClose)])) = Exited 0)
  /\ (forall tr dt,
        running (run L (boot L) tr) = true ->
        status (run L (boot L) (tr ++ [(dt, SigClose)])) = Exited 0).
Proof.
  cbv zeta. split; [|split]; intros tr dt R.
  - intros H.
    now apply (timely_close (DeleteGroup.program dcfg) delete_late tr dt (delete_well_armed dcfg) eq_refl).
  - intros H.
    now apply (timely_close (CreateGroup.program ccfg) create_late tr dt (create_well_armed ccfg) eq_refl).
  - rewrite (behaved_step _ _ _ (list_well_armed lcfg));
      [|right; apply list_soft_deadline | exact R].
    apply exit_zero; [reflexivity|].
    apply (behaved_advance _ _ _ (list_well_armed lcfg));
      [right; apply list_soft_deadline | exact R].
Qed.

(** A message that follows a run, when time has not ended the process and
    the socket has opened. *)
Lemma timely_message (P : script) late tr dt data :
  well_armed P late 15000 ->
  running (run P (boot P) tr) = true -> ws (run P (boot P) tr) <> Connecting ->
  (duration tr + dt < 15000)%N ->
  exists w : world P,
    running w = true /\ ws w <> Connecting
    /\ (forall x, In x (console (run P (boot P) tr)) -> In x (console w))
    /\ prog w = prog (run P (boot P) tr)
    /\ run P (boot P) (tr ++ [(dt, SigMessage data)])
       = handle P (on_message P (epoch P + Z.of_N (now w)) data (prog w)) w.
Proof.
  intros G R Hc H.
  exists (advance P (now (run P (boot P) tr) + dt) (run P (boot P) tr)).
  assert (Ra : running (advance P (now (run P (boot P) tr) + dt)
                          (run P (boot P) tr)) = true).
  { apply (behaved_advance _ _ _ G); [left | exact R].
    rewrite run_now by exact R. cbn [now boot]. lia. }
  split; [exact Ra|]. split; [now apply advance_connected|].
  split; [intros x; apply console_stays_advance|].
  split.
  - apply (advance_stable P (fun w' => prog w' = prog (run P (boot P) tr))); auto.
    intros e w' E. destruct e; cbn; auto. destruct (ws w'); cbn; auto.
  - rewrite (behaved_step _ _ _ G) by auto.
    apply deliver_message. now apply advance_connected.
Qed.

(** X7.  Failures leave with status 0.  When the relay rejects the delete
    event, or the create event, or when the group already exists, the
    script prints the failure and closes the socket; the close signal
    that follows, before the deadline, ends the process with status 0
    like a success. *)
Theorem failures_exit_with_zero
    (dcfg : DeleteGroup.config) (ccfg : CreateGroup.config) :
  let D := DeleteGroup.program dcfg in
  let C := CreateGroup.program ccfg in
  (forall tr dt1 data dt2 accepted message more,
      JSON_parse data
      = Some (VArr (VStr "OK" :: VStr (id (DeleteGroup.signedEvent dcfg))
                    :: accepted :: message :: more)) ->
      truthy accepted = false ->
      running (run D (boot D) tr) = true -> ws (run D (boot D) tr) <> Connecting ->
      (duration tr + dt1 + dt2 < 15000)%N ->
      let w := run D (boot D) (tr ++ [(dt1, SigMessage data); (dt2, SigClose)]) in
      status w = Exited 0
      /\ In (Err, [VStr "❌ Failed to delete group:"; message]) (console w))
  /\ (forall tr dt1 data dt2 accepted message more,
        JSON_parse data
        = Some (VArr (VStr "OK" :: VStr (id (CreateGroup.signedEvent ccfg))
                      :: accepted :: message :: more)) ->
        truthy accepted = false ->
        running (run C (boot C) tr) = true -> ws (run C (boot C) tr) <> Connecting ->
        (duration tr + dt1 + dt2 < 15000)%N ->
        let w := run C (boot C) (tr ++ [(dt1, SigMessage data); (dt2, SigClose)]) in
        status w = Exited 0
        /\ In (Err, [VStr "❌ Failed to create group:"; message]) (console w))
  /\ (forall tr dt1 data dt2,
        labelled data "EOSE" "check" = true ->
        CreateGroup.groupExists (prog (run C (boot C) tr)) = true ->
        running (run C (boot C) tr) = true -> ws (run C (boot C) tr) <> Connecting ->
        (duration tr + dt1 + dt2 < 15000)%N ->
        let w := run C (boot C) (tr ++ [(dt1, SigMessage data); (dt2, SigClose)]) in
        status w = Exited 0
        /\ In (Err, [VStr (CreateGroup.exists_message ccfg)]) (console w)).
Proof.
  cbv zeta. split; [|split].
  - intros tr dt1 data dt2 accepted message more Hp Ha R Hc H.
    destruct (timely_message (DeleteGroup.program dcfg) delete_late tr dt1 data (delete_well_armed dcfg) R Hc)
      as (w1 & R1 & Hc1 & _ & _ & E); [lia|].
    replace (tr ++ [(dt1, SigMessage data); (dt2, SigClose)])%list
      with ((tr ++ [(dt1, SigMessage data)]) ++ [(dt2, SigClose)])%list
      by now rewrite <- app_assoc.
    cbn [on_message DeleteGroup.program] in E. destruct (prog w1).
    rewrite DeleteFacts.delete_reaction, (Session.fields_of_array _ _ Hp) in E.
    cbn [nth is_str String.eqb Ascii.eqb Bool.eqb andb] in E.
    rewrite String.eqb_refl, Ha in E.
    match type of E with
    | _ = handle ?P ?r _ =>
        destruct (handle_calm P r w1 eq_refl R1 Hc1) as (R2 & _ & _ & _ & Hco & _)
    end.
    cbn [snd prints] in Hco. rewrite <- E in R2, Hco.
    destruct (timely_close (DeleteGroup.program dcfg) delete_late (tr ++ [(dt1, SigMessage data)]) dt2
                (delete_well_armed dcfg) eq_refl R2) as [S1 S2].
    { rewrite duration_app. cbn. lia. }
    split; [exact S1|]. apply S2. rewrite Hco. apply in_or_app. right. now left.
  - intros tr dt1 data dt2 accepted message more Hp Ha R Hc H.
    destruct (timely_message (CreateGroup.program ccfg) create_late tr dt1 data (create_well_armed ccfg) R Hc)
      as (w1 & R1 & Hc1 & _ & _ & E); [lia|].
    replace (tr ++ [(dt1, SigMessage data); (dt2, SigClose)])%list
      with ((tr ++ [(dt1, SigMessage data)]) ++ [(dt2, SigClose)])%list
      by now rewrite <- app_assoc.
    cbn [on_message CreateGroup.program] in E.
    rewrite CreateFacts.create_reaction, (Session.fields_of_array _ _ Hp) in E.
    cbn [nth is_str String.eqb Ascii.eqb Bool.eqb andb] in E.
    rewrite String.eqb_refl, Ha in E.
    match type of E with
    | _ = handle ?P ?r _ =>
        destruct (handle_calm P r w1 eq_refl R1 Hc1) as (R2 & _ & _ & _ & Hco & _)
    end.
    cbn [snd prints] in Hco. rewrite <- E in R2, Hco.
    destruct (timely_close (CreateGroup.program ccfg) create_late (tr ++ [(dt1, SigMessage data)]) dt2
                (create_well_armed ccfg) eq_refl R2) as [S1 S2].
    { rewrite duration_app. cbn. lia. }
    split; [exact S1|]. apply S2. rewrite Hco. apply in_or_app. right. now left.
  - intros tr dt1 data dt2 Hl G R Hc H.
    destruct (timely_message (CreateGroup.program ccfg) create_late tr dt1 data (create_well_armed ccfg) R Hc)
      as (w1 & R1 & Hc1 & _ & Hp & E); [lia|].
    replace (tr ++ [(dt1, SigMessage data); (dt2, SigClose)])%list
      with ((tr ++ [(dt1, SigMessage data)]) ++ [(dt2, SigClose)])%list
      by now rewrite <- app_assoc.
    pose proof (CreateFacts.create_reaction_shape ccfg
                  (epoch (CreateGroup.program ccfg) + Z.of_N (now w1)) data (prog w1))
      as Hs.
    rewrite <- Hp in G. cbv zeta in Hs. rewrite Hl, G in Hs.
    destruct Hs as [[Hf _]|(Hcalm & _ & _ & _ & _ & _ & Hpr)].
    { unfold labelled in Hl. now rewrite Hf in Hl. }
    destruct (handle_calm _ _ w1 Hcalm R1 Hc1) as (R2 & _ & _ & _ & Hco & _).
    rewrite Hpr in Hco. rewrite <- E in R2, Hco.
    destruct (timely_close (CreateGroup.program ccfg) create_late (tr ++ [(dt1, SigMessage data)]) dt2
                (create_well_armed ccfg) eq_refl R2) as [S1 S2].
    { rewrite duration_app. cbn. lia. }
    split; [exact S1|]. apply S2. rewrite Hco. apply in_or_app. right. now left.
Qed.

Lemma failures_exit_witness :
  let D := DeleteGroup.program Demo.demo_delete in
  let w := run D (boot D)
             ([(0%N, SigOpen); (10%N, SigMessage (Demo.auth_frame "nonce123"))]
              ++ [(600%N, SigMessage (Demo.ok_frame "d08" false "group not found"));
                  (5%N, SigClose)]) in
  status w = Exited 0
  /\ In (Err, [VStr "❌ Failed to delete group:"; VStr "group not found"]) (console w).
Proof.
  exact (proj1 (failures_exit_with_zero Demo.demo_delete (Demo.demo_create false))
           [(0%N, SigOpen); (10%N, SigMessage (Demo.auth_frame "nonce123"))]
           600%N (Demo.ok_frame "d08" false "group not found") 5%N
           (VBool false) (VStr "group not found") []
           ltac:(vm_compute; reflexivity) eq_refl
           ltac:(vm_compute; reflexivity) ltac:(vm_compute; discriminate)
           ltac:(vm_compute; reflexivity)).
Defined.

End Endings.

(** ** list-groups.js: what is sent *)

Module ListTalk.
Import ListGroups ListSpec Conduct LoopFacts ListReactions.

Section Listing.
Variable cfg : config.
Abbreviation P := (program cfg).

Lemma pending_schedule due cb (ts : list (N * timer)) :
  pending (schedule P due cb ts)
  = (pending ts + if is_send_groups (due, cb) then 1 else 0)%nat.
Proof.
  unfold pending. induction ts as [|[d c] ts IH]; cbn [schedule].
  - destruct cb; reflexivity.
  - destruct (d <=? due)%N.
    + destruct c; cbn [filter is_send_groups snd List.length]; rewrite IH; lia.
    + destruct cb, c; cbn [filter is_send_groups snd List.length]; lia.
Qed.

(** What a timer does to the wire, the socket and the process. *)
Lemma list_timer_effect due cb rest (w : world P) :
  running w = true ->
  let w' := fire_one P due cb rest w in
  timers w' = rest /\ prog w' = prog w /\
  match cb with
  | SendGroups =>
      wire w' = (wire w ++ match ws w with Open => [groups_frame] | _ => [] end)%list
      /\ ws w' = ws w
  | Deadline => wire w' = wire w /\ ws w' = Closing
  end.
Proof.
  intros R. destruct w as [pr r st n ts wi co].
  unfold running in R. cbn in R. destruct st; try discriminate.
  destruct cb.
  - destruct r; cbn; rewrite ?app_nil_r; auto.
  - cbn. destruct (groups pr); cbn; auto.
Qed.

Lemma transport_signal_keeps (es : list effect) (w : world P) :
  forallb raises_nothing es = true ->
  let w' := perform_all P es w in
  wire w' = wire w /\ timers w' = timers w /\ prog w' = prog w
  /\ (ws w' = ws w \/ ws w' = Closing).
Proof.
  cbv zeta. revert w. induction es as [|e es IH]; intros w H; cbn [perform_all]; [auto|].
  cbn [forallb] in H. apply andb_true_iff in H. destruct H as [H1 H2].
  destruct (running w); [|auto].
  destruct (IH (perform P e w) H2) as (A & B & C & D).
  rewrite A, B, C. destruct e; try discriminate H1; cbn in *; auto.
  destruct D as [D|D]; auto.
Qed.

Section Keyed.
Variable k : Signer.
Hypothesis has_key : key cfg = Some k.

Lemma keyed_fire due cb rest (w : world P) :
  keyed cfg k w -> running w = true -> timers w = (due, cb) :: rest ->
  keyed cfg k (fire_one P due cb rest w).
Proof.
  intros (K1 & K2 & K3) R Ht.
  destruct (list_timer_effect due cb rest w R) as (Hr & Hp & He).
  unfold keyed. rewrite Hr, Hp. destruct cb.
  - (* the request *)
    destruct He as [Hw Hws]. rewrite Hw, Hws.
    assert (Hpos : pending (timers w) = S (pending rest)) by now rewrite Ht.
    assert (Hau : authenticated (prog w) = true).
    { destruct (authenticated (prog w)) eqn:E; [reflexivity|].
      destruct (K2 eq_refl) as [_ Z]. lia. }
    destruct (ws w) eqn:E.
    + (* connecting: the wire stays *)
      rewrite app_nil_r. split; [exact K1|]. split; [congruence|].
      intros _ _. destruct (K3 ltac:(discriminate) Hau) as (f & F & [[A B]|[A B]]);
        [|lia].
      exists f. split; [exact F|]. left. split; [exact A | lia].
    + destruct (K3 ltac:(discriminate) Hau) as (f & F & [[A B]|[A B]]); [|lia].
      rewrite A. cbn [app]. split; [|split].
      * right. exists f. auto.
      * congruence.
      * intros _ _. exists f. split; [exact F|]. right. split; [reflexivity | lia].
    + rewrite app_nil_r. split; [exact K1|]. split; [congruence|].
      intros C. now contradiction C.
  - (* the deadline *)
    destruct He as [Hw Hws]. rewrite Hw, Hws.
    assert (Hpos : pending (timers w) = pending rest) by now rewrite Ht.
    split; [exact K1|]. split.
    + intros A. destruct (K2 A) as [B C]. split; [exact B | lia].
    + intros C. now contradiction C.
Qed.

Lemma keyed_deliver sig (w : world P) :
  keyed cfg k w -> running w = true -> keyed cfg k (deliver P sig w).
Proof.
  intros K R. pose proof K as (K1 & K2 & K3). destruct sig as [|data|msg|].
  - (* open *)
    cbn [deliver]. destruct (ws w) eqn:E; [|exact K..].
    unfold handle. cbn [Loop.on_open program]. unfold ListGroups.on_open.
    rewrite has_key.
    cbn [fst snd act_all]. unfold keyed. cbn [wire timers prog ws set_ws set_prog].
    split; [exact K1|]. split; [exact K2|].
    intros _ A. apply K3; [congruence | exact A].
  - (* message *)
    destruct (ws w) eqn:E.
    { cbn [deliver]. now rewrite E. }
    all: rewrite deliver_message by congruence.
    all: pose proof (list_reaction_shape cfg (epoch P + Z.of_N (now w)) data (prog w))
           as Hshape.
    all: remember (Loop.on_message P (epoch P + Z.of_N (now w)) data (prog w))
           as r eqn:Er.
    all: cbv zeta in Hshape.
    all: destruct Hshape as [(k' & at_ & Hk & Hau & _ & _ & Hf & Hc & Hse & Ha & Hcl)
                            |(Hse & Ha & Hau & _)].
    all: try (destruct (handle_silent cfg r w Hse Ha) as (Hw & Htm & Hp & Hws);
              rewrite E in Hws; unfold keyed; rewrite Hw, Htm, Hp, Hau;
              split; [exact K1|]; split; [exact K2|];
              destruct Hws as [Hws|Hws]; rewrite Hws;
              [exact K3 | intros C; now contradiction C]).
    all: destruct (handle_calm P r w Hc R ltac:(congruence))
           as (_ & Hp & _ & Hw & _ & Hws & Htm).
    all: rewrite E in Hw, Hws.
    all: unfold keyed; rewrite Hw, Htm, Hws, Hp, Ha, ?Hse, ?Hcl, ?Hf;
           cbn [fold_left authenticated].
    + (* a challenge answered while open *)
      destruct (K2 Hau) as [A B]. rewrite A. cbn [app].
      rewrite pending_schedule, B. cbn.
      assert (F : is_reply cfg k
                    (AuthSubmit
                       (finalizeEvent
                          (auth_template (relayUrl cfg) (at_ 1%nat)
                             (epoch P + Z.of_N (now w))) k'))).
      { rewrite has_key in Hk. injection Hk as <-. now exists (at_ 1%nat), (epoch P + Z.of_N (now w))%Z. }
      split; [right; eexists; split; [exact F | now left]|].
      split; [discriminate|].
      intros _ _. eexists. split; [exact F|]. left. split; [reflexivity | lia].
    + (* a challenge answered while closing *)
      destruct (K2 Hau) as [A B]. rewrite A. cbn [app].
      split; [now left|]. split; [discriminate|].
      intros C. now contradiction C.
  - cbn [deliver].
    destruct (transport_signal_keeps (Loop.on_error P msg) w eq_refl) as (A & B & C & D).
    unfold keyed. rewrite A, B, C. split; [exact K1|]. split; [exact K2|].
    destruct D as [D|D]; rewrite D; [exact K3 | intros Z; now contradiction Z].
  - cbn [deliver].
    destruct (transport_signal_keeps (Loop.on_close P) w eq_refl) as (A & B & C & D).
    unfold keyed. rewrite A, B, C. split; [exact K1|]. split; [exact K2|].
    destruct D as [D|D]; rewrite D; [exact K3 | intros Z; now contradiction Z].
Qed.

Lemma keyed_run tr : keyed cfg k (run P (boot P) tr).
Proof.
  apply (run_invariant P (keyed cfg k)).
  - apply keyed_fire.
  - intros t w H _ _. exact H.
  - intros sig w. apply keyed_deliver.
  - repeat constructor.
  - split; [now left|]. split; [intros _; split; reflexivity | discriminate].
Qed.

End Keyed.

Section Keyless.
Hypothesis no_key : key cfg = None.

Lemma keyless_fire due cb rest (w : world P) :
  keyless cfg w -> running w = true -> timers w = (due, cb) :: rest ->
  keyless cfg (fire_one P due cb rest w).
Proof.
  intros (K1 & K2 & K3) R Ht.
  destruct (list_timer_effect due cb rest w R) as (Hr & Hp & He).
  unfold keyless. rewrite Hr. destruct cb.
  - exfalso. rewrite Ht in K1. discriminate K1.
  - destruct He as [Hw Hws]. rewrite Hw, Hws. rewrite Ht in K1.
    split; [exact K1|]. split; [exact K2 | discriminate].
Qed.

Lemma keyless_deliver sig (w : world P) :
  keyless cfg w -> running w = true -> keyless cfg (deliver P sig w).
Proof.
  intros K R. pose proof K as (K1 & K2 & K3). destruct sig as [|data|msg|].
  - cbn [deliver]. destruct (ws w) eqn:E; [|exact K..].
    unfold handle. cbn [Loop.on_open program]. unfold ListGroups.on_open.
    rewrite no_key. cbn [fst snd].
    pose proof (K3 eq_refl) as Hnil. clear K K2 K3.
    destruct w as [pr r st n ts wi co]. unfold running in R. cbn in *.
    destruct st; try discriminate. subst wi. cbn.
    split; [exact K1|]. split; [now right | discriminate].
  - destruct (ws w) eqn:E.
    { cbn [deliver]. now rewrite E. }
    all: rewrite deliver_message by congruence.
    all: pose proof (list_reaction_shape cfg (epoch P + Z.of_N (now w)) data (prog w))
           as Hshape.
    all: remember (Loop.on_message P (epoch P + Z.of_N (now w)) data (prog w))
           as r eqn:Er.
    all: cbv zeta in Hshape.
    all: destruct Hshape as [(k' & at_ & Hk & _)|(Hse & Ha & Hau & _)];
           [congruence|].
    all: destruct (handle_silent cfg r w Hse Ha) as (Hw & Htm & Hp & Hws).
    all: rewrite E in Hws; unfold keyless; rewrite Hw, Htm.
    all: split; [exact K1|]; split; [exact K2|].
    all: destruct Hws as [Hws|Hws]; rewrite Hws; congruence.
  - cbn [deliver].
    destruct (transport_signal_keeps (Loop.on_error P msg) w eq_refl) as (A & B & C & D).
    unfold keyless. rewrite A, B. split; [exact K1|]. split; [exact K2|].
    destruct D as [D|D]; rewrite D; [exact K3 | discriminate].
  - cbn [deliver].
    destruct (transport_signal_keeps (Loop.on_close P) w eq_refl) as (A & B & C & D).
    unfold keyless. rewrite A, B. split; [exact K1|]. split; [exact K2|].
    destruct D as [D|D]; rewrite D; [exact K3 | discriminate].
Qed.

Lemma keyless_run tr : keyless cfg (run P (boot P) tr).
Proof.
  apply (run_invariant P (keyless cfg)).
  - apply keyless_fire.
  - intros t w H _ _. exact H.
  - intros sig w. apply keyless_deliver.
  - repeat constructor.
  - split; [reflexivity|]. split; [now left | reflexivity].
Qed.

End Keyless.

End Listing.

(** X8.  All list-groups ever sends.  Without a key: nothing before the
    socket opens and the one request [REQ groups {kinds: [39000]}] from
    then on; a challenge is never answered.  With a key: nothing, then the
    reply to the first challenge, then the request, and no other frame. *)
Theorem list_sends_two_frames_at_most (cfg : config) (tr : list (N * signal)) :
  let L := program cfg in
  let w := run L (boot L) tr in
  match key cfg with
  | None =>
      (wire w = [] \/ wire w = [groups_frame])
      /\ (ws w = Connecting -> wire w = [])
  | Some k =>
      wire w = []
      \/ exists challenge clock,
           let reply :=
             AuthSubmit
               (finalizeEvent (auth_template (relayUrl cfg) challenge clock) k) in
           wire w = [reply] \/ wire w = [reply; groups_frame]
  end.
Proof.
  cbv zeta. destruct (key cfg) as [k|] eqn:E.
  - destruct (keyed_run cfg k E tr) as ([H|(f & (c & t & F) & H)] & _); [now left|].
    right. exists c, t. now rewrite <- F.
  - destruct (keyless_run cfg E tr) as (_ & H1 & H2). auto.
Qed.

End ListTalk.

(** ** list-groups.js: the listing *)

Module ListRuns.
Import ListGroups ListSpec Conduct LoopFacts ListReactions ListTalk.

Section Listing.
Variable cfg : config.
Abbreviation P := (program cfg).

(** Without a challenge the script stays unauthenticated. *)
Lemma unauthenticated_deliver sig (w : world P) :
  DeleteSpec.no_challenge sig = true ->
  authenticated (prog w) = false -> running w = true ->
  authenticated (prog (deliver P sig w)) = false.
Proof.
  intros Hn Hau R. destruct sig as [|data|msg|].
  - cbn [deliver]. destruct (ws w); try exact Hau.
    unfold handle. cbn [Loop.on_open program]. unfold ListGroups.on_open.
    cbn [fst snd].
    assert (E : forall acts (w0 : world P),
               prog (act_all P acts w0) = prog w0).
    { induction acts as [|a acts IH]; intros w0; cbn [act_all]; [reflexivity|].
      destruct (running w0); [|reflexivity]. rewrite IH.
      destruct a as [e|cb d]; [|reflexivity].
      destruct e; cbn; try reflexivity. now destruct (ws w0). }
    rewrite E. exact Hau.
  - destruct (ws w) eqn:E.
    { cbn [deliver]. now rewrite E. }
    all: rewrite deliver_message by congruence.
    all: pose proof (list_reaction_shape cfg (epoch P + Z.of_N (now w)) data (prog w))
           as Hshape.
    all: remember (Loop.on_message P (epoch P + Z.of_N (now w)) data (prog w))
           as r eqn:Er.
    all: cbv zeta in Hshape.
    all: destruct Hshape as [(k' & at_ & _ & _ & Hf & Ha & _)
                            |(Hse & Harm & Hsame & _)].
    all: try (cbn [DeleteSpec.no_challenge] in Hn; unfold tagged in Hn;
              rewrite Hf, Ha in Hn; discriminate Hn).
    all: destruct (handle_silent cfg r w Hse Harm) as (_ & _ & Hp & _).
    all: rewrite Hp; congruence.
  - cbn [deliver].
    destruct (transport_signal_keeps cfg (Loop.on_error P msg) w eq_refl)
      as (_ & _ & C & _). now rewrite C.
  - cbn [deliver].
    destruct (transport_signal_keeps cfg (Loop.on_close P) w eq_refl)
      as (_ & _ & C & _). now rewrite C.
Qed.

Lemma unauthenticated_run tr :
  all_signals DeleteSpec.no_challenge tr = true ->
  authenticated (prog (run P (boot P) tr)) = false.
Proof.
  enough (forall w : world P,
             in_order (timers w) -> authenticated (prog w) = false ->
             all_signals DeleteSpec.no_challenge tr = true ->
             authenticated (prog (run P w tr)) = false) as H.
  { apply H; [repeat constructor | reflexivity]. }
  induction tr as [|[dt sig] tr IH]; intros w Hs Hi Ha; [exact Hi|].
  cbn [all_signals forallb snd] in Ha. apply andb_true_iff in Ha.
  destruct Ha as [Ha1 Ha2].
  destruct (step_invariant_for P (fun w => authenticated (prog w) = false))
    with (w := w) (dt := dt) (sig := sig) as [H1 H2];
    [| | | exact Hs | exact Hi |].
  - intros due cb rest w' Hw' R Ht.
    destruct (list_timer_effect cfg due cb rest w' R) as (_ & Hp & _).
    now rewrite Hp.
  - intros t w' Hw' _ _. exact Hw'.
  - intros w' Hw' R. now apply unauthenticated_deliver.
  - apply IH; assumption.
Qed.

End Listing.

(** X9.  With a key, list-groups sends its request only after a challenge:
    while the relay sends no AUTH frame nothing at all is sent, and from
    5000 ms on the socket is closing. *)
Theorem keyed_list_waits_for_the_challenge
    (cfg : config) (k : Signer) (tr : list (N * signal)) :
  key cfg = Some k ->
  all_signals DeleteSpec.no_challenge tr = true ->
  let L := program cfg in
  let w := run L (boot L) tr in
  wire w = []
  /\ (running w = true -> (5000 <= duration tr)%N -> ws w = Closing).
Proof.
  intros Hk Hn. cbv zeta. split.
  - destruct (keyed_run cfg k Hk tr) as (_ & K2 & _).
    now destruct (K2 (unauthenticated_run cfg tr Hn)).
  - intros R H. destruct (ListFacts.list_deadline cfg tr R) as [Hlt|Hc]; [|exact Hc].
    rewrite Clock.run_now in Hlt by exact R. cbn [now boot] in Hlt. lia.
Qed.

Lemma keyed_list_witness :
  let L := program (Demo.demo_list (Some Demo.demo_key)) in
  let w := run L (boot L)
             [(0%N, SigOpen); (100%N, SigMessage (Demo.frame2 "NOTICE" "hello"));
              (6000%N, SigOpen)] in
  wire w = []
  /\ (running w = true -> (5000 <= 6100)%N -> ws w = Closing).
Proof.
  exact (keyed_list_waits_for_the_challenge (Demo.demo_list (Some Demo.demo_key))
           Demo.demo_key
           [(0%N, SigOpen); (100%N, SigMessage (Demo.frame2 "NOTICE" "hello"));
            (6000%N, SigOpen)]
           eq_refl ltac:(vm_compute; reflexivity)).
Defined.

(** *** Events that are skipped *)

Lemma read_tag_some acc tag :
  indexer tag <> None -> exists r, read_tag acc tag = Some r.
Proof.
  unfold read_tag. destruct (indexer tag) as [at_|]; [|congruence].
  intros _. destruct acc as [[n d] p]. eauto.
Qed.

Lemma read_tags_total tags : forall acc,
  Forall (fun tag => indexer tag <> None) tags ->
  exists r, read_tags acc tags = Some r.
Proof.
  induction tags as [|t tags IH]; intros acc H; cbn [read_tags]; [eauto|].
  inversion H as [|? ? Ht Hrest]; subst.
  destruct (read_tag_some acc t Ht) as [r ->]. now apply IH.
Qed.

Lemma read_tags_some tags : forall acc r,
  read_tags acc tags = Some r -> Forall (fun tag => indexer tag <> None) tags.
Proof.
  induction tags as [|t tags IH]; intros acc r H; [constructor|].
  cbn [read_tags] in H. destruct (read_tag acc t) as [acc'|] eqn:E; [|discriminate].
  constructor; [|now apply (IH acc' r)].
  unfold read_tag in E. now destruct (indexer t).
Qed.

Lemma find_d_total tags :
  Forall (fun tag => indexer tag <> None) tags ->
  exists found, find_d tags = Some found.
Proof.
  induction 1 as [|t tags Ht _ IH]; cbn [find_d]; [eauto|].
  destruct (indexer t) as [at_|]; [|congruence].
  destruct (is_str (at_ 0%nat) "d"); eauto.
Qed.

(** X10.  The EVENT branch skips exactly the malformed events: a record is
    built if and only if the event is not [null] or [undefined], its
    [tags] is an array none of whose members is [null] or [undefined],
    and its [created_at] makes a valid date.  Neither a missing or
    unreadable [content] nor a missing [d] tag makes an event malformed. *)
Theorem reconstruct_skips_the_malformed (cfg : config) (event : value) :
  (exists g, reconstruct cfg event = Some g) <-> well_formed cfg event.
Proof.
  unfold reconstruct, well_formed. split.
  - intros [g H]. destruct (reader event) as [field|]; [|discriminate].
    destruct (field "tags") as [| | | | |tags|] eqn:Et; try discriminate.
    destruct (read_tags (from_content cfg (field "content")) tags)
      as [[[n d] p]|] eqn:Er; [|discriminate].
    destruct (find_d tags); [|discriminate].
    destruct (created_iso cfg (field "created_at")) eqn:Ec; [|discriminate].
    exists field, tags. repeat split; auto.
    + now apply read_tags_some in Er.
    + congruence.
  - intros (field & tags & Hr & Ht & Hf & Hc). rewrite Hr, Ht.
    destruct (read_tags_total tags (from_content cfg (field "content")) Hf)
      as [[[n d] p] ->].
    destruct (find_d_total tags Hf) as [found ->].
    destruct (created_iso cfg (field "created_at")); [eauto | congruence].
Qed.

(** X11.  The identifier of a listed group is the second element of the
    first [d] tag when that element is truthy and ['unknown'] otherwise:
    it is never empty, and a [d] tag after the first is not consulted. *)
Theorem group_id_is_the_first_d_tag (cfg : config) (event : value) (g : GroupRecord) :
  reconstruct cfg event = Some g ->
  truthy (id g) = true
  /\ exists field tags,
       reader event = Some field /\ field "tags" = VArr tags
       /\ id g = match RecordSpec.first_tag ["d"] tags with
                 | Some t => js_or (RecordSpec.tag_value t) (VStr "unknown")
                 | None => VStr "unknown"
                 end.
Proof.
  unfold reconstruct. intros H.
  destruct (reader event) as [field|]; [|discriminate].
  destruct (field "tags") as [| | | | |tags|] eqn:Et; try discriminate.
  destruct (read_tags (from_content cfg (field "content")) tags)
    as [[[n d] p]|]; [|discriminate].
  destruct (find_d tags) as [found|] eqn:Ef; [|discriminate].
  destruct (created_iso cfg (field "created_at")); [|discriminate].
  injection H as <-. cbn [id].
  split.
  - unfold js_or. destruct (truthy (second_of found)) eqn:E; [exact E | reflexivity].
  - exists field, tags. split; [reflexivity|]. split; [exact Et|].
    apply RecordFacts.find_d_refines in Ef. rewrite <- Ef.
    destruct found as [t|]; reflexivity.
Qed.

Lemma group_id_witness :
  exists g,
    reconstruct (Demo.demo_list None)
      (VObj [("tags", VArr [VArr [VStr "d"; VStr ""]; VArr [VStr "d"; VStr "general"]]);
             ("created_at", VNum 1737288000 0)])
    = Some g
    /\ id g = VStr "unknown" /\ truthy (id g) = true.
Proof.
  eexists. split; [vm_compute; reflexivity|].
  split; [reflexivity|].
  exact (proj1 (group_id_is_the_first_d_tag (Demo.demo_list None)
                  (VObj [("tags", VArr [VArr [VStr "d"; VStr ""];
                                        VArr [VStr "d"; VStr "general"]]);
                         ("created_at", VNum 1737288000 0)])
                  _ ltac:(vm_compute; reflexivity))).
Defined.

(** *** Frames that only touch the list or the console *)

Lemma only_tag v a b : a <> b -> is_str v a = true -> is_str v b = false.
Proof. apply CreateFacts.tag_exclusive. Qed.

(** X12.  An EVENT frame on the label [groups] never raises, sends, prints
    or closes, whatever its third element is: the record is added to the
    list when the event is well formed, and nothing changes otherwise. *)
Theorem event_frames_grow_the_list_only
    (cfg : config) (data : string) (w : world (program cfg)) :
  labelled data "EVENT" "groups" = true ->
  ws w <> Connecting ->
  let w' := deliver (program cfg) (SigMessage data) w in
  status w' = status w /\ ws w' = ws w /\ wire w' = wire w
  /\ console w' = console w /\ timers w' = timers w
  /\ authenticated (prog w') = authenticated (prog w)
  /\ exists at_,
       fields_of data = Some at_
       /\ groups (prog w')
          = (groups (prog w) ++ match reconstruct cfg (at_ 2%nat) with
                                | Some g => [g]
                                | None => []
                                end)%list.
Proof.
  intros Hl Hc. cbv zeta. rewrite deliver_message by exact Hc.
  cbn [Loop.on_message program]. rewrite list_reaction.
  unfold labelled in Hl. destruct (fields_of data) as [at_|]; [|discriminate].
  pose proof Hl as Hl'. apply andb_true_iff in Hl'. destruct Hl' as [H0 _].
  rewrite (only_tag _ "EVENT" "AUTH") by (assumption || discriminate).
  cbn [andb]. rewrite Hl. unfold handle. cbn [fst snd act_all].
  repeat split; eauto.
Qed.

Lemma event_frames_witness :
  let L := program (Demo.demo_list None) in
  let w := run L (boot L) [(0%N, SigOpen)] in
  let w' := deliver L (SigMessage (Demo.event_frame "groups" "null")) w in
  status w' = status w /\ wire w' = wire w /\ console w' = console w
  /\ groups (prog w') = [].
Proof.
  destruct (event_frames_grow_the_list_only (Demo.demo_list None)
              (Demo.event_frame "groups" "null")
              (run (program (Demo.demo_list None))
                   (boot (program (Demo.demo_list None))) [(0%N, SigOpen)])
              ltac:(vm_compute; reflexivity) ltac:(vm_compute; discriminate))
    as (A & _ & B & C & _).
  cbv zeta. split; [exact A|]. split; [exact B|]. split; [exact C|].
  vm_compute. reflexivity.
Defined.

(** X13.  A failed authentication is reported and nothing more: on an OK
    frame list-groups prints [Authentication failed:] with the relay's
    message when the identifier is truthy and the flag falsy, whichever
    event the frame is about, and in no case sends, closes, leaves or
    disarms the request that waits on its timer. *)
Theorem auth_failure_is_reported_only
    (cfg : config) (data : string) (at_ : nat -> value) (w : world (program cfg)) :
  fields_of data = Some at_ -> is_str (at_ 0%nat) "OK" = true ->
  running w = true -> ws w <> Connecting ->
  let w' := deliver (program cfg) (SigMessage data) w in
  status w' = Running /\ ws w' = ws w /\ wire w' = wire w
  /\ timers w' = timers w /\ prog w' = prog w
  /\ console w'
     = (console w
        ++ if truthy (at_ 1%nat) && negb (truthy (at_ 2%nat))
           then [(Err, [VStr "Authentication failed:"; at_ 3%nat])]
           else [])%list.
Proof.
  intros Hf H0 R Hc. cbv zeta. rewrite deliver_message by exact Hc.
  cbn [Loop.on_message program]. rewrite list_reaction, Hf.
  rewrite (only_tag _ "OK" "AUTH"), (only_tag _ "OK" "EVENT"),
    (only_tag _ "OK" "EOSE") by (assumption || discriminate).
  rewrite H0. cbn [andb].
  destruct w as [pr r st n ts wi co]. unfold running in R. cbn in R, Hc.
  destruct st; try discriminate.
  destruct (truthy (at_ 1%nat) && negb (truthy (at_ 2%nat))); cbn;
    rewrite ?app_nil_r; auto 10.
Qed.

Lemma auth_failure_witness :
  let L := program (Demo.demo_list (Some Demo.demo_key)) in
  let w := run L (boot L)
             [(0%N, SigOpen); (10%N, SigMessage (Demo.auth_frame "nonce123"))] in
  let w' := deliver L (SigMessage (Demo.ok_frame "a01" false "restricted")) w in
  console w'
  = (console w ++ [(Err, [VStr "Authentication failed:"; VStr "restricted"])])%list
  /\ wire (run L w' [(400%N, SigOpen)])
     = (wire w ++ [groups_frame])%list.
Proof.
  split.
  - exact (proj2 (proj2 (proj2 (proj2 (proj2
             (auth_failure_is_reported_only (Demo.demo_list (Some Demo.demo_key))
                (Demo.ok_frame "a01" false "restricted")
                (fun i => nth i [VStr "OK"; VStr "a01"; VBool false; VStr "restricted"]
                              VUndef)
                (run (program (Demo.demo_list (Some Demo.demo_key)))
                     (boot (program (Demo.demo_list (Some Demo.demo_key))))
                     [(0%N, SigOpen); (10%N, SigMessage (Demo.auth_frame "nonce123"))])
                ltac:(vm_compute; reflexivity) eq_refl
                ltac:(vm_compute; reflexivity) ltac:(vm_compute; discriminate))))))).
  - vm_compute. reflexivity.
Defined.

(** *** The listing *)

Lemma perform_all_wire (cfg : config) es : forall w : world (program cfg),
  forallb sends_nothing es = true ->
  wire (perform_all (program cfg) es w) = wire w.
Proof.
  induction es as [|e es IH]; intros w H; cbn [perform_all]; [reflexivity|].
  cbn [forallb] in H. apply andb_true_iff in H. destruct H as [H1 H2].
  destruct (running w); [|reflexivity]. rewrite IH by exact H2.
  destruct e; try discriminate H1; reflexivity.
Qed.

Lemma eose_reaction (cfg : config) data (w : world (program cfg)) :
  tagged data "EOSE" = true -> ws w <> Connecting ->
  deliver (program cfg) (SigMessage data) w
  = perform_all (program cfg) (listing (groups (prog w)) ++ [WsClose])%list w.
Proof.
  intros Ht Hc. rewrite deliver_message by exact Hc.
  unfold tagged in Ht. destruct (fields_of data) as [at_|] eqn:Hf; [|discriminate].
  cbn [Loop.on_message program]. rewrite list_reaction, Hf.
  rewrite (only_tag _ "EOSE" "AUTH"), (only_tag _ "EOSE" "EVENT")
    by (assumption || discriminate).
  cbn [andb]. rewrite Ht. unfold handle. cbn [fst snd].
  rewrite act_all_do. now destruct w.
Qed.

(** X14.  On an EOSE frame, whatever its label, list-groups prints the
    listing and closes the socket when every record can be printed: the
    header states how many records were collected and the records follow
    in the order they came, the one at position [i] under the number
    [i + 1].  When the name, the identifier or the description of a record
    cannot be turned into a string, the listing stops inside the first
    such record: the process ends by the uncaught exception and the
    socket is not closed.  Nothing is sent and the list is kept in both
    cases. *)
Theorem eose_prints_the_listing
    (cfg : config) (data : string) (w : world (program cfg)) :
  tagged data "EOSE" = true ->
  running w = true -> ws w <> Connecting ->
  let w' := deliver (program cfg) (SigMessage data) w in
  let gs := groups (prog w) in
  wire w' = wire w /\ prog w' = prog w
  /\ (forallb printable gs = true ->
      status w' = Running /\ ws w' = Closing
      /\ console w'
         = (console w
            ++ match gs with
               | [] => [(Out, [VStr "No groups found on this relay."])]
               | _ => header gs :: entries 0 gs
               end)%list)
  /\ (forallb printable gs = false ->
      status w' = Crashed /\ ws w' = ws w
      /\ exists before bad after,
           gs = (before ++ bad :: after)%list
           /\ forallb printable before = true /\ printable bad = false
           /\ console w'
              = (console w
                 ++ header gs
                    :: entries 0 before ++ cut_entry (List.length before) bad)%list).
Proof.
  intros Ht R Hc. cbv zeta. rewrite (eose_reaction cfg data w Ht Hc).
  pose proof (Clock.alive_status _ w R) as St.
  split; [|split; [|split]].
  - apply perform_all_wire, listing_silent.
  - apply Liveness.perform_all_prog.
  - intros Hp. rewrite (listing_lines _ Hp), (perform_says cfg _ [WsClose] w R).
    cbn [perform_all running status perform set_ws ws console].
    rewrite St. cbn. auto.
  - intros Hp. destruct (groups (prog w)) as [|g gs] eqn:Eg; [discriminate|].
    destruct (show_groups_cut (g :: gs) 0 Hp)
      as (before & bad & after & E & Hb & Hbad & rest & Hr).
    unfold listing. rewrite Hr. cbn [Nat.add].
    change (Console Out [VStr "Found "; VNum (Z.of_nat (List.length (g :: gs))) 0;
                         VStr (" group(s):" ++ newline)])
      with (say (header (g :: gs))).
    rewrite app_comm_cons, <- map_cons, <- app_assoc.
    rewrite (perform_says cfg _ _ w R).
    cbn [app perform_all running status]. rewrite St.
    rewrite perform_all_stopped by reflexivity.
    cbn [perform set_status status ws console].
    split; [reflexivity|]. split; [reflexivity|].
    exists before, bad, after. auto.
Qed.

Lemma eose_listing_witness :
  let L := program (Demo.demo_list None) in
  let event (name : string) :=
    SigMessage
      (Demo.event_frame "groups"
         ("{" ++ lit "tags" ++ ":[[" ++ lit "d" ++ "," ++ lit "general"
          ++ "],[" ++ lit "name" ++ "," ++ name ++ "]]," ++ lit "created_at"
          ++ ":1737288000}")) in
  let w := run L (boot L) [(0%N, SigOpen); (20%N, event (lit "General"))] in
  let w' := run L (boot L)
              [(0%N, SigOpen); (20%N, event ("{" ++ lit "toString" ++ ":1}"))] in
  console (deliver L (SigMessage (Demo.frame2 "EOSE" "anything")) w)
  = [(Out, [VStr "Found "; VNum 1 0; VStr (" group(s):" ++ newline)]);
     (Out, [VNum 1 0; VStr ". "; VStr "General"; VStr " "; VStr "🌐"]);
     (Out, [VStr "   ID: "; VStr "general"]);
     (Out, [VStr "   Created: "; VStr "2025-01-19T12:00:00.000Z"]);
     (Out, [VStr ""])]
  /\ status (deliver L (SigMessage (Demo.frame2 "EOSE" "anything")) w') = Crashed.
Proof.
  cbv zeta. split.
  - destruct (eose_prints_the_listing (Demo.demo_list None)
                (Demo.frame2 "EOSE" "anything")
                (run (program (Demo.demo_list None))
                     (boot (program (Demo.demo_list None)))
                     [(0%N, SigOpen);
                      (20%N, SigMessage
                         (Demo.event_frame "groups"
                            ("{" ++ lit "tags" ++ ":[[" ++ lit "d" ++ ","
                             ++ lit "general" ++ "],[" ++ lit "name" ++ ","
                             ++ lit "General" ++ "]]," ++ lit "created_at"
                             ++ ":1737288000}")))])
                ltac:(vm_compute; reflexivity) ltac:(vm_compute; reflexivity)
                ltac:(vm_compute; discriminate)) as (_ & _ & A & _).
    destruct (A ltac:(vm_compute; reflexivity)) as (_ & _ & ->).
    vm_compute. reflexivity.
  - destruct (eose_prints_the_listing (Demo.demo_list None)
                (Demo.frame2 "EOSE" "anything")
                (run (program (Demo.demo_list None))
                     (boot (program (Demo.demo_list None)))
                     [(0%N, SigOpen);
                      (20%N, SigMessage
                         (Demo.event_frame "groups"
                            ("{" ++ lit "tags" ++ ":[[" ++ lit "d" ++ ","
                             ++ lit "general" ++ "],[" ++ lit "name" ++ ","
                             ++ ("{" ++ lit "toString" ++ ":1}") ++ "]],"
                             ++ lit "created_at" ++ ":1737288000}")))])
                ltac:(vm_compute; reflexivity) ltac:(vm_compute; reflexivity)
                ltac:(vm_compute; discriminate)) as (_ & _ & _ & B).
    exact (proj1 (B ltac:(vm_compute; reflexivity))).
Defined.

End ListRuns.

(** ** Whole conversations, for every configuration and timing *)

Module Conversations.
Import Conduct LoopFacts Clock.

(** X15.  The whole conversation of delete-group.  The socket opens, the
    relay challenges, and at least 500 ms later answers the delete event;
    the transport closes before the deadline.  Then exactly two frames
    were sent, the reply to the challenge -- signed at the time the
    challenge came -- and the delete event, the relay's verdict was
    printed last and the process left with status 0. *)
Theorem delete_conversation
    (cfg : DeleteGroup.config) (d0 d1 d2 d3 : N) (challenge_frame ok : string)
    (challenge : string) (accepted message : value) (more more' : list value) :
  JSON_parse challenge_frame = Some (VArr (VStr "AUTH" :: VStr challenge :: more)) ->
  JSON_parse ok
  = Some (VArr (VStr "OK" :: VStr (id (DeleteGroup.signedEvent cfg))
                :: accepted :: message :: more')) ->
  (500 <= d2)%N -> (d0 + d1 + d2 + d3 < 15000)%N ->
  let D := DeleteGroup.program cfg in
  let w := run D (boot D)
             [(d0, SigOpen); (d1, SigMessage challenge_frame);
              (d2, SigMessage ok); (d3, SigClose)] in
  wire w
  = [AuthSubmit
       (finalizeEvent
          (auth_template (DeleteGroup.relayUrl cfg) (VStr challenge)
             (DeleteGroup.started cfg + Z.of_N (d0 + d1)))
          (DeleteGroup.key cfg));
     EventSubmit (DeleteGroup.signedEvent cfg)]
  /\ console w
     = [(Out, [VStr "Connected to relay"]); (Out, [VStr "Authenticating..."]);
        (Out, [VStr "Sending delete group event..."]);
        if truthy accepted then (Out, [VStr "✅ Group deleted!"])
        else (Err, [VStr "❌ Failed to delete group:"; message])]
  /\ status w = Exited 0.
Proof.
  intros Ha Hk H1 H2. cbv zeta.
  set (D := DeleteGroup.program cfg).
  unfold run. cbn [fold_left].
  assert (E1 : step D (boot D) (d0, SigOpen)
               = Build_world D tt Open Running d0
                   [(15000%N, DeleteGroup.Deadline)] []
                   [(Out, [VStr "Connected to relay"])]).
  { rewrite step_idle; [|reflexivity | cbn; lia]. reflexivity. }
  rewrite E1. clear E1.
  match goal with |- context [step D (step D (step D ?w _) _) _] => set (w1 := w) end.
  assert (E2 : step D w1 (d1, SigMessage challenge_frame)
               = Build_world D tt Open Running (d0 + d1)
                   [((d0 + d1 + 500)%N, DeleteGroup.SendDelete);
                    (15000%N, DeleteGroup.Deadline)]
                   [AuthSubmit
                      (finalizeEvent
                         (auth_template (DeleteGroup.relayUrl cfg) (VStr challenge)
                            (DeleteGroup.started cfg + Z.of_N (d0 + d1)))
                         (DeleteGroup.key cfg))]
                   [(Out, [VStr "Connected to relay"]);
                    (Out, [VStr "Authenticating..."])]).
  { rewrite step_idle; [|reflexivity | cbn; lia].
    cbn [deliver ws set_now w1]. unfold handle.
    cbn [on_message D DeleteGroup.program prog set_now now epoch w1].
    rewrite DeleteFacts.delete_reaction, (Session.fields_of_array _ _ Ha).
    cbn -[N.leb N.add Z.add Z.of_N].
    replace (15000 <=? d0 + d1 + 500)%N with false by (symmetry; apply N.leb_gt; lia).
    reflexivity. }
  rewrite E2. clear E2 w1.
  match goal with |- context [step D (step D ?w _) _] => set (w2 := w) end.
  assert (E3 : step D w2 (d2, SigMessage ok)
               = Build_world D tt Closing Running (d0 + d1 + d2)
                   [(15000%N, DeleteGroup.Deadline)]
                   [AuthSubmit
                      (finalizeEvent
                         (auth_template (DeleteGroup.relayUrl cfg) (VStr challenge)
                            (DeleteGroup.started cfg + Z.of_N (d0 + d1)))
                         (DeleteGroup.key cfg));
                    EventSubmit (DeleteGroup.signedEvent cfg)]
                   [(Out, [VStr "Connected to relay"]);
                    (Out, [VStr "Authenticating..."]);
                    (Out, [VStr "Sending delete group event..."]);
                    if truthy accepted then (Out, [VStr "✅ Group deleted!"])
                    else (Err, [VStr "❌ Failed to delete group:"; message])]).
  { rewrite (step_one D w2 d2 _ (d0 + d1 + 500)%N DeleteGroup.SendDelete
               [(15000%N, DeleteGroup.Deadline)]);
      [|reflexivity | reflexivity | cbn; lia | cbn; lia | reflexivity].
    cbn [deliver ws set_now fire_one w2 perform_all running status on_timer D
         DeleteGroup.program DeleteGroup.on_timer set_timers perform transmit print
         wire console timers prog now app].
    rewrite !N.max_r by lia. unfold handle.
    cbn [on_message D DeleteGroup.program].
    rewrite DeleteFacts.delete_reaction, (Session.fields_of_array _ _ Hk).
    cbn [nth is_str String.eqb Ascii.eqb Bool.eqb andb].
    rewrite String.eqb_refl.
    destruct (truthy accepted); reflexivity. }
  rewrite E3. clear E3 w2.
  rewrite step_idle; [|reflexivity | cbn; lia].
  cbn. auto.
Qed.

Lemma delete_conversation_witness :
  let D := DeleteGroup.program Demo.demo_delete in
  let w := run D (boot D)
             [(3%N, SigOpen); (10%N, SigMessage (Demo.auth_frame "nonce123"));
              (600%N, SigMessage (Demo.ok_frame "d08" true "")); (5%N, SigClose)] in
  wire w
  = [AuthSubmit
       (finalizeEvent (auth_template Demo.demo_url (VStr "nonce123") 1700000000013)
          Demo.demo_key);
     EventSubmit (DeleteGroup.signedEvent Demo.demo_delete)]
  /\ console w
     = [(Out, [VStr "Connected to relay"]); (Out, [VStr "Authenticating..."]);
        (Out, [VStr "Sending delete group event..."]);
        (Out, [VStr "✅ Group deleted!"])]
  /\ status w = Exited 0.
Proof.
  exact (delete_conversation Demo.demo_delete 3 10 600 5
           (Demo.auth_frame "nonce123") (Demo.ok_frame "d08" true "")
           "nonce123" (VBool true) (VStr "") [] []
           ltac:(vm_compute; reflexivity) ltac:(vm_compute; reflexivity)
           ltac:(vm_compute; discriminate) ltac:(vm_compute; reflexivity)).
Defined.

Lemma invite_code_not_empty draw : (CreateGroup.generateInviteCode draw =? "") = false.
Proof.
  pose proof (LinkFacts.generateInviteCode_length draw) as L.
  destruct (CreateGroup.generateInviteCode draw); [discriminate L | reflexivity].
Qed.

Section Create.
Variable cfg : CreateGroup.config.
Variables d0 d1 d2 : N.
Variables challenge_frame eose : string.
Variable challenge : string.
Variables more more' : list value.
Hypothesis challenge_read :
  JSON_parse challenge_frame = Some (VArr (VStr "AUTH" :: VStr challenge :: more)).
Hypothesis eose_read :
  JSON_parse eose = Some (VArr (VStr "EOSE" :: VStr "check" :: more')).
Hypothesis check_sent : (300 <= d2)%N.
Hypothesis in_time : (d0 + d1 + d2 < 15000)%N.

Abbreviation C := (CreateGroup.program cfg).

(** The script after the check has said that the group is new: the
    create event has just been sent. *)
Lemma create_submitted :
  run C (boot C)
    [(d0, SigOpen); (d1, SigMessage challenge_frame); (d2, SigMessage eose)]
  = Build_world C
      {| CreateGroup.authenticated := true; CreateGroup.groupExists := false |}
      Open Running (d0 + d1 + d2)
      [(15000%N, CreateGroup.Deadline)]
      [Frames.create_reply cfg challenge (CreateGroup.started cfg + Z.of_N (d0 + d1));
       CreateSpec.check_frame cfg; Close "check"; CreateSpec.create_frame cfg]
      Frames.create_prologue.
Proof.
  unfold run. cbn [fold_left].
  assert (E1 : step C (boot C) (d0, SigOpen)
               = Build_world C
                   {| CreateGroup.authenticated := false;
                      CreateGroup.groupExists := false |}
                   Open Running d0
                   [(15000%N, CreateGroup.Deadline)] []
                   [(Out, [VStr "Connected to relay"])]).
  { rewrite step_idle; [|reflexivity | cbn; lia]. reflexivity. }
  rewrite E1. clear E1.
  match goal with |- context [step C (step C ?w _) _] => set (w1 := w) end.
  assert (E2 : step C w1 (d1, SigMessage challenge_frame)
               = Build_world C
                   {| CreateGroup.authenticated := true;
                      CreateGroup.groupExists := false |}
                   Open Running (d0 + d1)
                   [((d0 + d1 + 300)%N, CreateGroup.SendCheck);
                    (15000%N, CreateGroup.Deadline)]
                   [Frames.create_reply cfg challenge
                      (CreateGroup.started cfg + Z.of_N (d0 + d1))]
                   [(Out, [VStr "Connected to relay"]);
                    (Out, [VStr "Authenticating..."])]).
  { rewrite step_idle; [|reflexivity | cbn; lia].
    cbn [deliver ws set_now w1]. unfold handle.
    cbn [on_message CreateGroup.program prog set_now now epoch w1].
    rewrite CreateFacts.create_reaction, (Session.fields_of_array _ _ challenge_read).
    cbn -[N.leb N.add Z.add Z.of_N].
    replace (15000 <=? d0 + d1 + 300)%N with false by (symmetry; apply N.leb_gt; lia).
    reflexivity. }
  rewrite E2. clear E2 w1.
  match goal with |- step C ?w _ = _ => set (w2 := w) end.
  rewrite (step_one C w2 d2 _ (d0 + d1 + 300)%N CreateGroup.SendCheck
             [(15000%N, CreateGroup.Deadline)]);
    [|reflexivity | reflexivity | cbn; lia | cbn; lia | reflexivity].
  cbn [deliver ws set_now fire_one w2 perform_all running status on_timer
       CreateGroup.program CreateGroup.on_timer set_timers perform transmit print
       wire console timers prog now app].
  rewrite !N.max_r by lia. unfold handle.
  cbn [on_message CreateGroup.program].
  rewrite CreateFacts.create_reaction, (Session.fields_of_array _ _ eose_read).
  reflexivity.
Qed.

End Create.

(** X16.  The whole conversation of create-group for a public group.  After
    the challenge the script waits 300 ms and asks whether the group
    exists; when the relay ends the check without an event, it closes the
    subscription and submits the create event; the relay's verdict is
    printed, the socket closed, and when the transport closes before the
    deadline the process leaves with status 0.  Four frames were sent, in
    this order. *)
Theorem public_create_conversation
    (cfg : CreateGroup.config) (d0 d1 d2 d3 d4 : N)
    (challenge_frame eose ok challenge : string)
    (accepted message : value) (more more1 more2 : list value) :
  CreateGroup.isPrivate cfg = false ->
  JSON_parse challenge_frame = Some (VArr (VStr "AUTH" :: VStr challenge :: more)) ->
  JSON_parse eose = Some (VArr (VStr "EOSE" :: VStr "check" :: more1)) ->
  JSON_parse ok
  = Some (VArr (VStr "OK" :: VStr (id (CreateGroup.signedEvent cfg))
                :: accepted :: message :: more2)) ->
  (300 <= d2)%N -> (d0 + d1 + d2 + d3 + d4 < 15000)%N ->
  let C := CreateGroup.program cfg in
  let w := run C (boot C)
             [(d0, SigOpen); (d1, SigMessage challenge_frame);
              (d2, SigMessage eose); (d3, SigMessage ok); (d4, SigClose)] in
  wire w
  = [Frames.create_reply cfg challenge (CreateGroup.started cfg + Z.of_N (d0 + d1));
     Req "check" {| kinds := [39000%Z]; d_tag := Some [CreateGroup.groupId cfg] |};
     Close "check";
     EventSubmit (CreateGroup.signedEvent cfg)]
  /\ console w
     = (Frames.create_prologue
        ++ if truthy accepted
           then [(Out, [VStr "✅ Group created!"]);
                 (Out, [VStr ("Group ID: " ++ CreateGroup.groupId cfg)])]
           else [(Err, [VStr "❌ Failed to create group:"; message])])%list
  /\ status w = Exited 0.
Proof.
  intros Hp Ha He Hk H1 H2. cbv zeta.
  change [(d0, SigOpen); (d1, SigMessage challenge_frame); (d2, SigMessage eose);
          (d3, SigMessage ok); (d4, SigClose)]
    with ([(d0, SigOpen); (d1, SigMessage challenge_frame); (d2, SigMessage eose)]
          ++ [(d3, SigMessage ok); (d4, SigClose)])%list.
  rewrite run_app.
  rewrite (create_submitted cfg d0 d1 d2 challenge_frame eose challenge more more1)
    by (assumption || lia).
  set (C := CreateGroup.program cfg).
  unfold run. cbn [fold_left].
  match goal with |- context [step C (step C ?w _) _] => set (w3 := w) end.
  assert (E4 : step C w3 (d3, SigMessage ok)
               = Build_world C
                   {| CreateGroup.authenticated := true;
                      CreateGroup.groupExists := false |}
                   Closing Running (d0 + d1 + d2 + d3)
                   [(15000%N, CreateGroup.Deadline)]
                   (wire w3)
                   (Frames.create_prologue
                    ++ if truthy accepted
                       then [(Out, [VStr "✅ Group created!"]);
                             (Out, [VStr ("Group ID: " ++ CreateGroup.groupId cfg)])]
                       else [(Err, [VStr "❌ Failed to create group:"; message])])%list).
  { rewrite step_idle; [|reflexivity | cbn; lia].
    cbn [deliver ws set_now w3]. unfold handle.
    cbn [on_message C CreateGroup.program prog set_now now epoch w3].
    rewrite CreateFacts.create_reaction, (Session.fields_of_array _ _ Hk).
    cbn [nth is_str String.eqb Ascii.eqb Bool.eqb andb].
    rewrite String.eqb_refl.
    unfold CreateGroup.inviteCode. rewrite Hp.
    destruct (truthy accepted); reflexivity. }
  rewrite E4. clear E4.
  rewrite step_idle; [|reflexivity | cbn; lia].
  cbn. auto.
Qed.

Lemma public_create_witness :
  let cfg := Demo.demo_create false in
  let C := CreateGroup.program cfg in
  let w := run C (boot C)
             [(2%N, SigOpen); (10%N, SigMessage (Demo.auth_frame "nonce123"));
              (400%N, SigMessage (Demo.eose_frame "check"));
              (30%N, SigMessage (Demo.ok_frame "c07" true "")); (5%N, SigClose)] in
  wire w
  = [Frames.create_reply cfg "nonce123" 1700000000012;
     Req "check" {| kinds := [39000%Z]; d_tag := Some ["teamchat"] |};
     Close "check";
     EventSubmit (CreateGroup.signedEvent cfg)]
  /\ console w
     = (Frames.create_prologue
        ++ [(Out, [VStr "✅ Group created!"]); (Out, [VStr "Group ID: teamchat"])])%list
  /\ status w = Exited 0.
Proof.
  exact (public_create_conversation (Demo.demo_create false) 2 10 400 30 5
           (Demo.auth_frame "nonce123") (Demo.eose_frame "check")
           (Demo.ok_frame "c07" true "") "nonce123" (VBool true) (VStr "") [] [] []
           eq_refl ltac:(vm_compute; reflexivity) ltac:(vm_compute; reflexivity)
           ltac:(vm_compute; reflexivity) ltac:(vm_compute; discriminate)
           ltac:(vm_compute; reflexivity)).
Defined.

(** X17.  The whole conversation of create-group for a private group: once
    the relay has accepted the create event the script submits the invite
    event, of kind 9009 with the group and the 12-character code, and on
    the next OK frame it prints the invite link, or that the invite
    failed, and closes the socket.  Five frames were sent and the process
    leaves with status 0 in both cases. *)
Theorem private_create_conversation
    (cfg : CreateGroup.config) (d0 d1 d2 d3 d4 d5 : N)
    (challenge_frame eose ok ok2 challenge other : string)
    (accepted accepted2 message message2 : value)
    (more more1 more2 more3 : list value) :
  CreateGroup.isPrivate cfg = true ->
  JSON_parse challenge_frame = Some (VArr (VStr "AUTH" :: VStr challenge :: more)) ->
  JSON_parse eose = Some (VArr (VStr "EOSE" :: VStr "check" :: more1)) ->
  JSON_parse ok
  = Some (VArr (VStr "OK" :: VStr (id (CreateGroup.signedEvent cfg))
                :: accepted :: message :: more2)) ->
  truthy accepted = true ->
  JSON_parse ok2
  = Some (VArr (VStr "OK" :: VStr other :: accepted2 :: message2 :: more3)) ->
  other <> id (CreateGroup.signedEvent cfg) ->
  (300 <= d2)%N -> (d0 + d1 + d2 + d3 + d4 + d5 < 15000)%N ->
  let C := CreateGroup.program cfg in
  let code := CreateGroup.generateInviteCode (CreateGroup.draw cfg) in
  let w := run C (boot C)
             [(d0, SigOpen); (d1, SigMessage challenge_frame);
              (d2, SigMessage eose); (d3, SigMessage ok); (d4, SigMessage ok2);
              (d5, SigClose)] in
  wire w
  = [Frames.create_reply cfg challenge (CreateGroup.started cfg + Z.of_N (d0 + d1));
     Req "check" {| kinds := [39000%Z]; d_tag := Some [CreateGroup.groupId cfg] |};
     Close "check";
     EventSubmit (CreateGroup.signedEvent cfg);
     EventSubmit
       (finalizeEvent
          {| kind := 9009;
             created_at :=
               seconds (CreateGroup.started cfg + Z.of_N (d0 + d1 + d2 + d3));
             tags := [[VStr "h"; VStr (CreateGroup.groupId cfg)];
                      [VStr "code"; VStr code]];
             content := "" |}
          (CreateGroup.key cfg))]
  /\ console w
     = (Frames.create_prologue
        ++ [(Out, [VStr "✅ Group created!"]);
            (Out, [VStr ("Group ID: " ++ CreateGroup.groupId cfg)]);
            (Out, [VStr "Creating invite code..."])]
        ++ if truthy accepted2
           then [(Out, [VStr "✅ Invite created!"]);
                 (Out, [VStr ""]);
                 (Out, [VStr CreateGroup.rule]);
                 (Out, [VStr ("Invite URL: " ++ CreateGroup.sphereUrl cfg
                              ++ "/#/agents/chat?join=" ++ CreateGroup.groupId cfg
                              ++ "%2F" ++ code)]);
                 (Out, [VStr CreateGroup.rule]);
                 (Out, [VStr ""]);
                 (Out, [VStr "Share this URL with users to join."])]
           else [(Err, [VStr "⚠️  Group created but invite failed:"; message2]);
                 (Out, [VStr ("Group ID: " ++ CreateGroup.groupId cfg)])])%list
  /\ status w = Exited 0.
Proof.
  intros Hp Ha He Hk Hacc Hk' Hother H1 H2. cbv zeta.
  change [(d0, SigOpen); (d1, SigMessage challenge_frame); (d2, SigMessage eose);
          (d3, SigMessage ok); (d4, SigMessage ok2); (d5, SigClose)]
    with ([(d0, SigOpen); (d1, SigMessage challenge_frame); (d2, SigMessage eose)]
          ++ [(d3, SigMessage ok); (d4, SigMessage ok2); (d5, SigClose)])%list.
  rewrite run_app.
  rewrite (create_submitted cfg d0 d1 d2 challenge_frame eose challenge more more1)
    by (assumption || lia).
  set (C := CreateGroup.program cfg).
  unfold run. cbn [fold_left].
  match goal with |- context [step C (step C (step C ?w _) _) _] => set (w3 := w) end.
  assert (E4 : step C w3 (d3, SigMessage ok)
               = Build_world C
                   {| CreateGroup.authenticated := true;
                      CreateGroup.groupExists := false |}
                   Open Running (d0 + d1 + d2 + d3)
                   [(15000%N, CreateGroup.Deadline)]
                   (wire w3
                    ++ [Frames.invite cfg
                          (CreateGroup.started cfg + Z.of_N (d0 + d1 + d2 + d3))])%list
                   (Frames.create_prologue
                    ++ [(Out, [VStr "✅ Group created!"]);
                        (Out, [VStr ("Group ID: " ++ CreateGroup.groupId cfg)]);
                        (Out, [VStr "Creating invite code..."])])%list).
  { rewrite step_idle; [|reflexivity | cbn; lia].
    cbn [deliver ws set_now w3]. unfold handle.
    cbn [on_message C CreateGroup.program prog set_now now epoch w3].
    rewrite CreateFacts.create_reaction, (Session.fields_of_array _ _ Hk).
    cbn [nth is_str String.eqb Ascii.eqb Bool.eqb andb].
    rewrite String.eqb_refl, Hacc.
    unfold CreateGroup.inviteCode. rewrite Hp. cbn [andb].
    rewrite invite_code_not_empty. reflexivity. }
  rewrite E4. clear E4.
  match goal with |- context [step C (step C ?w _) _] => set (w4 := w) end.
  assert (E5 : step C w4 (d4, SigMessage ok2)
               = Build_world C
                   {| CreateGroup.authenticated := true;
                      CreateGroup.groupExists := false |}
                   Closing Running (d0 + d1 + d2 + d3 + d4)
                   [(15000%N, CreateGroup.Deadline)]
                   (wire w4)
                   (console w4
                    ++ if truthy accepted2
                       then [(Out, [VStr "✅ Invite created!"]);
                             (Out, [VStr ""]);
                             (Out, [VStr CreateGroup.rule]);
                             (Out, [VStr ("Invite URL: " ++ CreateGroup.fullUrl cfg)]);
                             (Out, [VStr CreateGroup.rule]);
                             (Out, [VStr ""]);
                             (Out, [VStr "Share this URL with users to join."])]
                       else [(Err, [VStr "⚠️  Group created but invite failed:";
                                    message2]);
                             (Out, [VStr ("Group ID: " ++ CreateGroup.groupId cfg)])])%list).
  { rewrite step_idle; [|reflexivity | cbn; lia].
    cbn [deliver ws set_now w4]. unfold handle.
    cbn [on_message C CreateGroup.program prog set_now now epoch w4].
    rewrite CreateFacts.create_reaction, (Session.fields_of_array _ _ Hk').
    cbn [nth is_str String.eqb Ascii.eqb Bool.eqb andb].
    replace (other =? id (CreateGroup.signedEvent cfg)) with false
      by (symmetry; now apply String.eqb_neq).
    rewrite Hp. destruct (truthy accepted2); reflexivity. }
  rewrite E5. clear E5.
  rewrite step_idle; [|reflexivity | cbn; lia].
  cbn [deliver on_close C CreateGroup.program CreateGroup.on_close perform_all
       running status set_now perform set_status wire console w4 w3].
  split; [|split; [|reflexivity]].
  - unfold Frames.invite, CreateGroup.invite_template, CreateGroup.inviteCode.
    rewrite Hp. reflexivity.
  - unfold CreateGroup.fullUrl, CreateGroup.inviteCode_text, CreateGroup.inviteCode.
    rewrite Hp, <- app_assoc. reflexivity.
Qed.

Lemma private_create_witness :
  let cfg := Demo.demo_create true in
  let C := CreateGroup.program cfg in
  let w := run C (boot C)
             [(2%N, SigOpen); (10%N, SigMessage (Demo.auth_frame "nonce123"));
              (400%N, SigMessage (Demo.eose_frame "check"));
              (30%N, SigMessage (Demo.ok_frame "c07" true ""));
              (30%N, SigMessage (Demo.ok_frame "e09" true "")); (5%N, SigClose)] in
  List.length (wire w) = 5%nat
  /\ nth 7 (console w) (Out, [])
     = (Out, [VStr "✅ Invite created!"])
  /\ nth 10 (console w) (Out, [])
     = (Out, [VStr ("Invite URL: http://localhost:5173/#/agents/chat?join=teamchat%2F"
                    ++ CreateGroup.generateInviteCode (fun i => (7 * i + 3)%nat))])
  /\ status w = Exited 0.
Proof.
  destruct (private_create_conversation (Demo.demo_create true) 2 10 400 30 30 5
              (Demo.auth_frame "nonce123") (Demo.eose_frame "check")
              (Demo.ok_frame "c07" true "") (Demo.ok_frame "e09" true "")
              "nonce123" "e09" (VBool true) (VBool true) (VStr "") (VStr "")
              [] [] [] []
              eq_refl ltac:(vm_compute; reflexivity) ltac:(vm_compute; reflexivity)
              ltac:(vm_compute; reflexivity) eq_refl ltac:(vm_compute; reflexivity)
              ltac:(vm_compute; discriminate)
              ltac:(vm_compute; discriminate) ltac:(vm_compute; reflexivity))
    as (A & B & C).
  cbv zeta. rewrite A, B. repeat split; try reflexivity; exact C.
Defined.

End Conversations.

(** ** Before the scripts connect *)

Module StartupFacts.
Import Startup StartupSpec IdSpec.

Lemma present_some v s : present v = Some s -> v = Some s /\ s <> "".
Proof.
  unfold present. destruct v as [t|]; [|discriminate].
  destruct (String.eqb_spec t ""); [discriminate|].
  intros E. injection E as <-. auto.
Qed.

Lemma present_of s : s <> "" -> present (Some s) = Some s.
Proof.
  intros H. unfold present. now destruct (String.eqb_spec s "").
Qed.

Lemma filtered_without pre post o :
  startsWith o "--" = true ->
  filteredArgs (pre ++ o :: post) = filteredArgs (pre ++ post).
Proof.
  intros H. unfold filteredArgs. rewrite !filter_app. cbn [filter].
  now rewrite H.
Qed.

Lemma includes_insert pre post o x :
  includes (pre ++ o :: post) x = (x =? o) || includes (pre ++ post) x.
Proof.
  unfold includes. rewrite !existsb_app. cbn [existsb].
  destruct (existsb (String.eqb x) pre), (x =? o); reflexivity.
Qed.

(** What create-group does once the option and the words are known. *)
Lemma create_group_by_parts args args' env lib clock draw :
  includes args "--private" = includes args' "--private" ->
  filteredArgs args = filteredArgs args' ->
  create_group args env lib clock draw = create_group args' env lib clock draw.
Proof. intros H1 H2. unfold create_group. now rewrite H1, H2. Qed.

(** X18.  A word that starts with two dashes is an option wherever it stands
    on the command line of create-group: [--private] makes the group
    private from any position, and every other such word is dropped
    without a message, so it is never taken for the name or the
    description. *)
Theorem create_options_stand_anywhere
    (pre post : list string) (o : string) (env : Environment) (lib : Wallet)
    (clock : Z) (draw : nat -> nat) :
  startsWith o "--" = true ->
  create_group (pre ++ o :: post) env lib clock draw
  = if o =? "--private"
    then create_group ("--private" :: pre ++ post) env lib clock draw
    else create_group (pre ++ post) env lib clock draw.
Proof.
  intros H.
  destruct (String.eqb_spec o "--private") as [->|Ho];
    apply create_group_by_parts.
  - rewrite includes_insert. reflexivity.
  - rewrite (filtered_without pre post _ H). reflexivity.
  - rewrite includes_insert.
    destruct (String.eqb_spec "--private" o) as [E|_]; [now symmetry in E|].
    reflexivity.
  - apply filtered_without, H.
Qed.

Lemma create_options_witness :
  let env := {| NOSTR_MNEMONIC := Some "phrase"; RELAY_URL := None;
                SPHERE_URL := None |} in
  let lib := {| validateMnemonic := fun _ => true;
                privateKey := fun _ => Some Demo.demo_key |} in
  create_group ["team"; "--private"; "Team only"] env lib 1700000000000 (fun i => i)
  = create_group ["--private"; "team"; "Team only"] env lib 1700000000000 (fun i => i)
  /\ create_group ["team"; "Team only"; "--public"] env lib 1700000000000 (fun i => i)
     = create_group ["team"; "Team only"] env lib 1700000000000 (fun i => i).
Proof.
  split.
  - exact (create_options_stand_anywhere ["team"] ["Team only"] "--private" _ _ _ _
             eq_refl).
  - exact (create_options_stand_anywhere ["team"; "Team only"] [] "--public" _ _ _ _
             eq_refl).
Defined.

Lemma all_err lines : Forall (fun l : stream * list value => fst l = Err) (map err lines).
Proof. induction lines; cbn; constructor; auto. Qed.

Lemma ready_phrase first env lib phrase :
  present (NOSTR_MNEMONIC env) = Some phrase ->
  ready first env lib ->
  validateMnemonic lib phrase = true /\ exists k, privateKey lib phrase = Some k.
Proof.
  intros E (word & p & k & _ & Hp & Hv & Hk).
  rewrite E in Hp. injection Hp as <-. eauto.
Qed.

(** X19.  delete-group and create-group connect exactly when they are ready:
    the word they need is on the command line, the recovery phrase is in
    the environment and valid, and a key comes out of it.  Otherwise they
    leave with status 1 before any connection, having written to the
    error stream only; when they connect they have written to the output
    stream only. *)
Theorem refusals_leave_with_one
    (args : list string) (env : Environment) (lib : Wallet) (clock : Z)
    (draw : nat -> nat) :
  match delete_group args env lib clock with
  | Quit printed code =>
      code = 1%Z /\ printed <> []
      /\ Forall (fun l => fst l = Err) printed
      /\ ~ ready (nth_error args 0) env lib
  | Connect printed cfg =>
      Forall (fun l => fst l = Out) printed /\ ready (nth_error args 0) env lib
  end
  /\ match create_group args env lib clock draw with
     | Quit printed code =>
         code = 1%Z /\ printed <> []
         /\ Forall (fun l => fst l = Err) printed
         /\ ~ ready (nth_error (filteredArgs args) 0) env lib
     | Connect printed cfg =>
         Forall (fun l => fst l = Out) printed
         /\ ready (nth_error (filteredArgs args) 0) env lib
     end.
Proof.
  split.
  - unfold delete_group.
    destruct (present (nth_error args 0)) as [word|] eqn:Ew.
    2:{ repeat split; [discriminate | apply all_err |].
        intros (w & p & k & H & _). congruence. }
    destruct (present (NOSTR_MNEMONIC env)) as [phrase|] eqn:Ep.
    2:{ repeat split; [discriminate | apply all_err |].
        intros (w & p & k & _ & H & _). congruence. }
    destruct (validateMnemonic lib phrase) eqn:Ev.
    2:{ repeat split; [discriminate | apply (all_err [_]) |].
        intros R. destruct (ready_phrase _ _ _ _ Ep R) as [H _]. congruence. }
    destruct (privateKey lib phrase) as [k|] eqn:Ek.
    2:{ repeat split; [discriminate | apply (all_err [_]) |].
        intros R. destruct (ready_phrase _ _ _ _ Ep R) as [_ [k H]]. congruence. }
    split; [repeat constructor|]. exists word, phrase, k. auto.
  - unfold create_group. cbv zeta.
    destruct (present (nth_error (filteredArgs args) 0)) as [word|] eqn:Ew.
    2:{ repeat split; [discriminate | apply all_err |].
        intros (w & p & k & H & _). congruence. }
    destruct (present (NOSTR_MNEMONIC env)) as [phrase|] eqn:Ep.
    2:{ repeat split; [discriminate | apply all_err |].
        intros (w & p & k & _ & H & _). congruence. }
    destruct (validateMnemonic lib phrase) eqn:Ev.
    2:{ repeat split; [discriminate | apply (all_err [_]) |].
        intros R. destruct (ready_phrase _ _ _ _ Ep R) as [H _]. congruence. }
    destruct (privateKey lib phrase) as [k|] eqn:Ek.
    2:{ repeat split; [discriminate | apply (all_err [_]) |].
        intros R. destruct (ready_phrase _ _ _ _ Ep R) as [_ [k H]]. congruence. }
    split; [repeat constructor|]. exists word, phrase, k. auto.
Qed.

(** X20.  A recovery phrase that is not valid stops delete-group and
    create-group with status 1, but not list-groups: it connects without a
    key, says that no phrase was given, and then never signs anything --
    all it ever sends is the request for the groups. *)
Theorem invalid_phrase_lists_anonymously
    (word phrase : string) (env : Environment) (lib : Wallet) (clock : Z)
    (draw : nat -> nat) (number_toString : Z -> Z -> string)
    (created_iso : value -> option string) (tr : list (N * signal)) :
  word <> "" -> startsWith word "--" = false ->
  present (NOSTR_MNEMONIC env) = Some phrase ->
  validateMnemonic lib phrase = false ->
  delete_group [word] env lib clock = Quit [err "Error: Invalid mnemonic phrase"] 1
  /\ create_group [word] env lib clock draw
     = Quit [err "Error: Invalid mnemonic phrase"] 1
  /\ exists cfg,
       list_groups env lib clock number_toString created_iso
       = Connect
           [out ("Fetching groups from " ++ or_else (RELAY_URL env) default_relay
                 ++ "...");
            out "(No NOSTR_MNEMONIC - listing public groups only)"; out ""]
           cfg
       /\ ListGroups.key cfg = None
       /\ let w := run (ListGroups.program cfg) (boot (ListGroups.program cfg)) tr in
          wire w = [] \/ wire w = [ListSpec.groups_frame].
Proof.
  intros Hw Hd Hp Hv. split; [|split].
  - unfold delete_group. cbn [nth_error]. now rewrite (present_of _ Hw), Hp, Hv.
  - unfold create_group, filteredArgs. cbn [filter]. rewrite Hd. cbn [negb nth_error].
    now rewrite (present_of _ Hw), Hp, Hv.
  - assert (K : list_key env lib = None) by (unfold list_key; now rewrite Hp, Hv).
    eexists. split; [|split].
    + unfold list_groups. cbv zeta. rewrite K. reflexivity.
    + reflexivity.
    + cbv zeta.
      match goal with |- context [run (ListGroups.program ?c)] => set (cfg := c) end.
      destruct (ListTalk.keyless_run cfg eq_refl tr) as (_ & H & _). exact H.
Qed.

Lemma invalid_phrase_witness :
  let env := {| NOSTR_MNEMONIC := Some "not a phrase"; RELAY_URL := None;
                SPHERE_URL := None |} in
  let lib := {| validateMnemonic := fun _ => false;
                privateKey := fun _ => Some Demo.demo_key |} in
  delete_group ["general"] env lib 1700000000000
  = Quit [err "Error: Invalid mnemonic phrase"] 1
  /\ exists cfg,
       list_groups env lib 1700000000000 (fun m _ => CreateGroup.toString36 m)
         (fun _ => None)
       = Connect
           [out "Fetching groups from ws://localhost:3334...";
            out "(No NOSTR_MNEMONIC - listing public groups only)"; out ""]
           cfg
       /\ wire (run (ListGroups.program cfg) (boot (ListGroups.program cfg))
                  [(0%N, SigOpen); (5%N, SigMessage (Demo.auth_frame "nonce123"))])
          = [ListSpec.groups_frame].
Proof.
  cbv zeta.
  destruct (invalid_phrase_lists_anonymously "general" "not a phrase"
              {| NOSTR_MNEMONIC := Some "not a phrase"; RELAY_URL := None;
                 SPHERE_URL := None |}
              {| validateMnemonic := fun _ => false;
                 privateKey := fun _ => Some Demo.demo_key |}
              1700000000000 (fun i => i) (fun m _ => CreateGroup.toString36 m)
              (fun _ => None)
              [(0%N, SigOpen); (5%N, SigMessage (Demo.auth_frame "nonce123"))]
              ltac:(discriminate) eq_refl eq_refl eq_refl)
    as (A & _ & cfg & B & _ & _).
  split; [exact A|].
  exists cfg. split; [exact B|].
  injection B as <-. vm_compute. reflexivity.
Defined.

Lemma create_connects args env lib clock draw printed cfg :
  create_group args env lib clock draw = Connect printed cfg ->
  exists phrase k,
    present (NOSTR_MNEMONIC env) = Some phrase
    /\ validateMnemonic lib phrase = true
    /\ privateKey lib phrase = Some k
    /\ CreateGroup.name cfg <> ""
    /\ CreateGroup.started cfg = clock
    /\ In (out ("Group ID: " ++ CreateGroup.groupId cfg)) printed.
Proof.
  unfold create_group. cbv zeta.
  destruct (present (nth_error (filteredArgs args) 0)) as [word|] eqn:Ew;
    [|discriminate].
  destruct (present (NOSTR_MNEMONIC env)) as [phrase|] eqn:Ep; [|discriminate].
  destruct (validateMnemonic lib phrase) eqn:Ev; [|discriminate].
  destruct (privateKey lib phrase) as [k|] eqn:Ek; [|discriminate].
  intros E. injection E as <- <-.
  exists phrase, k. apply present_some in Ew. cbn. intuition.
Qed.

Lemma delete_connects word env lib clock phrase k :
  word <> "" ->
  present (NOSTR_MNEMONIC env) = Some phrase ->
  validateMnemonic lib phrase = true ->
  privateKey lib phrase = Some k ->
  exists printed cfg,
    delete_group [word] env lib clock = Connect printed cfg
    /\ DeleteGroup.groupId cfg = word.
Proof.
  intros Hw Hp Hv Hk. unfold delete_group. cbn [nth_error].
  rewrite (present_of _ Hw), Hp, Hv, Hk. eauto.
Qed.

Lemma name_is_its_id name clock :
  name <> "" -> date_range clock ->
  CreateGroup.generateGroupId name clock = name
  <-> id_only name /\ String.length name <= 24.
Proof.
  intros Hn Hd. split.
  - intros E. destruct (LinkFacts.groupId_shape name clock Hd) as (A & B & _).
    rewrite E in A, B. auto.
  - intros [A B]. unfold CreateGroup.generateGroupId. cbv zeta.
    rewrite (LinkFacts.normalization_fixes_ids _ A B).
    now destruct (String.eqb_spec name "").
Qed.

(** X21.  delete-group takes its argument as the identifier, without the
    normalization of create-group.  So the group that create-group has
    made is deleted by the identifier it printed -- with the same
    environment delete-group connects and its event is about the same
    group -- and by the name only when the name is already an identifier:
    at most 24 characters of [a-z0-9]. *)
Theorem delete_needs_the_printed_id
    (args : list string) (env : Environment) (lib : Wallet) (clock clock' : Z)
    (draw : nat -> nat) (printed : list (stream * list value))
    (ccfg : CreateGroup.config) :
  date_range clock ->
  create_group args env lib clock draw = Connect printed ccfg ->
  In (out ("Group ID: " ++ CreateGroup.groupId ccfg)) printed
  /\ (exists printed' dcfg,
        delete_group [CreateGroup.groupId ccfg] env lib clock'
        = Connect printed' dcfg
        /\ target (DeleteGroup.eventTemplate dcfg)
           = target (CreateGroup.eventTemplate ccfg))
  /\ (exists printed' dcfg,
        delete_group [CreateGroup.name ccfg] env lib clock' = Connect printed' dcfg
        /\ (target (DeleteGroup.eventTemplate dcfg)
            = target (CreateGroup.eventTemplate ccfg)
            <-> id_only (CreateGroup.name ccfg)
                /\ String.length (CreateGroup.name ccfg) <= 24)).
Proof.
  intros Hd Hc.
  destruct (create_connects _ _ _ _ _ _ _ Hc) as (phrase & k & Hp & Hv & Hk & Hn & Hs & Hi).
  split; [exact Hi|]. split.
  - assert (Hid : CreateGroup.groupId ccfg <> "").
    { unfold CreateGroup.groupId. rewrite Hs.
      apply (LinkFacts.groupId_shape _ _ Hd). }
    destruct (delete_connects _ env lib clock' _ _ Hid Hp Hv Hk)
      as (printed' & dcfg & E & G).
    exists printed', dcfg. split; [exact E|].
    unfold target. cbn. now rewrite G.
  - destruct (delete_connects _ env lib clock' _ _ Hn Hp Hv Hk)
      as (printed' & dcfg & E & G).
    exists printed', dcfg. split; [exact E|].
    unfold target. cbn. rewrite G.
    rewrite <- (name_is_its_id _ clock Hn Hd).
    unfold CreateGroup.groupId. rewrite Hs.
    split; [intros H; now injection H | intros H; now rewrite H].
Qed.

Lemma delete_needs_id_witness :
  let env := {| NOSTR_MNEMONIC := Some "phrase"; RELAY_URL := None;
                SPHERE_URL := None |} in
  let lib := {| validateMnemonic := fun _ => true;
                privateKey := fun _ => Some Demo.demo_key |} in
  exists printed ccfg,
    create_group ["Team Chat!!"] env lib 1700000000000 (fun i => i)
    = Connect printed ccfg
    /\ CreateGroup.groupId ccfg = "teamchat"
    /\ (exists printed' dcfg,
          delete_group ["teamchat"] env lib 1700000500000 = Connect printed' dcfg
          /\ target (DeleteGroup.eventTemplate dcfg)
             = target (CreateGroup.eventTemplate ccfg))
    /\ (exists printed' dcfg,
          delete_group ["Team Chat!!"] env lib 1700000500000 = Connect printed' dcfg
          /\ target (DeleteGroup.eventTemplate dcfg)
             <> target (CreateGroup.eventTemplate ccfg)).
Proof.
  cbv zeta. eexists. eexists. split; [reflexivity|]. split; [reflexivity|].
  match goal with
  | |- context [CreateGroup.eventTemplate ?c] =>
      destruct (delete_needs_the_printed_id ["Team Chat!!"]
                  {| NOSTR_MNEMONIC := Some "phrase"; RELAY_URL := None;
                     SPHERE_URL := None |}
                  {| validateMnemonic := fun _ => true;
                     privateKey := fun _ => Some Demo.demo_key |}
                  1700000000000 1700000500000 (fun i => i) _ c
                  ltac:(unfold date_range; lia) eq_refl)
        as (_ & A & B)
  end.
  split; [exact A|].
  destruct B as (printed' & dcfg & E & _).
  exists printed', dcfg. split; [exact E|].
  injection E as _ <-. vm_compute. discriminate.
Defined.

End StartupFacts.
